(** * The qEEG analysis core of EEG-Viewer

    A shallow embedding of [eeg_viewer/data/normative_db.py],
    [eeg_viewer/data/signal_processor.py] and
    [eeg_viewer/data/qeeg_analyzer.py].

    Numbers are IEEE-754 binary64 values, which is what a Python [float] and
    a numpy [float64] are; Rocq's primitive floats implement the same format,
    so [nan], the infinities, signed zeros and rounding are those of the
    program.  Python dictionaries are finite maps, numpy vectors are lists,
    a two-dimensional array is a list of rows together with its column count.
    Exceptions are values of [result]; methods that update [self] are
    functions in a state-and-exception monad. *)

From Stdlib Require Import ZArith List Floats Uint63 Lia Bool.
From stdpp Require Import gmap strings list sorting pretty.

Set Warnings "-inexact-float".

(** ** Python and numpy primitives *)

Module Py.

Inductive exn : Type :=
| ValueError
| OverflowError
| ZeroDivisionError
| IndexError
| KeyError
| TypeError
| UnboundLocalError.

Inductive result (A : Type) : Type :=
| Ok (a : A)
| Raise (e : exn).
Arguments Ok {A} a.
Arguments Raise {A} e.

Definition is_ok {A} (r : result A) : bool :=
  match r with Ok _ => true | Raise _ => false end.

#[export] Instance result_ret : MRet result := @Ok.
#[export] Instance result_bind : MBind result := fun A B f r =>
  match r with Ok a => f a | Raise e => Raise e end.

(** [float(k)] for a Python int; exact below 2^53. *)
Definition float_of_Z (z : Z) : float :=
  match z with
  | Z0 => 0%float
  | Zpos _ => of_uint63 (Uint63.of_Z z)
  | Zneg p => (- of_uint63 (Uint63.of_Z (Zpos p)))%float
  end.

Definition float_of_nat (n : nat) : float := float_of_Z (Z.of_nat n).

(** [int(x)]: truncation toward zero; [nan] and the infinities raise. *)
Definition py_int (x : float) : result Z :=
  match Prim2SF x with
  | S754_zero _ => Ok 0%Z
  | S754_finite s m e =>
      let mag := (if (0 <=? e)%Z then Z.shiftl (Zpos m) e
                  else Z.shiftr (Zpos m) (- e))%Z in
      Ok (if s then (- mag)%Z else mag)
  | S754_infinity _ => Raise OverflowError
  | S754_nan => Raise ValueError
  end.

(** [a or d] where [a] is [None] or a float: zero is falsy. *)
Definition py_or (a : option float) (d : float) : float :=
  match a with
  | Some x => if (x =? 0)%float then d else x
  | None => d
  end.

(** Python's builtin [max(a, b)]: [b] only when [b > a]. *)
Definition py_max (a b : float) : float :=
  if (a <? b)%float then b else a.

(** [range(n)] *)
Definition range (n : Z) : list Z :=
  map Z.of_nat (seq 0 (Z.to_nat n)).

(** [np.zeros(n)] and [np.zeros_like(v)] *)
Definition np_zeros (n : nat) : list float := repeat 0%float n.
Definition np_zeros_like (v : list float) : list float := np_zeros (length v).

(** [np.sum]: the elements are accumulated from left to right.  numpy adds
    long vectors in pairwise blocks, which changes the rounding only; no
    statement below depends on the order of the additions. *)
Definition np_sum (v : list float) : float :=
  fold_left (fun acc x => (acc + x)%float) v 0%float.

(** [np.mean(v)]: sum over count; the empty vector gives [0/0 = nan]. *)
Definition np_mean (v : list float) : float :=
  (np_sum v / float_of_nat (length v))%float.

(** [np.std(v, ddof=1)]: numpy's [_var] subtracts the mean, squares, sums,
    divides by [max(n - ddof, 0)] and takes the square root. *)
Definition np_std_ddof1 (v : list float) : float :=
  let mean := np_mean v in
  let sq := map (fun x => ((x - mean) * (x - mean))%float) v in
  PrimFloat.sqrt (np_sum sq / float_of_nat (length v - 1))%float.

Definition np_any (m : list bool) : bool := existsb id m.
Definition np_all (m : list bool) : bool := forallb id m.

(** [np.maximum] and [np.minimum] on scalars propagate [nan]. *)
Definition np_maximum (a b : float) : float :=
  if (b <=? a)%float || is_nan a then a else b.
Definition np_minimum (a b : float) : float :=
  if (a <=? b)%float || is_nan a then a else b.

(** [np.max] and [np.min] of one row; an empty row raises. *)
Definition np_max (row : list float) : result float :=
  match row with
  | [] => Raise ValueError
  | x :: rest => Ok (fold_left np_maximum rest x)
  end.
Definition np_min (row : list float) : result float :=
  match row with
  | [] => Raise ValueError
  | x :: rest => Ok (fold_left np_minimum rest x)
  end.

(** [v[mask]] for a boolean mask: the lengths must agree. *)
Fixpoint select {A} (mask : list bool) (v : list A) : list A :=
  match mask, v with
  | b :: mask', x :: v' => if b then x :: select mask' v' else select mask' v'
  | _, _ => []
  end.
Definition bool_index {A} (mask : list bool) (v : list A) : result (list A) :=
  if (length mask =? length v)%nat then Ok (select mask v) else Raise IndexError.

(** [v[i]] on a list or a one-dimensional array. *)
Definition getitem {A} (v : list A) (i : nat) : result A :=
  match v !! i with Some x => Ok x | None => Raise IndexError end.

(** [d[k]] on a dictionary. *)
Definition dict_get `{Countable K} {A} (d : gmap K A) (k : K) : result A :=
  match d !! k with Some x => Ok x | None => Raise KeyError end.

(** [l.index(x)]: position of the first occurrence. *)
Fixpoint index (x : string) (l : list string) : result nat :=
  match l with
  | [] => Raise ValueError
  | y :: l' => if String.eqb y x then Ok 0 else n ← index x l'; Ok (S n)
  end.

(** [x in l] *)
Definition contains (x : string) (l : list string) : bool :=
  existsb (String.eqb x) l.

(** A two-dimensional array: [shape1] columns, [length rows] rows. *)
Record ndarray := { rows : list (list float); shape1 : nat }.

Definition shape0 (a : ndarray) : nat := length (rows a).

Definition well_formed (a : ndarray) : Prop :=
  Forall (fun r => length r = shape1 a) (rows a).

(** [v[start:stop]]; the bounds that occur are never negative. *)
Definition slice {A} (start stop : Z) (v : list A) : list A :=
  take (Z.to_nat stop - Z.to_nat start) (drop (Z.to_nat start) v).

(** [a[:, start:stop]] *)
Definition slice_cols (a : ndarray) (start stop : Z) : ndarray :=
  {| rows := map (slice start stop) (rows a);
     shape1 := Nat.min (Z.to_nat stop) (shape1 a)
               - Nat.min (Z.to_nat start) (shape1 a) |}.

(** [np.concatenate(arrays, axis=1)]: no array, or arrays of different
    heights, raise. *)
Definition np_concatenate_axis1 (arrays : list ndarray) : result ndarray :=
  match arrays with
  | [] => Raise ValueError
  | a :: rest =>
      if forallb (fun b => (shape0 b =? shape0 a)%nat) rest then
        Ok {| rows := fold_left (fun acc b => zip_with app acc (rows b))
                        rest (rows a);
              shape1 := fold_left (fun n b => n + shape1 b) rest (shape1 a) |}
      else Raise ValueError
  end.

(** [a // b] on Python ints. *)
Definition floordiv (a b : Z) : result Z :=
  if (b =? 0)%Z then Raise ZeroDivisionError else Ok (a / b)%Z.

(** A [for] loop whose body may raise. *)
Fixpoint for_each {A S} (body : S → A → result S) (l : list A) (s : S)
  : result S :=
  match l with
  | [] => Ok s
  | x :: l' => s' ← body s x; for_each body l' s'
  end.

(** Methods: the object is threaded through, and is kept as it is at the
    moment an exception leaves the method. *)
Definition M (S A : Type) : Type := S → result A * S.

#[export] Instance M_ret {S} : MRet (M S) := fun A a s => (Ok a, s).
#[export] Instance M_bind {S} : MBind (M S) := fun A B f m s =>
  match m s with
  | (Ok a, s') => f a s'
  | (Raise e, s') => (Raise e, s')
  end.

Definition get {S} : M S S := fun s => (Ok s, s).
Definition modify {S} (f : S → S) : M S unit := fun s => (Ok tt, f s).
Definition lift {S A} (r : result A) : M S A := fun s => (r, s).
Definition raise {S A} (e : exn) : M S A := fun s => (Raise e, s).

(** A [for] loop inside a method; [acc] holds the local variables the
    body assigns. *)
Fixpoint for_eachM {A L S} (body : L → A → M S L) (l : list A) (acc : L)
  : M S L :=
  match l with
  | [] => mret acc
  | x :: l' => acc' ← body acc x; for_eachM body l' acc'
  end.

(** [a[:, mask]] for a boolean mask over the columns. *)
Definition mask_cols (mask : list bool) (a : ndarray) : result ndarray :=
  if (length mask =? shape1 a)%nat then
    Ok {| rows := map (select mask) (rows a);
          shape1 := length (List.filter id mask) |}
  else Raise IndexError.

(** [a / b] on vectors, with numpy's broadcasting of a length-one operand. *)
Definition np_divide (a b : list float) : result (list float) :=
  if (length a =? length b)%nat then
    Ok (zip_with (fun x y => (x / y)%float) a b)
  else
    match a, b with
    | [x], _ => Ok (map (fun y => (x / y)%float) b)
    | _, [y] => Ok (map (fun x => (x / y)%float) a)
    | _, _ => Raise ValueError
    end.

(** [np.eye(n)] *)
Definition np_eye (n : nat) : list (list float) :=
  map (fun i => map (fun j => if (i =? j)%nat then 1%float else 0%float)
                    (seq 0 n))
      (seq 0 n).

(** [m[i, j] = v] for indices inside the matrix. *)
Definition setitem2 (i j : nat) (v : float) (m : list (list float))
  : list (list float) :=
  alter (fun row => <[j := v]> row) i m.

End Py.
Import Py.

(** ** utils/constants.py *)

Module Constants.

(** [FREQ_BANDS]: a dictionary literal, iterated in insertion order. *)
Definition FREQ_BANDS : list (string * (float * float)) :=
  [ ("Delta", (1.0, 4.0)); ("Theta", (4.0, 8.0));
    ("Alpha", (8.0, 13.0)); ("Beta", (13.0, 25.0)) ]%float.

Definition TOTAL_POWER_RANGE : float * float := (1.0, 25.0)%float.
Definition PSD_NPERSEG : Z := 1024.

End Constants.
Import Constants.

(** ** data/normative_db.py *)

Module NormativeDB.

Record norm := { norm_mean : float; norm_std : float }.

Definition NORMATIVE_RELATIVE_POWER : gmap string norm :=
  <["Delta" := {| norm_mean := 0.28; norm_std := 0.09 |}]>
  (<["Theta" := {| norm_mean := 0.18; norm_std := 0.07 |}]>
  (<["Alpha" := {| norm_mean := 0.32; norm_std := 0.11 |}]>
  (<["Beta" := {| norm_mean := 0.14; norm_std := 0.06 |}]> ∅))).

(** The object holds one field, [_method]. *)
Record t := { _method : string }.

Definition set_method (method : string) (self : t) : t :=
  {| _method := method |}.

Definition compute_zscore_within_subject (channel_values : list float)
  : list float :=
  let mean := np_mean channel_values in
  let std := np_std_ddof1 channel_values in
  if (std <? 1e-10)%float then np_zeros_like channel_values
  else map (fun v => ((v - mean) / std)%float) channel_values.

Definition compute_zscore_normative (channel_values : list float)
    (band_name : string) : list float :=
  match NORMATIVE_RELATIVE_POWER !! band_name with
  | None => np_zeros_like channel_values
  | Some nrm =>
      map (fun v => ((v - norm_mean nrm) / norm_std nrm)%float) channel_values
  end.

Definition compute_zscores (self : t) (channel_values : list float)
    (band_name : option string) : result (list float) :=
  if String.eqb (_method self) "within" then
    Ok (compute_zscore_within_subject channel_values)
  else
    match band_name with
    | None => Raise ValueError
    | Some b => Ok (compute_zscore_normative channel_values b)
    end.

End NormativeDB.


(** ** data/signal_processor.py *)

Module SignalProcessor.

Definition EPOCH_DURATION_SEC : float := 2.0.
Definition ARTIFACT_THRESHOLD_UV : float := 100.0.
Definition MIN_CLEAN_EPOCHS : nat := 30.

(** The relaxed thresholds, a list literal of Python ints; they are
    compared with and stored in place of floats. *)
Definition RELAXED_THRESHOLDS : list float := [150; 200; 300; 500]%float.

(** The fields of the object that artifact rejection and the spectral
    methods read or write ([channel_quality] and [bad_channels] belong to
    impedance detection). *)
Record t := {
  sfreq : float;
  n_clean_epochs : Z;
  n_total_epochs : Z;
  rejection_threshold : float
}.

Definition __init__ (sfreq : float) : t :=
  {| sfreq := sfreq; n_clean_epochs := 0; n_total_epochs := 0;
     rejection_threshold := ARTIFACT_THRESHOLD_UV |}.

Definition set_n_clean_epochs (v : Z) (self : t) : t :=
  {| sfreq := sfreq self; n_clean_epochs := v;
     n_total_epochs := n_total_epochs self;
     rejection_threshold := rejection_threshold self |}.
Definition set_n_total_epochs (v : Z) (self : t) : t :=
  {| sfreq := sfreq self; n_clean_epochs := n_clean_epochs self;
     n_total_epochs := v;
     rejection_threshold := rejection_threshold self |}.
Definition set_rejection_threshold (v : float) (self : t) : t :=
  {| sfreq := sfreq self; n_clean_epochs := n_clean_epochs self;
     n_total_epochs := n_total_epochs self;
     rejection_threshold := v |}.

(** [(np.max(epoch, axis=1) - np.min(epoch, axis=1)) * 1e6] *)
Definition ptp_uv (epoch : ndarray) : result (list float) :=
  mx ← mapM np_max (rows epoch);
  mn ← mapM np_min (rows epoch);
  Ok (zip_with (fun a b => ((a - b) * 1e6)%float) mx mn).

(** [data[:, e * epoch_samples : e * epoch_samples + epoch_samples]] *)
Definition epoch_at (data : ndarray) (epoch_samples e : Z) : ndarray :=
  let start := (e * epoch_samples)%Z in
  let stop := (start + epoch_samples)%Z in
  slice_cols data start stop.

(** The loop over [range(n_epochs)] that collects the clean epochs. *)
Definition scan_epochs (data : ndarray) (epoch_samples n_epochs : Z)
    (threshold : float) : result (list ndarray) :=
  for_each (fun clean_epochs e =>
      let epoch := epoch_at data epoch_samples e in
      ptp ← ptp_uv epoch;
      if np_all (map (fun p => (p <=? threshold)%float) ptp)
      then Ok (clean_epochs ++ [epoch])
      else Ok clean_epochs)
    (range n_epochs) [].

(** [for relaxed_thresh in [150, 200, 300, 500]: ... break] *)
Fixpoint relax (data : ndarray) (epoch_samples n_epochs : Z)
    (ladder : list float) (clean_epochs : list ndarray)
  : M t (list ndarray) :=
  match ladder with
  | [] => mret clean_epochs
  | relaxed_thresh :: ladder' =>
      clean_epochs ← lift (scan_epochs data epoch_samples n_epochs relaxed_thresh);
      modify (set_rejection_threshold relaxed_thresh);;
      if (MIN_CLEAN_EPOCHS <=? length clean_epochs)%nat
      then mret clean_epochs
      else relax data epoch_samples n_epochs ladder' clean_epochs
  end.

Definition reject_artifacts (data : ndarray)
    (threshold_uv epoch_sec : option float) : M t ndarray :=
  let threshold := py_or threshold_uv ARTIFACT_THRESHOLD_UV in
  let epoch_dur := py_or epoch_sec EPOCH_DURATION_SEC in
  self ← get;
  epoch_samples ← lift (py_int (epoch_dur * sfreq self)%float);
  n_epochs ← lift (floordiv (Z.of_nat (shape1 data)) epoch_samples);
  if (n_epochs =? 0)%Z then
    modify (set_n_clean_epochs 0);;
    modify (set_n_total_epochs 0);;
    mret data
  else
    clean_epochs ← lift (scan_epochs data epoch_samples n_epochs threshold);
    modify (set_n_total_epochs n_epochs);;
    modify (set_rejection_threshold threshold);;
    clean_epochs ←
      (if (length clean_epochs <? MIN_CLEAN_EPOCHS)%nat
       then relax data epoch_samples n_epochs RELAXED_THRESHOLDS clean_epochs
       else mret clean_epochs);
    if (length clean_epochs <? MIN_CLEAN_EPOCHS)%nat then
      modify (set_n_clean_epochs n_epochs);;
      modify (set_rejection_threshold infinity);;
      mret data
    else
      modify (set_n_clean_epochs (Z.of_nat (length clean_epochs)));;
      lift (np_concatenate_axis1 clean_epochs).

(** [scipy.integrate.simpson(y, x=x, axis=1)] and
    [scipy.signal.coherence(x, y, fs=fs, nperseg=nperseg)] are library
    code: the methods below are stated for any behaviour of theirs. *)
Section Spectral.

Variable scipy_simpson : ndarray → list float → result (list float).
Variable scipy_coherence :
  list float → list float → float → Z → result (list float * list float).

(** [(freqs >= f_low) & (freqs <= f_high)] *)
Definition band_mask (freqs : list float) (band : float * float)
  : list bool :=
  let '(f_low, f_high) := band in
  map (fun f => (f_low <=? f)%float && (f <=? f_high)%float) freqs.

Definition compute_band_power (psd : ndarray) (freqs : list float)
    (band : float * float) : result (list float) :=
  let mask := band_mask freqs band in
  if negb (np_any mask) then Ok (np_zeros (shape0 psd))
  else
    y ← mask_cols mask psd;
    scipy_simpson y (select mask freqs).

(** [np.where(total_power > 0, total_power, 1e-10)] on one entry. *)
Definition floor_total (total : float) : float :=
  if (0 <? total)%float then total else 1e-10%float.

Definition compute_relative_power (psd : ndarray) (freqs : list float)
    (band : float * float) (total_range : option (float * float))
  : result (list float) :=
  let total_range := default TOTAL_POWER_RANGE total_range in
  band_power ← compute_band_power psd freqs band;
  total_power ← compute_band_power psd freqs total_range;
  let total_power := map floor_total total_power in
  np_divide band_power total_power.

Definition compute_coherence (self : t) (data_ch1 data_ch2 : list float)
    (nperseg : option Z) : result (list float * list float) :=
  let nperseg := match nperseg with
                 | Some k => if (k =? 0)%Z then PSD_NPERSEG else k
                 | None => PSD_NPERSEG
                 end in
  scipy_coherence data_ch1 data_ch2 (sfreq self) nperseg.

End Spectral.

End SignalProcessor.

(** ** data/channel_map.py *)

Module ChannelMap.

Definition ASYMMETRY_PAIRS : list (string * string) :=
  [ ("Fp1", "Fp2"); ("F7", "F8"); ("F3", "F4"); ("T7", "T8");
    ("C3", "C4"); ("P7", "P8"); ("P3", "P4"); ("O1", "O2") ].

End ChannelMap.
Import ChannelMap.

(** ** data/qeeg_analyzer.py *)

Module QEEGAnalyzer.

Inductive quality := good | poor.

(** The dictionary [artifact_stats] once it is populated. *)
Record rejection_stats := {
  total_epochs : Z;
  clean_epochs : Z;
  rejected_epochs : Z;
  threshold_uv : float;
  pct_rejected : float
}.

(** The analyzer object.  [loader] and [time_range] are only read by
    [_get_eeg_data], which is a parameter below; [n_eeg] is the length of
    [eeg_channels]; [artifact_stats] is [None] while the dictionary is
    empty, [_filtered_data] is [None] while the attribute does not exist,
    and [_progress_callback] records whether a callback is set. *)
Record t := {
  processor : SignalProcessor.t;
  normative : NormativeDB.t;
  eeg_channels : list string;
  freqs : option (list float);
  psd : option ndarray;
  band_powers : gmap string (list float);
  relative_powers : gmap string (list float);
  zscores : gmap string (list float);
  coherence : gmap string (list (list float));
  asymmetry : gmap string (list ((string * string) * float));
  peak_freqs : gmap string (float * float);
  artifact_stats : option rejection_stats;
  channel_quality : gmap string quality;
  _clean_data : option ndarray;
  _filtered_data : option ndarray;
  _progress_callback : bool
}.

Definition n_eeg (self : t) : nat := length (eeg_channels self).

(** [__init__], with the channel list that the loader reports. *)
Definition __init__ (eeg_channels : list string)
    (processor : SignalProcessor.t) (normative : NormativeDB.t) : t :=
  {| processor := processor; normative := normative;
     eeg_channels := eeg_channels; freqs := None; psd := None;
     band_powers := ∅; relative_powers := ∅; zscores := ∅; coherence := ∅;
     asymmetry := ∅; peak_freqs := ∅; artifact_stats := None;
     channel_quality := ∅; _clean_data := None; _filtered_data := None;
     _progress_callback := false |}.

Definition set_progress_callback (s : t) : t :=
  Build_t (processor s) (normative s) (eeg_channels s) (freqs s) (psd s)
    (band_powers s) (relative_powers s) (zscores s) (coherence s)
    (asymmetry s) (peak_freqs s) (artifact_stats s) (channel_quality s)
    (_clean_data s) (_filtered_data s) true.

Definition set_processor (v : SignalProcessor.t) (s : t) : t :=
  Build_t v (normative s) (eeg_channels s) (freqs s) (psd s)
    (band_powers s) (relative_powers s) (zscores s) (coherence s)
    (asymmetry s) (peak_freqs s) (artifact_stats s) (channel_quality s)
    (_clean_data s) (_filtered_data s) (_progress_callback s).
Definition set_normative (v : NormativeDB.t) (s : t) : t :=
  Build_t (processor s) v (eeg_channels s) (freqs s) (psd s)
    (band_powers s) (relative_powers s) (zscores s) (coherence s)
    (asymmetry s) (peak_freqs s) (artifact_stats s) (channel_quality s)
    (_clean_data s) (_filtered_data s) (_progress_callback s).
Definition set_band_powers (v : gmap string (list float)) (s : t) : t :=
  Build_t (processor s) (normative s) (eeg_channels s) (freqs s) (psd s)
    v (relative_powers s) (zscores s) (coherence s)
    (asymmetry s) (peak_freqs s) (artifact_stats s) (channel_quality s)
    (_clean_data s) (_filtered_data s) (_progress_callback s).
Definition set_relative_powers (v : gmap string (list float)) (s : t) : t :=
  Build_t (processor s) (normative s) (eeg_channels s) (freqs s) (psd s)
    (band_powers s) v (zscores s) (coherence s)
    (asymmetry s) (peak_freqs s) (artifact_stats s) (channel_quality s)
    (_clean_data s) (_filtered_data s) (_progress_callback s).
Definition set_zscores (v : gmap string (list float)) (s : t) : t :=
  Build_t (processor s) (normative s) (eeg_channels s) (freqs s) (psd s)
    (band_powers s) (relative_powers s) v (coherence s)
    (asymmetry s) (peak_freqs s) (artifact_stats s) (channel_quality s)
    (_clean_data s) (_filtered_data s) (_progress_callback s).
Definition set_coherence (v : gmap string (list (list float))) (s : t) : t :=
  Build_t (processor s) (normative s) (eeg_channels s) (freqs s) (psd s)
    (band_powers s) (relative_powers s) (zscores s) v
    (asymmetry s) (peak_freqs s) (artifact_stats s) (channel_quality s)
    (_clean_data s) (_filtered_data s) (_progress_callback s).
Definition set_asymmetry
    (v : gmap string (list ((string * string) * float))) (s : t) : t :=
  Build_t (processor s) (normative s) (eeg_channels s) (freqs s) (psd s)
    (band_powers s) (relative_powers s) (zscores s) (coherence s)
    v (peak_freqs s) (artifact_stats s) (channel_quality s)
    (_clean_data s) (_filtered_data s) (_progress_callback s).
Definition set_artifact_stats (v : option rejection_stats) (s : t) : t :=
  Build_t (processor s) (normative s) (eeg_channels s) (freqs s) (psd s)
    (band_powers s) (relative_powers s) (zscores s) (coherence s)
    (asymmetry s) (peak_freqs s) v (channel_quality s)
    (_clean_data s) (_filtered_data s) (_progress_callback s).
Definition set__clean_data (v : option ndarray) (s : t) : t :=
  Build_t (processor s) (normative s) (eeg_channels s) (freqs s) (psd s)
    (band_powers s) (relative_powers s) (zscores s) (coherence s)
    (asymmetry s) (peak_freqs s) (artifact_stats s) (channel_quality s)
    v (_filtered_data s) (_progress_callback s).

(** A run: the analyzer and what the observer has received so far. *)
Definition world : Type := t * list (Z * string).

Definition on_self {A} (m : M t A) : M world A := fun w =>
  let '(r, self') := m w.1 in (r, (self', w.2)).

Definition _report_progress (percent : Z) (message : string)
  : M world unit := fun w =>
  if _progress_callback w.1
  then (Ok tt, (w.1, w.2 ++ [(percent, message)]))
  else (Ok tt, w).

(** [range(i + 1, n)] *)
Definition range_from (i n : nat) : list nat := seq (i + 1) (n - (i + 1)).

(** The local variables of [_compute_coherence]; [f] is unbound until the
    first pair has been processed. *)
Record coh_locals := {
  coh_spectra : gmap (nat * nat) (list float);
  done : Z;
  f : option (list float)
}.

Section Pipeline.

(** Library code and the stages that consist of library calls. *)
Variable scipy_simpson : ndarray → list float → result (list float).
Variable scipy_coherence :
  list float → list float → float → Z → result (list float * list float).
Variable np_log : float → float.
Variable _get_eeg_data : M t ndarray.
Variable _detect_channel_quality : M t unit.
Variable _apply_channel_filtering : M t unit.
Variable _compute_psd : M t unit.
Variable _compute_peak_frequencies : M t unit.

Definition _reject_artifacts : M t unit :=
  self ← get;
  data ← match _filtered_data self with
         | Some d => mret d
         | None => _get_eeg_data
         end;
  self ← get;
  let '(r, p) := SignalProcessor.reject_artifacts data None None
                   (processor self) in
  modify (set_processor p);;
  clean ← lift r;
  modify (set__clean_data (Some clean));;
  let total := SignalProcessor.n_total_epochs p in
  let clean := SignalProcessor.n_clean_epochs p in
  modify (set_artifact_stats (Some
    {| total_epochs := total;
       clean_epochs := clean;
       rejected_epochs := total - clean;
       threshold_uv := SignalProcessor.rejection_threshold p;
       pct_rejected :=
         (float_of_Z (total - clean) / float_of_Z (Z.max total 1)
          * 100)%float |})).

(** Before [_compute_psd] has run, [self.psd] and [self.freqs] are
    [None] and the first comparison raises. *)
Definition spectrum (self : t) : result (ndarray * list float) :=
  match psd self, freqs self with
  | Some p, Some fr => Ok (p, fr)
  | _, _ => Raise TypeError
  end.

Definition _compute_band_powers : M t unit :=
  for_eachM (fun _ '(band_name, band_range) =>
      self ← get;
      '(psd, freqs) ← lift (spectrum self);
      bp ← lift (SignalProcessor.compute_band_power scipy_simpson
                   psd freqs band_range);
      modify (fun self =>
        set_band_powers (<[band_name := bp]> (band_powers self)) self);;
      rp ← lift (SignalProcessor.compute_relative_power scipy_simpson
                   psd freqs band_range None);
      modify (fun self =>
        set_relative_powers (<[band_name := rp]> (relative_powers self))
          self))
    FREQ_BANDS tt.

Definition _compute_zscores : M t unit :=
  for_eachM (fun _ '(band_name, _) =>
      self ← get;
      rel_power ← lift (dict_get (relative_powers self) band_name);
      z ← lift (NormativeDB.compute_zscores (normative self) rel_power
                  (Some band_name));
      modify (fun self =>
        set_zscores (<[band_name := z]> (zscores self)) self))
    FREQ_BANDS tt.

Definition recompute_zscores : M t unit := _compute_zscores.

(** [45 + int(40 * done / total_pairs)].  The quotient of the two Python
    ints is the correctly rounded float of the exact fraction, and its
    integer part is the floor of that fraction for every pair count
    below 2^47. *)
Definition coherence_percent (done total_pairs : Z) : Z :=
  45 + (40 * done) / total_pairs.

Definition coherence_message (done total_pairs : Z) : string :=
  "Computing coherence (" +:+ pretty done +:+ "/" +:+ pretty total_pairs
  +:+ ")...".

Definition _compute_coherence : M world unit :=
  self ← on_self get;
  let data := _clean_data self in
  let n := n_eeg self in
  let total_pairs := (Z.of_nat n * (Z.of_nat n - 1) / 2)%Z in
  loc ← for_eachM (fun loc i =>
      for_eachM (fun loc j =>
          d ← match data with
              | Some d => mret d
              | None => raise TypeError
              end;
          xi ← lift (getitem (rows d) i);
          xj ← lift (getitem (rows d) j);
          self ← on_self get;
          '(f, Cxy) ← lift (SignalProcessor.compute_coherence
                              scipy_coherence (processor self) xi xj None);
          let done := (done loc + 1)%Z in
          (if (done mod 20 =? 0)%Z
           then _report_progress (coherence_percent done total_pairs)
                  (coherence_message done total_pairs)
           else mret tt);;
          mret {| coh_spectra := <[(i, j) := Cxy]> (coh_spectra loc);
                  done := done;
                  f := Some f |})
        (range_from i n) loc)
    (seq 0 n) {| coh_spectra := ∅; done := 0; f := None |};
  for_eachM (fun _ '(band_name, (f_low, f_high)) =>
      f ← match f loc with
          | Some f => mret f
          | None => raise UnboundLocalError
          end;
      let band_mask := SignalProcessor.band_mask f (f_low, f_high) in
      matrix ← for_eachM (fun matrix i =>
          for_eachM (fun matrix j =>
              Cxy ← lift (dict_get (coh_spectra loc) (i, j));
              sel ← lift (bool_index band_mask Cxy);
              let mean_coh := np_mean sel in
              mret (setitem2 j i mean_coh (setitem2 i j mean_coh matrix)))
            (range_from i n) matrix)
        (seq 0 n) (np_eye n);
      on_self (modify (fun self =>
        set_coherence (<[band_name := matrix]> (coherence self)) self)))
    FREQ_BANDS tt.

Definition _compute_asymmetry : M t unit :=
  for_eachM (fun _ '(band_name, _) =>
      pairs_values ← for_eachM (fun pairs_values '(left_ch, right_ch) =>
          self ← get;
          if contains left_ch (eeg_channels self)
             && contains right_ch (eeg_channels self)
          then
            left_idx ← lift (index left_ch (eeg_channels self));
            right_idx ← lift (index right_ch (eeg_channels self));
            bp ← lift (dict_get (band_powers self) band_name);
            left_power ← lift (getitem bp left_idx);
            right_power ← lift (getitem bp right_idx);
            let left_power := py_max left_power 1e-20 in
            let right_power := py_max right_power 1e-20 in
            let asym := (np_log right_power - np_log left_power)%float in
            mret (pairs_values ++ [((left_ch, right_ch), asym)])
          else mret pairs_values)
        ASYMMETRY_PAIRS [];
      modify (fun self =>
        set_asymmetry (<[band_name := pairs_values]> (asymmetry self))
          self))
    FREQ_BANDS tt.

Definition run_full_analysis : M world unit :=
  _report_progress 2 "Detecting high-impedance channels...";;
  on_self _detect_channel_quality;;
  _report_progress 4 "Applying adaptive filtering...";;
  on_self _apply_channel_filtering;;
  _report_progress 6 "Rejecting artifacts...";;
  on_self _reject_artifacts;;
  _report_progress 10 "Computing power spectral density...";;
  on_self _compute_psd;;
  _report_progress 20 "Computing band powers...";;
  on_self _compute_band_powers;;
  _report_progress 35 "Computing Z-scores...";;
  on_self _compute_zscores;;
  _report_progress 45 "Computing coherence...";;
  _compute_coherence;;
  _report_progress 85 "Computing asymmetry...";;
  on_self _compute_asymmetry;;
  _report_progress 92 "Finding peak frequencies...";;
  on_self _compute_peak_frequencies;;
  _report_progress 100 "Analysis complete".

End Pipeline.

End QEEGAnalyzer.

(** ** Vocabulary of the specification *)

Module Spec.

(** A band [(f_low, f_high)] contains [f] when [f >= f_low] and
    [f <= f_high]. *)
Definition in_band (band : float * float) (f : float) : bool :=
  ((band.1 <=? f) && (f <=? band.2))%float.

(** The PSD restricted to the bins whose frequency lies in the band: each
    row keeps the entries paired with such a frequency, in order. *)
Definition restrict_row (freqs : list float) (band : float * float)
    (row : list float) : list float :=
  map snd (List.filter (fun fp => in_band band fp.1) (zip freqs row)).

Definition restrict (psd : ndarray) (freqs : list float)
    (band : float * float) : ndarray :=
  {| rows := map (restrict_row freqs band) (rows psd);
     shape1 := length (List.filter (in_band band) freqs) |}.

(** A float that is neither [nan] nor negative. *)
Definition nonneg (x : float) : bool := (0 <=? x)%float.

(** Two analyzer states that differ at most in the Z-score map and in the
    scorer's strategy. *)
Definition same_upstream (a b : QEEGAnalyzer.t) : Prop :=
  QEEGAnalyzer.band_powers a = QEEGAnalyzer.band_powers b
  ∧ QEEGAnalyzer.relative_powers a = QEEGAnalyzer.relative_powers b
  ∧ QEEGAnalyzer.psd a = QEEGAnalyzer.psd b
  ∧ QEEGAnalyzer.freqs a = QEEGAnalyzer.freqs b
  ∧ QEEGAnalyzer.coherence a = QEEGAnalyzer.coherence b
  ∧ QEEGAnalyzer.asymmetry a = QEEGAnalyzer.asymmetry b
  ∧ QEEGAnalyzer.peak_freqs a = QEEGAnalyzer.peak_freqs b
  ∧ QEEGAnalyzer.artifact_stats a = QEEGAnalyzer.artifact_stats b
  ∧ QEEGAnalyzer.processor a = QEEGAnalyzer.processor b
  ∧ QEEGAnalyzer.eeg_channels a = QEEGAnalyzer.eeg_channels b
  ∧ QEEGAnalyzer.channel_quality a = QEEGAnalyzer.channel_quality b
  ∧ QEEGAnalyzer._clean_data a = QEEGAnalyzer._clean_data b
  ∧ QEEGAnalyzer._filtered_data a = QEEGAnalyzer._filtered_data b.

(** A non-decreasing list of percentages, all between [lo] and [hi]. *)
Definition between (lo hi : Z) (l : list Z) : Prop :=
  StronglySorted Z.le l ∧ Forall (fun p => (lo <= p <= hi)%Z) l.

(** What a step of a run sends to the observer: the notifications it adds
    are non-decreasing and lie between [lo] and [hi], and a value it
    returns satisfies [Q]. *)
Definition emits {A} (lo hi : Z) (Q : A → Prop)
    (m : M QEEGAnalyzer.world A) : Prop :=
  ∀ w, ∃ new,
    (m w).2.2 = w.2 ++ new
    ∧ between lo hi (map fst new)
    ∧ ∀ x, (m w).1 = Ok x → Q x.

(** The same for a step that may end with one notification [final], sent
    only when the step returns normally. *)
Definition emits_then {A} (lo hi final : Z)
    (m : M QEEGAnalyzer.world A) : Prop :=
  ∀ w, ∃ new last,
    (m w).2.2 = w.2 ++ new ++ last
    ∧ between lo hi (map fst new)
    ∧ (last = [] ∨ (map fst last = [final] ∧ is_ok (m w).1 = true)).

(** Peak-to-peak amplitude of one channel of an epoch, in microvolts:
    maximum minus minimum, times 1e6. *)
Definition row_ptp_uv (row : list float) : float :=
  match row with
  | [] => nan
  | x :: rest =>
      ((fold_left np_maximum rest x - fold_left np_minimum rest x) * 1e6)%float
  end.

Definition ptps (epoch : ndarray) : list float := map row_ptp_uv (rows epoch).

(** The whole epochs of [epoch_samples] columns; a shorter remainder is
    dropped. *)
Definition epochs (data : ndarray) (epoch_samples : Z) : list ndarray :=
  map (SignalProcessor.epoch_at data epoch_samples)
      (range (Z.of_nat (shape1 data) / epoch_samples)).

(** Some channel's peak-to-peak amplitude exceeds the threshold. *)
Definition exceeds (threshold : float) (epoch : ndarray) : bool :=
  existsb (fun p => (threshold <? p)%float) (ptps epoch).

(** The test the code applies: every channel is at or below the threshold. *)
Definition passes (threshold : float) (epoch : ndarray) : bool :=
  forallb (fun p => (p <=? threshold)%float) (ptps epoch).

Definition survivors (threshold : float) (eps : list ndarray) : list ndarray :=
  List.filter (passes threshold) eps.

(** No peak-to-peak amplitude is [nan]: the samples are real numbers. *)
Definition no_nan (eps : list ndarray) : bool :=
  forallb (fun ep => forallb (fun p => negb (is_nan p)) (ptps ep)) eps.

(** The first threshold of a ladder that leaves enough epochs. *)
Definition first_sufficient (eps : list ndarray) (ladder : list float)
  : option float :=
  List.find (fun t => (SignalProcessor.MIN_CLEAN_EPOCHS
                       <=? length (survivors t eps))%nat) ladder.

(** The statistics the analyzer records after a rejection. *)
Definition stats (total clean : Z) (threshold : float)
  : QEEGAnalyzer.rejection_stats :=
  {| QEEGAnalyzer.total_epochs := total;
     QEEGAnalyzer.clean_epochs := clean;
     QEEGAnalyzer.rejected_epochs := total - clean;
     QEEGAnalyzer.threshold_uv := threshold;
     QEEGAnalyzer.pct_rejected :=
       (float_of_Z (total - clean) / float_of_Z (Z.max total 1) * 100)%float |}.

(** Hemispheric asymmetry of one pair of powers:
    [ln(max(right, 1e-20)) - ln(max(left, 1e-20))]. *)
Definition asymmetry_value (ln : float → float)
    (left_power right_power : float) : float :=
  (ln (py_max right_power 1e-20) - ln (py_max left_power 1e-20))%float.

(** The power of a channel: the entry of the per-channel vector at the
    channel's position in the channel set; none when the channel is
    missing. *)
Definition channel_power (channels : list string) (powers : list float)
    (ch : string) : option float :=
  found ← list_find (fun c => c = ch) channels; powers !! found.1.

(** The entry of one configured pair; none when a channel is missing. *)
Definition asymmetry_entry (ln : float → float) (channels : list string)
    (powers : list float) (pair : string * string)
  : option ((string * string) * float) :=
  left_power ← channel_power channels powers pair.1;
  right_power ← channel_power channels powers pair.2;
  Some (pair, asymmetry_value ln left_power right_power).

(** The list of one band: the entries of the configured pairs, in their
    order, without the pairs that have a missing channel. *)
Definition asymmetry_list (ln : float → float) (channels : list string)
    (powers : list float) : list ((string * string) * float) :=
  omap (asymmetry_entry ln channels powers) ASYMMETRY_PAIRS.

End Spec.

(** ** Example inputs *)

Module Examples.

(** An analyzer for one channel at [sfreq] Hz whose filtering stage has
    stored [data]. *)
Definition filtered (sfreq : float) (data : ndarray) : QEEGAnalyzer.t :=
  {| QEEGAnalyzer.processor := SignalProcessor.__init__ sfreq;
     QEEGAnalyzer.normative := {| NormativeDB._method := "within" |};
     QEEGAnalyzer.eeg_channels := ["Cz"];
     QEEGAnalyzer.freqs := None; QEEGAnalyzer.psd := None;
     QEEGAnalyzer.band_powers := ∅; QEEGAnalyzer.relative_powers := ∅;
     QEEGAnalyzer.zscores := ∅; QEEGAnalyzer.coherence := ∅;
     QEEGAnalyzer.asymmetry := ∅; QEEGAnalyzer.peak_freqs := ∅;
     QEEGAnalyzer.artifact_stats := None;
     QEEGAnalyzer.channel_quality := ∅;
     QEEGAnalyzer._clean_data := None;
     QEEGAnalyzer._filtered_data := Some data;
     QEEGAnalyzer._progress_callback := true |}.

(** One channel, 31 epochs of two samples at 1 Hz; the last epoch swings by
    1000 microvolts. *)
Definition one_artifact : ndarray :=
  {| rows := [repeat 0%float 60 ++ [0.001; 0]%float]; shape1 := 62 |}.

(** One channel, two quiet epochs. *)
Definition two_epochs : ndarray :=
  {| rows := [[0; 0; 0; 0]%float]; shape1 := 4 |}.

(** One channel, one sample: shorter than an epoch. *)
Definition too_short : ndarray := {| rows := [[0%float]]; shape1 := 1 |}.

(** An analyzer for the channels F3, F4 and Cz whose band powers are 1, 2
    and 3 in every band. *)
Definition three_channels : QEEGAnalyzer.t :=
  QEEGAnalyzer.set_band_powers
    (<["Delta" := [1; 2; 3]%float]> (<["Theta" := [1; 2; 3]%float]>
    (<["Alpha" := [1; 2; 3]%float]> (<["Beta" := [1; 2; 3]%float]> ∅))))
    (QEEGAnalyzer.__init__ ["F3"; "F4"; "Cz"] (SignalProcessor.__init__ 500)
       {| NormativeDB._method := "within" |}).

(** An analyzer for the channels F3 and F4 after artifact rejection. *)
Definition two_channels : QEEGAnalyzer.t :=
  QEEGAnalyzer.set__clean_data
    (Some {| rows := [[1; 2; 3; 4]; [2; 1; 4; 3]]%float; shape1 := 4 |})
    (QEEGAnalyzer.__init__ ["F3"; "F4"] (SignalProcessor.__init__ 500)
       {| NormativeDB._method := "within" |}).

(** A stand-in for [scipy.signal.coherence] with two bins, at 9 and 10 Hz. *)
Definition toy_coherence (x y : list float) (fs : float) (nperseg : Z)
  : result (list float * list float) :=
  Ok ([9; 10]%float, [0.5; 0.25]%float).

(** A stand-in for the logarithm that agrees with it at 1. *)
Definition toy_log (x : float) : float := (x - 1)%float.

(** A loader that is never consulted. *)
Definition no_loader : M QEEGAnalyzer.t ndarray := raise TypeError.

End Examples.

(** ** data/qeeg_analyzer.py: peak frequencies and region spectra *)

Module QEEGAnalyzerMore.

Import QEEGAnalyzer.

(** [REGION_MAP] of data/channel_map.py *)
Definition REGION_MAP : gmap string (list string) :=
  <["Frontal" := ["Fp1"; "Fp2"; "F7"; "F3"; "Fz"; "F4"; "F8"]]>
  (<["Central" := ["T7"; "C3"; "Cz"; "C4"; "T8"]]>
  (<["Posterior" := ["P7"; "P3"; "Pz"; "P4"; "P8"; "O1"; "O2"]]> ∅)).

Definition set_peak_freqs (v : gmap string (float * float)) (s : t) : t :=
  Build_t (processor s) (normative s) (eeg_channels s) (freqs s) (psd s)
    (band_powers s) (relative_powers s) (zscores s) (coherence s)
    (asymmetry s) v (artifact_stats s) (channel_quality s)
    (_clean_data s) (_filtered_data s) (_progress_callback s).

(** [np.argmax] of a vector: numpy keeps the running maximum [mp] and its
    index and moves on when [not (x <= mp)]; a [nan] ends the scan. *)
Fixpoint argmax_scan (mp : float) (max_ind i : nat) (v : list float) : nat :=
  match v with
  | [] => max_ind
  | x :: v' =>
      if (x <=? mp)%float then argmax_scan mp max_ind (S i) v'
      else if is_nan x then i
      else argmax_scan x i (S i) v'
  end.

Definition np_argmax (v : list float) : result nat :=
  match v with
  | [] => Raise ValueError
  | x :: v' => Ok (if is_nan x then 0 else argmax_scan x 0 1 v')
  end.

(** [enumerate(l)] *)
Definition enumerate {A} (l : list A) : list (nat * A) :=
  zip (seq 0 (length l)) l.

(** The block that [_compute_peak_frequencies] contains twice, once for the
    alpha band and once for the total range:
    [if np.any(mask) and np.any(ch_psd[mask] > 0):
       idx = np.argmax(ch_psd[mask]); peak = freqs[mask][idx]
     else: peak = 0.0]. *)
Definition peak_of (mask : list bool) (freqs ch_psd : list float)
  : result float :=
  if np_any mask then
    sel ← bool_index mask ch_psd;
    if np_any (map (fun x => (0 <? x)%float) sel) then
      idx ← np_argmax sel;
      sel_f ← bool_index mask freqs;
      getitem sel_f idx
    else Ok 0%float
  else Ok 0%float.

(** The body of the loop over [enumerate(self.eeg_channels)]. *)
Definition peak_frequencies_body (alpha_mask total_mask : list bool)
    (freqs : list float) (_ : unit) (ich : nat * string) : M t unit :=
  let '(i, ch) := ich in
  self ← get;
  psd ← match psd self with
        | Some p => mret p
        | None => raise TypeError
        end;
  ch_psd ← lift (getitem (rows psd) i);
  alpha_peak ← lift (peak_of alpha_mask freqs ch_psd);
  dominant ← lift (peak_of total_mask freqs ch_psd);
  modify (fun self =>
    set_peak_freqs (<[ch := (alpha_peak, dominant)]> (peak_freqs self)) self).

Definition _compute_peak_frequencies : M t unit :=
  '(alpha_low, alpha_high) ←
    lift (dict_get (list_to_map FREQ_BANDS : gmap string (float * float))
            "Alpha");
  let '(total_low, total_high) := TOTAL_POWER_RANGE in
  self ← get;
  freqs ← match freqs self with
          | Some f => mret f
          | None => raise TypeError
          end;
  let alpha_mask := SignalProcessor.band_mask freqs (alpha_low, alpha_high) in
  let total_mask := SignalProcessor.band_mask freqs (total_low, total_high) in
  for_eachM (peak_frequencies_body alpha_mask total_mask freqs)
    (enumerate (eeg_channels self)) tt.

(** [a[indices]] for a list of row indices. *)
Definition take_rows (a : ndarray) (indices : list nat)
  : result (list (list float)) :=
  mapM (getitem (rows a)) indices.

(** [np.mean(m, axis=0)] of at least one row: the rows are added from the
    first to the last, column by column, and divided by their number. *)
Definition np_mean_axis0 (m : list (list float)) : list float :=
  match m with
  | [] => []
  | r0 :: rest =>
      map (fun x => (x / float_of_nat (length m))%float)
          (fold_left (zip_with (fun x y => (x + y)%float)) rest r0)
  end.

(** [SignalProcessor.compute_amplitude_spectrum]: [np.sqrt(psd)] *)
Definition compute_amplitude_spectrum (psd : list float) : list float :=
  map PrimFloat.sqrt psd.

Definition get_region_spectra (self : t) (region : string)
  : result (option (list float) * list float) :=
  let channels := default [] (REGION_MAP !! region) in
  indices ← mapM (fun ch => index ch (eeg_channels self))
            (List.filter (fun ch => contains ch (eeg_channels self)) channels);
  match indices with
  | [] =>
      match freqs self with
      | Some f => Ok (freqs self, np_zeros (length f))
      | None => Raise TypeError
      end
  | _ =>
      psd ← match psd self with Some p => Ok p | None => Raise TypeError end;
      sel ← take_rows psd indices;
      let region_psd := np_mean_axis0 sel in
      let amplitude :=
        map (fun x => (x * 1e6)%float) (compute_amplitude_spectrum region_psd)
      in
      Ok (freqs self, amplitude)
  end.

End QEEGAnalyzerMore.

(** ** Further example inputs *)

(** ** The background worker (workers/analysis_worker.py) *)

Module AnalysisWorker.

Import QEEGAnalyzer.

(** The signals of the worker.  [error] is sent with [str(e)]; the
    exception itself stands for its text. *)
Inductive signal :=
  | progress (percent : Z) (message : string)
  | finished
  | error (e : exn).

(** [_on_progress]: each call of the callback sends one [progress]. *)
Definition _on_progress (call : Z * string) : signal :=
  progress call.1 call.2.

Section Run.

Variable scipy_simpson : ndarray → list float → result (list float).
Variable scipy_coherence :
  list float → list float → float → Z → result (list float * list float).
Variable np_log : float → float.
Variable _get_eeg_data : M t ndarray.
Variable _detect_channel_quality : M t unit.
Variable _apply_channel_filtering : M t unit.
Variable _compute_psd : M t unit.

(** [run]: the signals sent, in order, and the analyzer afterwards.  Every
    exception of the model is an [Exception] and is caught. *)
Definition run (analyzer : t) : list signal * t :=
  let analyzer := set_progress_callback analyzer in
  let '(r, (analyzer, calls)) :=
    run_full_analysis scipy_simpson scipy_coherence np_log _get_eeg_data
      _detect_channel_quality _apply_channel_filtering _compute_psd
      QEEGAnalyzerMore._compute_peak_frequencies (analyzer, []) in
  (map _on_progress calls
   ++ [match r with Ok _ => finished | Raise e => error e end],
   analyzer).

End Run.

End AnalysisWorker.

(** ** The portable copy of artifact rejection (ipad/signal_processing.py) *)

Module IPadSignalProcessing.

(** ipad/constants.py *)
Definition EPOCH_DURATION_SEC : float := 2.0.
Definition ARTIFACT_THRESHOLD_UV : float := 100.0.
Definition MIN_CLEAN_EPOCHS : nat := 30.

(** The dictionary that [reject_artifacts] returns beside the data. *)
Record stats := {
  total : Z;
  clean : Z;
  rejected : Z;
  threshold : float
}.

(** The loop over [range(n_epochs)] that collects the clean epochs. *)
Definition scan_epochs (data : ndarray) (epoch_samples n_epochs : Z)
    (threshold : float) : result (list ndarray) :=
  for_each (fun clean_epochs e =>
      let epoch := SignalProcessor.epoch_at data epoch_samples e in
      ptp ← SignalProcessor.ptp_uv epoch;
      if np_all (map (fun p => (p <=? threshold)%float) ptp)
      then Ok (clean_epochs ++ [epoch])
      else Ok clean_epochs)
    (range n_epochs) [].

(** [for relaxed in [150, 200, 300, 500]: ... break], with the two locals
    it assigns. *)
Fixpoint relax (data : ndarray) (epoch_samples n_epochs : Z)
    (ladder : list float) (clean_epochs : list ndarray) (threshold : float)
  : result (list ndarray * float) :=
  match ladder with
  | [] => Ok (clean_epochs, threshold)
  | relaxed :: ladder' =>
      clean_epochs ← scan_epochs data epoch_samples n_epochs relaxed;
      let threshold := relaxed in
      if (MIN_CLEAN_EPOCHS <=? length clean_epochs)%nat
      then Ok (clean_epochs, threshold)
      else relax data epoch_samples n_epochs ladder' clean_epochs threshold
  end.

Definition reject_artifacts (data : ndarray) (sfreq : float)
    (threshold_uv epoch_sec : option float) : result (ndarray * stats) :=
  let threshold := py_or threshold_uv ARTIFACT_THRESHOLD_UV in
  let epoch_dur := py_or epoch_sec EPOCH_DURATION_SEC in
  epoch_samples ← py_int (epoch_dur * sfreq)%float;
  n_epochs ← floordiv (Z.of_nat (shape1 data)) epoch_samples;
  if (n_epochs =? 0)%Z then
    Ok (data, {| total := 0; clean := 0; rejected := 0;
                 threshold := threshold |})
  else
    clean_epochs ← scan_epochs data epoch_samples n_epochs threshold;
    '(clean_epochs, threshold) ←
      (if (length clean_epochs <? MIN_CLEAN_EPOCHS)%nat
       then relax data epoch_samples n_epochs [150; 200; 300; 500]%float
              clean_epochs threshold
       else Ok (clean_epochs, threshold));
    if (length clean_epochs <? MIN_CLEAN_EPOCHS)%nat then
      Ok (data, {| total := n_epochs; clean := n_epochs; rejected := 0;
                   threshold := infinity |})
    else
      clean_data ← np_concatenate_axis1 clean_epochs;
      Ok (clean_data,
          {| total := n_epochs;
             clean := Z.of_nat (length clean_epochs);
             rejected := n_epochs - Z.of_nat (length clean_epochs);
             threshold := threshold |}).

End IPadSignalProcessing.

Module MoreSpec.

(** A step that sends only percentages up to [hi] and keeps [I]. *)
Definition quiet {A} (hi : Z) (I : QEEGAnalyzer.t → Prop)
    (m : M QEEGAnalyzer.world A) : Prop :=
  ∀ w, I w.1 →
    ∃ new, (m w).2.2 = w.2 ++ new
           ∧ Forall (fun c => (c.1 <= hi)%Z) new
           ∧ I (m w).2.1.

(** A step that, started where [I] holds, raises after sending only
    percentages up to [hi]. *)
Definition fails {A} (hi : Z) (I : QEEGAnalyzer.t → Prop)
    (m : M QEEGAnalyzer.world A) : Prop :=
  ∀ w, I w.1 →
    ∃ new e, (m w).1 = Raise e
             ∧ (m w).2.2 = w.2 ++ new
             ∧ Forall (fun c => (c.1 <= hi)%Z) new.

(** Whether both channels of a configured pair are among [channels]. *)
Definition complete_pair (channels : list string) (pair : string * string)
  : bool :=
  contains pair.1 channels && contains pair.2 channels.

(** [m[i, j]] of a matrix stored as a list of rows. *)
Definition entry (m : list (list float)) (i j : nat) : option float :=
  row ← m !! i; row !! j.

(** An [n] by [n] matrix. *)
Definition square (n : nat) (m : list (list float)) : Prop :=
  length m = n ∧ Forall (fun row => length row = n) m.

(** The spectrum of the channel pair [(i, j)]: what
    [SignalProcessor.compute_coherence] returns for rows [i] and [j] of the
    artifact-free data. *)
Definition pair_spectrum
    (scipy_coherence :
       list float → list float → float → Z →
       result (list float * list float))
    (self : QEEGAnalyzer.t) (i j : nat) (fr Cxy : list float) : Prop :=
  ∃ d xi xj,
    QEEGAnalyzer._clean_data self = Some d
    ∧ rows d !! i = Some xi ∧ rows d !! j = Some xj
    ∧ SignalProcessor.compute_coherence scipy_coherence
        (QEEGAnalyzer.processor self) xi xj None = Ok (fr, Cxy).

(** What the pair loop of [_compute_coherence] keeps true of its locals:
    every stored spectrum is the spectrum of its pair, and [f], once bound,
    is the axis of a pair. *)
Definition spectra_sound
    (scipy_coherence :
       list float → list float → float → Z →
       result (list float * list float))
    (self : QEEGAnalyzer.t) (loc : QEEGAnalyzer.coh_locals) : Prop :=
  (∀ i j Cxy, QEEGAnalyzer.coh_spectra loc !! (i, j) = Some Cxy →
     ∃ fr, pair_spectrum scipy_coherence self i j fr Cxy)
  ∧ (∀ fr, QEEGAnalyzer.f loc = Some fr →
       ∃ i j Cxy, pair_spectrum scipy_coherence self i j fr Cxy).

(** A square matrix with ones on its diagonal and equal entries at [(i, j)]
    and [(j, i)]. *)
Definition symmetric_unit (n : nat) (m : list (list float)) : Prop :=
  square n m
  ∧ (∀ i, i < n → entry m i i = Some 1%float)
  ∧ (∀ i j, entry m i j = entry m j i).

End MoreSpec.

Module MoreExamples.

(** The three-channel analyzer with relative powers 0.1, 0.2 and 0.3 in
    every band. *)
Definition with_relative_powers : QEEGAnalyzer.t :=
  QEEGAnalyzer.set_relative_powers
    (<["Delta" := [0.1; 0.2; 0.3]%float]> (<["Theta" := [0.1; 0.2; 0.3]%float]>
    (<["Alpha" := [0.1; 0.2; 0.3]%float]> (<["Beta" := [0.1; 0.2; 0.3]%float]>
     ∅))))
    Examples.three_channels.

(** A one-channel analyzer after the PSD stage: three bins at 1, 2 and
    30 Hz. *)
Definition with_spectrum : QEEGAnalyzer.t :=
  {| QEEGAnalyzer.processor := SignalProcessor.__init__ 500;
     QEEGAnalyzer.normative := {| NormativeDB._method := "within" |};
     QEEGAnalyzer.eeg_channels := ["Cz"];
     QEEGAnalyzer.freqs := Some [1; 2; 30]%float;
     QEEGAnalyzer.psd := Some {| rows := [[1; 2; 3]%float]; shape1 := 3 |};
     QEEGAnalyzer.band_powers := ∅; QEEGAnalyzer.relative_powers := ∅;
     QEEGAnalyzer.zscores := ∅; QEEGAnalyzer.coherence := ∅;
     QEEGAnalyzer.asymmetry := ∅; QEEGAnalyzer.peak_freqs := ∅;
     QEEGAnalyzer.artifact_stats := None;
     QEEGAnalyzer.channel_quality := ∅;
     QEEGAnalyzer._clean_data := None;
     QEEGAnalyzer._filtered_data := None;
     QEEGAnalyzer._progress_callback := false |}.

(** A stand-in for Simpson's rule: the sum of each row. *)
Definition toy_simpson (y : ndarray) (x : list float) : result (list float) :=
  Ok (map np_sum (rows y)).

End MoreExamples.

(** ** An order-preserving key for binary64 values *)

Module FloatOrder.

(** Class, exponent and mantissa of a value, arranged so that the order of
    the values is the lexicographic order of the keys; [nan] has no place in
    the order and its key is never used. *)
Definition rank (x : spec_float) : Z * Z * Z :=
  match x with
  | S754_nan => (0, 0, 0)%Z
  | S754_infinity true => (-2, 0, 0)%Z
  | S754_infinity false => (2, 0, 0)%Z
  | S754_zero _ => (0, 0, 0)%Z
  | S754_finite true m e => (-1, - e, Zneg m)%Z
  | S754_finite false m e => (1, e, Zpos m)%Z
  end.

Definition lex_le (a b : Z * Z * Z) : Prop :=
  (a.1.1 < b.1.1
   ∨ (a.1.1 = b.1.1
      ∧ (a.1.2 < b.1.2 ∨ (a.1.2 = b.1.2 ∧ a.2 <= b.2))))%Z.

End FloatOrder.

(** * Properties *)

(** ** Facts about binary64 comparison and subtraction *)

Module FloatFacts.

Lemma SFcompare_antisym (x y : spec_float) :
  SFcompare y x = CompOpp <$> SFcompare x y.
Proof.
  destruct x as [sx|sx| |sx mx ex], y as [sy|sy| |sy my ey];
    try destruct sx; try destruct sy; try reflexivity; simpl;
    rewrite (Z.compare_antisym ey ex);
    destruct (ey ?= ex)%Z; simpl; try reflexivity;
    change (PosDef.Pos.compare_cont Eq mx my) with (mx ?= my)%positive;
    change (PosDef.Pos.compare_cont Eq my mx) with (my ?= mx)%positive;
    rewrite (Pos.compare_antisym my mx);
    destruct (my ?= mx)%positive; reflexivity.
Qed.

Lemma is_nan_false_SF (x : float) :
  is_nan x = false → Prim2SF x ≠ S754_nan.
Proof.
  unfold is_nan. rewrite FloatAxioms.eqb_spec. intros H E. rewrite E in H. discriminate.
Qed.

Lemma SFcompare_not_nan (x y : spec_float) :
  x ≠ S754_nan → y ≠ S754_nan → is_Some (SFcompare x y).
Proof.
  intros Hx Hy.
  destruct x as [sx|sx| |sx mx ex], y as [sy|sy| |sy my ey];
    try congruence; simpl; eauto.
Qed.

(** Away from [nan], [a <= b] is the negation of [b < a]. *)
Lemma leb_negb_ltb (a b : float) :
  is_nan a = false → is_nan b = false →
  (a <=? b)%float = negb (b <? a)%float.
Proof.
  intros Ha%is_nan_false_SF Hb%is_nan_false_SF.
  rewrite FloatAxioms.leb_spec, FloatAxioms.ltb_spec. unfold SFleb, SFltb.
  rewrite (SFcompare_antisym (Prim2SF a) (Prim2SF b)).
  destruct (SFcompare_not_nan _ _ Ha Hb) as [c ->].
  destruct c; reflexivity.
Qed.

(** [x - 0] is [x], for every [x]. *)
Lemma sub_zero_r (x : float) : (x - 0)%float = x.
Proof.
  apply Prim2SF_inj. rewrite FloatAxioms.sub_spec.
  change (Prim2SF 0) with (S754_zero false).
  destruct (Prim2SF x) as [[]|[]| |]; reflexivity.
Qed.

Lemma is_finite_SF (x : float) :
  is_finite x = true →
  (∃ s, Prim2SF x = S754_zero s) ∨ (∃ s m e, Prim2SF x = S754_finite s m e).
Proof.
  unfold is_finite, is_nan, is_infinity.
  rewrite !FloatAxioms.eqb_spec, FloatAxioms.abs_spec.
  change (Prim2SF infinity) with (S754_infinity false).
  destruct (Prim2SF x) as [s|s| |s m e]; simpl; try discriminate; eauto.
  - destruct s; discriminate.
Qed.

(** A finite value minus itself is [+0]. *)
Lemma sub_diag (x : float) : is_finite x = true → (x - x)%float = 0%float.
Proof.
  intros H. apply Prim2SF_inj. rewrite FloatAxioms.sub_spec.
  change (Prim2SF 0) with (S754_zero false).
  destruct (is_finite_SF x H) as [[s ->]|(s & m & e & ->)].
  - destruct s; reflexivity.
  - unfold SF64sub, SFsub. rewrite Z.sub_diag. reflexivity.
Qed.

(** Rounding a non-negative mantissa never produces [nan] or a negative
    value. *)
Lemma shr_1_nonneg (mrs : shr_record) :
  (0 <= shr_m mrs)%Z → (0 <= shr_m (shr_1 mrs))%Z.
Proof.
  destruct mrs as [m r s]. destruct m as [|p|p]; try destruct p; simpl; lia.
Qed.

Lemma iter_pos_invariant {A} (P : A → Prop) (g : A → A) :
  (∀ x, P x → P (g x)) → ∀ p x, P x → P (SpecFloat.iter_pos g p x).
Proof.
  intros Hg p. induction p as [p IH|p IH|]; intros x Hx; simpl; auto.
Qed.

Lemma shr_fexp_nonneg (m e : Z) (l : location) :
  (0 <= m)%Z → (0 <= shr_m (shr_fexp prec emax m e l).1)%Z.
Proof.
  intros Hm. unfold shr_fexp, shr.
  assert (0 <= shr_m (shr_record_of_loc m l))%Z as H0
    by (destruct l as [|[]]; exact Hm).
  destruct (fexp prec emax (Zdigits2 m + e) - e)%Z; simpl; try exact H0.
  apply (iter_pos_invariant (fun r => (0 <= shr_m r)%Z)); auto using shr_1_nonneg.
Qed.

Lemma round_nearest_even_nonneg (m : Z) (l : location) :
  (0 <= m)%Z → (0 <= round_nearest_even m l)%Z.
Proof.
  intros Hm. destruct l as [|[]]; simpl; try destruct (Z.even m); lia.
Qed.

Lemma binary_round_aux_nonneg (mx ex : Z) (lx : location) :
  (0 <= mx)%Z →
  SFleb (S754_zero false) (binary_round_aux prec emax false mx ex lx) = true.
Proof.
  intros Hm. unfold binary_round_aux.
  pose proof (shr_fexp_nonneg mx ex lx Hm) as H1.
  destruct (shr_fexp prec emax mx ex lx) as [mrs' e']. simpl in H1.
  pose proof (shr_fexp_nonneg _ e' loc_Exact
                (round_nearest_even_nonneg _ (loc_of_shr_record mrs') H1)) as H2.
  destruct (shr_fexp prec emax (round_nearest_even _ _) e' loc_Exact)
    as [mrs'' e'']. simpl in H2.
  destruct (shr_m mrs'') as [|p|p]; [reflexivity| |lia].
  destruct (e'' <=? emax - prec)%Z; reflexivity.
Qed.

Lemma SFdiv_core_nonneg (mx my : positive) (ex ey : Z) :
  (0 <= (SFdiv_core_binary prec emax (Zpos mx) ex (Zpos my) ey).1.1)%Z.
Proof.
  unfold SFdiv_core_binary.
  set (s := (ex - ey - _)%Z).
  set (m' := match s with Z0 => Zpos mx | Zpos _ => Z.shiftl (Zpos mx) s
             | Zneg _ => 0%Z end).
  assert (0 <= m')%Z as Hm'.
  { unfold m'. destruct s; try lia. apply Z.shiftl_nonneg. lia. }
  pose proof (Z.div_pos m' (Zpos my) Hm' eq_refl) as Hq.
  unfold Z.div in Hq. destruct (Z.div_eucl m' (Zpos my)) as [q r]. exact Hq.
Qed.

(** A finite non-negative value divided by a strictly positive one is
    non-negative, and in particular not [nan]. *)
Lemma div_nonneg (b d : float) :
  is_finite b = true → (0 <=? b)%float = true → (0 <? d)%float = true →
  (0 <=? b / d)%float = true.
Proof.
  intros Hfin Hb Hd. rewrite FloatAxioms.leb_spec, FloatAxioms.div_spec.
  rewrite FloatAxioms.leb_spec in Hb. rewrite FloatAxioms.ltb_spec in Hd.
  change (Prim2SF 0) with (S754_zero false) in *.
  destruct (is_finite_SF b Hfin) as [[sb Eb]|(sb & mb & eb & Eb)];
    rewrite Eb in *;
    destruct (Prim2SF d) as [sd|sd| |sd md ed]; try discriminate;
    try (destruct sd; try discriminate);
    try (destruct sb; try discriminate); try reflexivity.
  unfold SF64div, SFdiv.
  pose proof (SFdiv_core_nonneg mb md eb ed) as Hq.
  destruct (SFdiv_core_binary prec emax (Zpos mb) eb (Zpos md) ed)
    as [[mz ez] lz]. simpl in Hq.
  now apply binary_round_aux_nonneg.
Qed.

End FloatFacts.

(** ** Z-scores *)

Section NormativeFacts.

Import NormativeDB.

Lemma length_np_zeros (n : nat) : length (np_zeros n) = n.
Proof. apply repeat_length. Qed.

Lemma np_zeros_all_zero (n : nat) (x : float) :
  x ∈ np_zeros n → x = 0%float.
Proof.
  unfold np_zeros. intros H%list_elem_of_In. now apply repeat_spec in H.
Qed.

(** C1, as the code has it: for a band name that the normative table does
    not contain, approximate-normative scoring raises nothing and returns the
    all-zero vector of the length of its input, both when called directly
    and through [compute_zscores]; [compute_zscores] raises only when no
    band name is given at all. *)
Theorem normative_unknown_band_zero (self : NormativeDB.t)
    (channel_values : list float) (band_name : string) :
  String.eqb (_method self) "within" = false →
  NORMATIVE_RELATIVE_POWER !! band_name = None →
  compute_zscore_normative channel_values band_name
    = np_zeros (length channel_values)
  ∧ compute_zscores self channel_values (Some band_name)
    = Ok (np_zeros (length channel_values))
  ∧ compute_zscores self channel_values None = Raise ValueError.
Proof.
  intros Hm Hb. unfold compute_zscores, compute_zscore_normative.
  rewrite Hm, Hb. repeat split; reflexivity.
Qed.

Lemma normative_unknown_band_zero_witness :
  compute_zscore_normative [0.5; 0.25]%float "Gamma" = [0; 0]%float
  ∧ compute_zscores {| _method := "normative" |} [0.5; 0.25]%float
      (Some "Gamma") = Ok [0; 0]%float
  ∧ compute_zscores {| _method := "normative" |} [0.5; 0.25]%float None
    = Raise ValueError.
Proof.
  apply (normative_unknown_band_zero {| _method := "normative" |}
           [0.5; 0.25]%float "Gamma"); reflexivity.
Defined.

(** C1, as stated, fails: scoring the band "Gamma", which the table does
    not contain, returns a numeric vector instead of an error. *)
Lemma normative_unknown_band_returns :
  NORMATIVE_RELATIVE_POWER !! "Gamma" = None
  ∧ compute_zscores {| _method := "normative" |} [0.5]%float (Some "Gamma")
    = Ok [0%float]
  ∧ compute_zscore_normative [0.5]%float "Gamma" = [0%float].
Proof. repeat split; reflexivity. Qed.

(** A band of the table is scored against its published mean and
    deviation. *)
Lemma normative_known_band (channel_values : list float)
    (band_name : string) (nrm : norm) :
  NORMATIVE_RELATIVE_POWER !! band_name = Some nrm →
  compute_zscore_normative channel_values band_name
  = map (fun v => ((v - norm_mean nrm) / norm_std nrm)%float) channel_values.
Proof. intros H. unfold compute_zscore_normative. now rewrite H. Qed.

(** C2 at a single channel: the sample deviation of one value is [0/0],
    the guard [std < 1e-10] is false for [nan], and the Z-score is [nan]. *)
Theorem within_subject_single_channel_nan :
  np_std_ddof1 [0.3]%float = nan
  ∧ compute_zscore_within_subject [0.3]%float = [nan].
Proof. split; reflexivity. Qed.

(** When the guard fires the result is the all-zero vector. *)
Lemma within_subject_zero_std (channel_values : list float) :
  (np_std_ddof1 channel_values <? 1e-10)%float = true →
  compute_zscore_within_subject channel_values
  = np_zeros (length channel_values).
Proof. intros H. unfold compute_zscore_within_subject. now rewrite H. Qed.

Example within_subject_constant :
  compute_zscore_within_subject [0.3; 0.3; 0.3]%float = [0; 0; 0]%float.
Proof. reflexivity. Qed.

End NormativeFacts.


(** ** Band power and relative power *)

Section BandPowerFacts.

Import SignalProcessor.

Variable scipy_simpson : ndarray → list float → result (list float).

Lemma band_mask_in_band (freqs : list float) (band : float * float) :
  band_mask freqs band = map (Spec.in_band band) freqs.
Proof. destruct band. reflexivity. Qed.

Lemma np_any_map_false {A} (p : A → bool) (l : list A) :
  Forall (fun x => p x = false) l → np_any (map p l) = false.
Proof.
  unfold np_any. induction 1 as [|x l Hx _ IH]; simpl; [reflexivity|].
  unfold id at 1. now rewrite Hx.
Qed.

Lemma np_any_map_true {A} (p : A → bool) (l : list A) :
  Exists (fun x => p x = true) l → np_any (map p l) = true.
Proof.
  unfold np_any. induction 1 as [x l Hx|x l _ IH]; simpl.
  - unfold id at 1. now rewrite Hx.
  - rewrite IH. apply orb_true_r.
Qed.

Lemma select_map_filter {A} (p : A → bool) (l : list A) :
  select (map p l) l = List.filter p l.
Proof.
  induction l as [|x l IH]; simpl; [reflexivity|].
  destruct (p x); now rewrite IH.
Qed.

Lemma select_restrict_row (freqs : list float) (band : float * float)
    (row : list float) :
  select (map (Spec.in_band band) freqs) row = Spec.restrict_row freqs band row.
Proof.
  unfold Spec.restrict_row. revert row.
  induction freqs as [|f freqs IH]; intros [|x row]; simpl; try reflexivity.
  destruct (Spec.in_band band f); simpl; now rewrite IH.
Qed.

Lemma length_filter_id_map {A} (p : A → bool) (l : list A) :
  length (List.filter id (map p l)) = length (List.filter p l).
Proof.
  induction l as [|x l IH]; simpl; [reflexivity|].
  destruct (p x); simpl; now rewrite IH.
Qed.

Lemma floor_total_positive (t : float) : (0 <? floor_total t)%float = true.
Proof.
  unfold floor_total. destruct (0 <? t)%float eqn:E; [exact E|reflexivity].
Qed.

(** C10: when no value of the frequency axis lies in the band, band power
    is the all-zero vector with one entry per PSD row: no exception and no
    [nan]. *)
Theorem band_power_empty_band (psd : ndarray) (freqs : list float)
    (band : float * float) :
  Forall (fun f => Spec.in_band band f = false) freqs →
  compute_band_power scipy_simpson psd freqs band = Ok (np_zeros (shape0 psd))
  ∧ length (np_zeros (shape0 psd)) = shape0 psd
  ∧ ∀ x, x ∈ np_zeros (shape0 psd) → x = 0%float.
Proof.
  intros H. unfold compute_band_power.
  rewrite band_mask_in_band, (np_any_map_false _ _ H). simpl.
  split; [reflexivity|]. split; [apply length_np_zeros|apply np_zeros_all_zero].
Qed.

(** C6: band power is Simpson's rule applied to the PSD entries and the
    frequency values of exactly the bins with [f_low <= f <= f_high];
    relative power divides it, entry by entry, by the power of the fixed
    range 1 to 25 Hz, where a total that is not positive is replaced by
    [1e-10]: the divisor is always strictly positive, the quotient is
    [band / total] itself when the total is positive, and it is non-negative
    (so not [nan]) whenever the band power is finite and non-negative. *)
Theorem band_and_relative_power (psd : ndarray) (freqs : list float)
    (band : float * float) (band_power total_power : list float) :
  length freqs = shape1 psd →
  Exists (fun f => Spec.in_band band f = true) freqs →
  compute_band_power scipy_simpson psd freqs band = Ok band_power →
  compute_band_power scipy_simpson psd freqs TOTAL_POWER_RANGE
    = Ok total_power →
  length band_power = length total_power →
  scipy_simpson (Spec.restrict psd freqs band)
    (List.filter (Spec.in_band band) freqs) = Ok band_power
  ∧ TOTAL_POWER_RANGE = (1, 25)%float
  ∧ compute_relative_power scipy_simpson psd freqs band None
    = Ok (zip_with (fun b t => (b / floor_total t)%float)
            band_power total_power)
  ∧ ∀ t b : float,
      (0 <? floor_total t)%float = true
      ∧ ((0 <? t)%float = true → (b / floor_total t = b / t)%float)
      ∧ ((0 <? t)%float = false → floor_total t = 1e-10%float)
      ∧ (is_finite b = true → Spec.nonneg b = true →
         Spec.nonneg (b / floor_total t) = true).
Proof.
  intros Hlen Hex Hband Htotal Hshape. repeat split.
  - rewrite <- Hband. unfold compute_band_power, mask_cols.
    rewrite band_mask_in_band, (np_any_map_true _ _ Hex). simpl.
    rewrite length_map, Hlen, Nat.eqb_refl. simpl.
    rewrite select_map_filter, length_filter_id_map. unfold Spec.restrict.
    f_equal. f_equal. apply map_ext. intros row. symmetry.
    apply select_restrict_row.
  - unfold compute_relative_power. simpl default.
    rewrite Hband, Htotal. simpl. unfold np_divide.
    rewrite length_map, Hshape, Nat.eqb_refl. f_equal.
    clear. revert total_power.
    induction band_power as [|b bp IH]; intros [|t tp]; simpl; f_equal; auto.
  - apply floor_total_positive.
  - intros Ht. unfold floor_total. now rewrite Ht.
  - intros Ht. unfold floor_total. now rewrite Ht.
  - intros Hfin Hb. unfold Spec.nonneg in *.
    apply FloatFacts.div_nonneg; auto using floor_total_positive.
Qed.

End BandPowerFacts.

Lemma band_power_empty_band_witness :
  SignalProcessor.compute_band_power (fun y _ => Ok (map np_sum (rows y)))
    {| rows := [[1; 2]; [3; 4]]%float; shape1 := 2 |} [30; 31]%float
    (1, 4)%float = Ok [0; 0]%float.
Proof.
  apply (band_power_empty_band (fun y _ => Ok (map np_sum (rows y)))
           {| rows := [[1; 2]; [3; 4]]%float; shape1 := 2 |} [30; 31]%float
           (1, 4)%float).
  repeat constructor.
Defined.

Lemma band_and_relative_power_witness :
  SignalProcessor.compute_relative_power
    (fun y _ => Ok (map np_sum (rows y)))
    {| rows := [[1; 2; 3]]%float; shape1 := 3 |} [1; 2; 30]%float
    (1, 2)%float None = Ok [1%float].
Proof.
  apply (band_and_relative_power (fun y _ => Ok (map np_sum (rows y)))
           {| rows := [[1; 2; 3]]%float; shape1 := 3 |} [1; 2; 30]%float
           (1, 2)%float [3%float] [3%float]); try reflexivity.
  repeat constructor.
Defined.

(** C6, as stated, fails: the quotient is not always finite and
    non-negative.  A non-negative, finite PSD whose power lies outside the
    1 to 25 Hz range has total power 0, which is replaced by [1e-10], and a
    band power of [1e300] over it overflows to [+inf] (the integrator here
    adds the selected entries of each row); the division alone, whatever
    integrator produced the two powers, sends the finite, non-negative band
    power [1e300] over a zero total to [+inf], and a negative band power
    over a floored total to a negative quotient. *)
Lemma relative_power_not_always_finite :
  SignalProcessor.compute_relative_power
    (fun y _ => Ok (map np_sum (rows y)))
    {| rows := [[0; 1e300]]%float; shape1 := 2 |} [10; 30]%float
    (26, 40)%float None = Ok [infinity]
  ∧ is_finite infinity = false
  ∧ is_finite 1e300 = true ∧ Spec.nonneg 1e300 = true
  ∧ (1e300 / SignalProcessor.floor_total 0)%float = infinity
  ∧ is_finite (-1) = true
  ∧ Spec.nonneg (-1 / SignalProcessor.floor_total (-2))%float = false.
Proof. repeat split; reflexivity. Qed.

(** ** Loops inside methods *)

Section LoopFacts.

Context {A L S : Type}.

(** A property of the object that every iteration keeps is kept by the
    whole loop, whether it ends normally or by an exception. *)
Lemma for_eachM_invariant (I : S → Prop) (body : L → A → M S L)
    (l : list A) (acc : L) (s : S) :
  (∀ acc x s, I s → I (body acc x s).2) →
  I s → I (for_eachM body l acc s).2.
Proof.
  intros Hbody. revert acc s.
  induction l as [|x l IH]; intros acc s Hs; simpl; [exact Hs|].
  unfold mbind, M_bind. pose proof (Hbody acc x s Hs) as Hx.
  destruct (body acc x s) as [[acc'|e] s']; simpl in *; auto.
Qed.

End LoopFacts.

(** ** Recomputing the Z-scores *)

Section ZScoreFacts.

Import QEEGAnalyzer.

Lemma same_upstream_refl (a : t) : Spec.same_upstream a a.
Proof. repeat split. Qed.

Lemma same_upstream_set_normative (a b : t) (v : NormativeDB.t) :
  Spec.same_upstream a b → Spec.same_upstream a (set_normative v b).
Proof. intros H. exact H. Qed.

Lemma same_upstream_set_zscores (a b : t) (v : gmap string (list float)) :
  Spec.same_upstream a b → Spec.same_upstream a (set_zscores v b).
Proof. intros H. exact H. Qed.

Lemma _compute_zscores_frame (a self : t) :
  Spec.same_upstream a self → Spec.same_upstream a (_compute_zscores self).2.
Proof.
  unfold _compute_zscores.
  apply (for_eachM_invariant (Spec.same_upstream a)).
  clear. intros [] [band_name band_range] s Hs.
  unfold mbind, M_bind, get, lift, modify. simpl.
  destruct (dict_get (relative_powers s) band_name) as [rel|e]; simpl; auto.
  destruct (NormativeDB.compute_zscores (normative s) rel (Some band_name))
    as [z|e]; simpl; auto.
Qed.

(** C8: after the strategy is switched and [recompute_zscores] has run,
    whether it returned or raised, the band-power map, the relative-power map,
    the PSD, the frequency axis, the coherence map, the asymmetry lists, the
    peak-frequency map and the rejection statistics (and the processor, the
    channel list, the quality map and the cached signal matrices) are what
    they were: only the Z-score map and the strategy can differ. *)
Theorem recompute_zscores_frame (self : t) (method : string) :
  let switched :=
    set_normative (NormativeDB.set_method method (normative self)) self in
  let self' := (recompute_zscores switched).2 in
  band_powers self' = band_powers self
  ∧ relative_powers self' = relative_powers self
  ∧ psd self' = psd self
  ∧ freqs self' = freqs self
  ∧ coherence self' = coherence self
  ∧ asymmetry self' = asymmetry self
  ∧ peak_freqs self' = peak_freqs self
  ∧ artifact_stats self' = artifact_stats self
  ∧ Spec.same_upstream self self'
  ∧ NormativeDB._method (normative self') = method.
Proof.
  intros switched self'.
  assert (Spec.same_upstream self self') as H.
  { apply _compute_zscores_frame, same_upstream_set_normative,
      same_upstream_refl. }
  assert (normative self' = normative switched) as Hn.
  { unfold self', recompute_zscores, _compute_zscores.
    apply (for_eachM_invariant (fun s => normative s = normative switched));
      [|reflexivity].
    clear. intros [] [band_name band_range] s Hs.
    unfold mbind, M_bind, get, lift, modify. simpl.
    destruct (dict_get (relative_powers s) band_name) as [rel|e]; simpl; auto.
    destruct (NormativeDB.compute_zscores (normative s) rel (Some band_name))
      as [z|e]; simpl; auto. }
  assert (NormativeDB._method (normative self') = method) as Hm
    by (rewrite Hn; reflexivity).
  pose proof H as (H1 & H2 & H3 & H4 & H5 & H6 & H7 & H8 & H9).
  split_and!; try congruence; exact H.
Qed.

(** The recomputation itself: with a relative-power vector for each band, it
    returns normally and every band's Z-scores are those of the strategy now
    selected, computed from the unchanged relative powers. *)
Lemma recompute_zscores_updates (self : t) (method : string) :
  (∀ band, band ∈ map fst FREQ_BANDS →
     is_Some (relative_powers self !! band)) →
  let scorer := NormativeDB.set_method method (normative self) in
  ∃ self', recompute_zscores (set_normative scorer self) = (Ok tt, self')
    ∧ ∀ band rel, band ∈ map fst FREQ_BANDS →
        relative_powers self !! band = Some rel →
        ∃ z, NormativeDB.compute_zscores scorer rel (Some band) = Ok z
             ∧ zscores self' !! band = Some z.
Proof.
  intros Hrel scorer.
  assert (∀ rel band, ∃ z,
            NormativeDB.compute_zscores scorer rel (Some band) = Ok z) as Hz.
  { intros rel band. unfold NormativeDB.compute_zscores.
    destruct (String.eqb _ _); eauto. }
  destruct (Hrel "Delta") as [r1 E1]; [set_solver|].
  destruct (Hrel "Theta") as [r2 E2]; [set_solver|].
  destruct (Hrel "Alpha") as [r3 E3]; [set_solver|].
  destruct (Hrel "Beta") as [r4 E4]; [set_solver|].
  destruct (Hz r1 "Delta") as [z1 Z1]. destruct (Hz r2 "Theta") as [z2 Z2].
  destruct (Hz r3 "Alpha") as [z3 Z3]. destruct (Hz r4 "Beta") as [z4 Z4].
  eexists. split.
  - unfold recompute_zscores, _compute_zscores, FREQ_BANDS, for_eachM.
    unfold mbind, M_bind, mret, M_ret, get, lift, modify, dict_get. simpl.
    rewrite E1. fold scorer. rewrite Z1. simpl.
    rewrite E2. fold scorer. rewrite Z2. simpl.
    rewrite E3. fold scorer. rewrite Z3. simpl.
    rewrite E4. fold scorer. rewrite Z4. simpl. reflexivity.
  - intros band rel Hband Hr. simpl in Hband.
    set_unfold in Hband.
    destruct Hband as [->|[->|[->|[->|[]]]]]; simpl;
      [exists z1|exists z2|exists z3|exists z4];
      split; try congruence; by simplify_map_eq.
Qed.

End ZScoreFacts.


(** ** Progress notifications *)

Section ProgressFacts.

Import QEEGAnalyzer.

Lemma between_nil (lo hi : Z) : Spec.between lo hi [].
Proof. split; constructor. Qed.

Lemma between_singleton (lo hi p : Z) :
  (lo <= p <= hi)%Z → Spec.between lo hi [p].
Proof. intros H. split; repeat constructor; lia. Qed.

Lemma between_weaken (lo hi lo' hi' : Z) (l : list Z) :
  (lo' <= lo)%Z → (hi <= hi')%Z →
  Spec.between lo hi l → Spec.between lo' hi' l.
Proof.
  intros Hlo Hhi [Hs Hb]. split; [exact Hs|].
  eapply Forall_impl; [exact Hb|]. simpl. intros. lia.
Qed.

Lemma between_app (a b c : Z) (l1 l2 : list Z) :
  (a <= b)%Z → (b <= c)%Z →
  Spec.between a b l1 → Spec.between b c l2 → Spec.between a c (l1 ++ l2).
Proof.
  intros Hab Hbc [Hs1 Hb1] [Hs2 Hb2]. split.
  - apply StronglySorted_app_2; auto.
    intros x1 x2 H1 H2.
    rewrite Forall_forall in Hb1, Hb2.
    specialize (Hb1 x1 H1). specialize (Hb2 x2 H2). lia.
  - apply Forall_app. split; (eapply Forall_impl; [eassumption|]);
      simpl; intros; lia.
Qed.

Lemma emits_weaken {A} (lo hi lo' hi' : Z) (Q Q' : A → Prop)
    (m : M world A) :
  (lo' <= lo)%Z → (hi <= hi')%Z → (∀ x, Q x → Q' x) →
  Spec.emits lo hi Q m → Spec.emits lo' hi' Q' m.
Proof.
  intros Hlo Hhi HQ Hm w. destruct (Hm w) as (new & E & Hb & Hq).
  exists new. split; [exact E|]. split; [|auto].
  eapply between_weaken; eauto.
Qed.

Lemma emits_ret {A} (lo hi : Z) (Q : A → Prop) (x : A) :
  Q x → Spec.emits lo hi Q (mret x).
Proof.
  intros HQ w. exists []. simpl. rewrite app_nil_r.
  split; [reflexivity|]. split; [apply between_nil|].
  intros y [= <-]. exact HQ.
Qed.

Lemma emits_raise {A} (lo hi : Z) (Q : A → Prop) (e : exn) :
  Spec.emits lo hi Q (raise e).
Proof.
  intros w. exists []. simpl. rewrite app_nil_r.
  split; [reflexivity|]. split; [apply between_nil|]. discriminate.
Qed.

Lemma emits_lift {A} (lo hi : Z) (Q : A → Prop) (r : result A) :
  (∀ x, r = Ok x → Q x) → Spec.emits lo hi Q (lift r).
Proof.
  intros HQ w. exists []. simpl. rewrite app_nil_r.
  split; [reflexivity|]. split; [apply between_nil|exact HQ].
Qed.

Lemma emits_on_self {A} (lo hi : Z) (m : M t A) :
  Spec.emits lo hi (fun _ => True) (on_self m).
Proof.
  intros w. exists []. unfold on_self.
  destruct (m w.1) as [r self']. simpl. rewrite app_nil_r.
  split; [reflexivity|]. split; [apply between_nil|trivial].
Qed.

Lemma emits_report (lo hi percent : Z) (message : string) :
  (lo <= percent <= hi)%Z →
  Spec.emits lo hi (fun _ => True) (_report_progress percent message).
Proof.
  intros H w. unfold _report_progress.
  destruct (_progress_callback w.1).
  - exists [(percent, message)]. simpl.
    split; [reflexivity|]. split; [now apply between_singleton|trivial].
  - exists []. simpl. rewrite app_nil_r.
    split; [reflexivity|]. split; [apply between_nil|trivial].
Qed.

Lemma emits_bind {A B} (a b c : Z) (Q : A → Prop) (R : B → Prop)
    (m : M world A) (k : A → M world B) :
  (a <= b)%Z → (b <= c)%Z →
  Spec.emits a b Q m → (∀ x, Q x → Spec.emits b c R (k x)) →
  Spec.emits a c R (m ≫= k).
Proof.
  intros Hab Hbc Hm Hk w. unfold mbind, M_bind.
  destruct (Hm w) as (new & E & Hb & Hq).
  destruct (m w) as [[x|e] w']; simpl in *.
  - destruct (Hk x (Hq x eq_refl) w') as (new' & E' & Hb' & Hq').
    exists (new ++ new'). rewrite E', E, app_assoc, map_app.
    split; [reflexivity|]. split; [|exact Hq'].
    eapply between_app; eauto.
  - exists new. split; [exact E|]. split; [|discriminate].
    eapply between_weaken; [| |exact Hb]; lia.
Qed.

Lemma emits_then_report (lo hi final : Z) (message : string) :
  Spec.emits_then lo hi final (_report_progress final message).
Proof.
  intros w. unfold _report_progress. exists [].
  destruct (_progress_callback w.1).
  - exists [(final, message)]. simpl.
    split; [reflexivity|]. split; [apply between_nil|]. right. auto.
  - exists []. simpl. rewrite app_nil_r.
    split; [reflexivity|]. split; [apply between_nil|]. left. reflexivity.
Qed.

Lemma emits_then_bind {A B} (a b c final : Z) (Q : A → Prop)
    (m : M world A) (k : A → M world B) :
  (a <= b)%Z → (b <= c)%Z →
  Spec.emits a b Q m → (∀ x, Spec.emits_then b c final (k x)) →
  Spec.emits_then a c final (m ≫= k).
Proof.
  intros Hab Hbc Hm Hk w. unfold mbind, M_bind.
  destruct (Hm w) as (new & E & Hb & Hq).
  destruct (m w) as [[x|e] w']; simpl in *.
  - destruct (Hk x w') as (new' & last & E' & Hb' & Hl).
    exists (new ++ new'), last. rewrite E', E, map_app, <- !app_assoc.
    split; [reflexivity|]. split; [|exact Hl].
    eapply between_app; eauto.
  - exists new, []. rewrite app_nil_r. split; [exact E|].
    split; [|left; reflexivity].
    eapply between_weaken; [| |exact Hb]; lia.
Qed.

(** A loop whose iterations advance a counter [K] by [c x] and send only
    values of a monotone function [pct] of the counter. *)
Lemma for_eachM_emits {A L} (K : L → Z) (c : A → Z) (pct : Z → Z)
    (body : L → A → M world L) (l : list A) (acc : L) :
  (∀ x y, (x <= y)%Z → (pct x <= pct y)%Z) →
  (∀ x, (0 <= c x)%Z) →
  (∀ acc x, Spec.emits (pct (K acc)) (pct (K acc + c x)%Z)
              (fun acc' => K acc' = (K acc + c x)%Z) (body acc x)) →
  Spec.emits (pct (K acc)) (pct (K acc + foldr Z.add 0%Z (map c l))%Z)
    (fun acc' => K acc' = (K acc + foldr Z.add 0%Z (map c l))%Z)
    (for_eachM body l acc).
Proof.
  intros Hmono Hc Hbody. revert acc.
  assert (∀ l', 0 <= foldr Z.add 0 (map c l'))%Z as Hsum.
  { induction l' as [|y l' IH]; simpl; [lia|]. specialize (Hc y). lia. }
  induction l as [|x l IH]; intros acc; simpl.
  - rewrite Z.add_0_r. now apply emits_ret.
  - eapply (emits_bind _ (pct (K acc + c x)%Z)); [| |apply Hbody|].
    + apply Hmono. specialize (Hc x). lia.
    + apply Hmono. specialize (Hsum l). lia.
    + intros acc' E. specialize (IH acc'). rewrite E in IH.
      rewrite <- Z.add_assoc in IH. exact IH.
Qed.

Lemma sum_ones {A} (l : list A) :
  foldr Z.add 0%Z (map (fun _ => 1%Z) l) = Z.of_nat (length l).
Proof. induction l as [|x l IH]; simpl length; simpl foldr; lia. Qed.

Lemma length_range_from (i n : nat) : length (range_from i n) = n - (i + 1).
Proof. unfold range_from. apply length_seq. Qed.

(** The number of pairs [i < j < n] is [n * (n - 1) // 2]. *)
Lemma sum_pairs (m k : nat) :
  (2 * foldr Z.add 0
         (map (fun i => Z.of_nat (length (range_from i (k + m)))) (seq k m))
   = Z.of_nat m * (Z.of_nat m - 1))%Z.
Proof.
  revert k. induction m as [|m IH]; intros k; simpl; [reflexivity|].
  rewrite length_range_from.
  replace (k + S m) with (S k + m) by lia.
  specialize (IH (S k)). lia.
Qed.

Lemma total_pairs_count (n : nat) :
  foldr Z.add 0%Z
    (map (fun i => Z.of_nat (length (range_from i n))) (seq 0 n))
  = (Z.of_nat n * (Z.of_nat n - 1) / 2)%Z.
Proof.
  pose proof (sum_pairs n 0) as H. simpl in H.
  rewrite <- H, Z.mul_comm, Z.div_mul; lia.
Qed.

Lemma coherence_percent_mono (total x y : Z) :
  (0 <= total)%Z → (x <= y)%Z →
  (coherence_percent x total <= coherence_percent y total)%Z.
Proof.
  intros Ht Hxy. unfold coherence_percent.
  destruct (Z.eq_dec total 0%Z) as [->|Hne].
  - rewrite !Z.div_0_r. lia.
  - apply Z.add_le_mono_l, Z.div_le_mono; lia.
Qed.

Lemma coherence_percent_range (total : Z) :
  (0 <= total)%Z →
  (45 <= coherence_percent 0 total)%Z ∧ (coherence_percent total total <= 85)%Z.
Proof.
  intros Ht. unfold coherence_percent. split.
  - pose proof (Z_div_nonneg_nonneg (40 * 0) total). lia.
  - destruct (Z.eq_dec total 0%Z) as [->|Hne]; [now vm_compute|].
    rewrite Z.div_mul by exact Hne. lia.
Qed.

Section Coherence.

Variable scipy_coherence :
  list float → list float → float → Z → result (list float * list float).

(** The coherence stage sends only values from 45 to 85, in non-decreasing
    order, whether it completes or stops at an exception. *)
Lemma _compute_coherence_emits :
  Spec.emits 45 85 (fun _ => True) (_compute_coherence scipy_coherence).
Proof.
  unfold _compute_coherence.
  eapply (emits_bind 45 45 85); [lia|lia|apply emits_on_self|].
  intros self _.
  set (n := n_eeg self).
  set (total := (Z.of_nat n * (Z.of_nat n - 1) / 2)%Z).
  assert (0 <= total)%Z as Htotal.
  { unfold total. rewrite <- total_pairs_count.
    generalize (seq 0 n). induction l as [|y l IH]; simpl; lia. }
  pose proof (coherence_percent_range total Htotal) as [Hlo Hhi].
  eapply (emits_bind 45 85 85); [lia|lia| |].
  - eapply emits_weaken; [exact Hlo| |intros x _; exact I|].
    2:{ apply (for_eachM_emits done
                 (fun i => Z.of_nat (length (range_from i n)))
                 (fun d => coherence_percent d total)).
        - intros x y. now apply coherence_percent_mono.
        - intros x. lia.
        - intros loc i. rewrite <- sum_ones.
          apply (for_eachM_emits done (fun _ => 1%Z)
                   (fun d => coherence_percent d total)).
          + intros x y. now apply coherence_percent_mono.
          + intros x. lia.
          + clear loc. intros loc j.
            set (lo := coherence_percent (done loc) total).
            set (hi := coherence_percent (done loc + 1) total).
            assert (lo <= hi)%Z as Hlh
              by (apply coherence_percent_mono; lia).
            eapply (emits_bind lo lo hi (fun _ => True)); [lia|lia| |].
            { destruct (_clean_data self);
                [now apply emits_ret|apply emits_raise]. }
            intros d _.
            eapply (emits_bind lo lo hi (fun _ => True));
              [lia|lia|now apply emits_lift|].
            intros xi _.
            eapply (emits_bind lo lo hi (fun _ => True));
              [lia|lia|now apply emits_lift|].
            intros xj _.
            eapply (emits_bind lo lo hi); [lia|lia|apply emits_on_self|].
            intros self' _.
            eapply (emits_bind lo lo hi (fun _ => True));
              [lia|lia|now apply emits_lift|].
            intros [fr Cxy] _.
            eapply (emits_bind lo hi hi (fun _ => True)); [lia|lia| |].
            { destruct (_ =? 0)%Z;
                [apply emits_report; lia|now apply emits_ret]. }
            intros _ _. now apply emits_ret. }
    simpl. rewrite Z.add_0_l, total_pairs_count. exact Hhi.
  - intros loc _.
    eapply emits_weaken; [reflexivity|reflexivity|intros x _; exact I|].
    apply (for_eachM_emits (fun _ => 0%Z) (fun _ => 0%Z) (fun _ => 85%Z));
      [lia|lia|].
    intros [] [band_name [f_low f_high]]. simpl.
    eapply (emits_bind 85 85 85 (fun _ => True)); [lia|lia| |].
    { destruct (f loc); [now apply emits_ret|apply emits_raise]. }
    intros fr _.
    eapply (emits_bind 85 85 85 (fun _ => True)); [lia|lia| |].
    + eapply emits_weaken; [reflexivity|reflexivity|intros x _; exact I|].
      apply (for_eachM_emits (fun _ => 0%Z) (fun _ => 0%Z) (fun _ => 85%Z));
        [lia|lia|].
      intros matrix i. simpl.
      eapply emits_weaken; [reflexivity|reflexivity|intros x _; reflexivity|].
      apply (for_eachM_emits (fun _ => 0%Z) (fun _ => 0%Z) (fun _ => 85%Z));
        [lia|lia|].
      intros matrix' j. simpl.
      eapply (emits_bind 85 85 85 (fun _ => True));
        [lia|lia|now apply emits_lift|].
      intros Cxy _.
      eapply (emits_bind 85 85 85 (fun _ => True));
        [lia|lia|now apply emits_lift|].
      intros sel _. now apply emits_ret.
    + intros matrix _.
      eapply emits_weaken;
        [reflexivity|reflexivity|intros x _; reflexivity|apply emits_on_self].
Qed.

End Coherence.

End ProgressFacts.

(** ** The full run *)

Section RunFacts.

Import QEEGAnalyzer.

Variable scipy_simpson : ndarray → list float → result (list float).
Variable scipy_coherence :
  list float → list float → float → Z → result (list float * list float).
Variable np_log : float → float.
Variable _get_eeg_data : M t ndarray.
Variable _detect_channel_quality : M t unit.
Variable _apply_channel_filtering : M t unit.
Variable _compute_psd : M t unit.
Variable _compute_peak_frequencies : M t unit.

Let run : M world unit :=
  run_full_analysis scipy_simpson scipy_coherence np_log _get_eeg_data
    _detect_channel_quality _apply_channel_filtering _compute_psd
    _compute_peak_frequencies.

Local Ltac report lo p :=
  eapply (emits_then_bind lo p 92 100 (fun _ => True));
  [lia|lia|apply emits_report; lia|intros _].

Local Ltac stage p :=
  eapply (emits_then_bind p p 92 100 (fun _ => True));
  [lia|lia|apply emits_on_self|intros _].

Lemma run_full_analysis_emits : Spec.emits_then 2 92 100 run.
Proof.
  unfold run, run_full_analysis.
  report 2%Z 2%Z. stage 2%Z. report 2%Z 4%Z. stage 4%Z.
  report 4%Z 6%Z. stage 6%Z. report 6%Z 10%Z. stage 10%Z.
  report 10%Z 20%Z. stage 20%Z. report 20%Z 35%Z. stage 35%Z.
  report 35%Z 45%Z.
  eapply (emits_then_bind 45 85 92 100 (fun _ => True));
    [lia|lia|apply _compute_coherence_emits|intros _].
  report 85%Z 85%Z. stage 85%Z. report 85%Z 92%Z. stage 92%Z.
  apply emits_then_report.
Qed.

(** C9: over one full run, started with an empty observer, the percentages
    received are non-decreasing (the coherence-pair notifications included),
    each lies between 0 and 100, and 100 is received only when the run has
    returned normally, that is, when every stage has completed; it is then
    the last notification and everything before it is at most 92. *)
Theorem progress_monotone (self : t) :
  let out := run (self, []) in
  let percents := map fst out.2.2 in
  StronglySorted Z.le percents
  ∧ Forall (fun p => (0 <= p <= 100)%Z) percents
  ∧ (100%Z ∈ percents →
     out.1 = Ok tt
     ∧ ∃ earlier, percents = earlier ++ [100%Z]
                  ∧ Forall (fun p => (p <= 92)%Z) earlier).
Proof.
  intros out percents.
  destruct (run_full_analysis_emits (self, [])) as (new & last & E & Hb & Hl).
  fold out in E, Hl. simpl in E.
  assert (percents = map fst new ++ map fst last) as Hp
    by (unfold percents; rewrite E, map_app; reflexivity).
  assert (Spec.between 92 100 (map fst last)) as Hlast.
  { destruct Hl as [->|[-> _]];
      [apply between_nil|apply between_singleton; lia]. }
  pose proof (between_app 2 92 100 _ _ ltac:(lia) ltac:(lia) Hb Hlast)
    as [Hs Hall].
  rewrite <- Hp in Hs, Hall.
  split; [exact Hs|]. split.
  - eapply Forall_impl; [exact Hall|]. simpl. intros. lia.
  - intros H100. rewrite Hp in H100. apply elem_of_app in H100.
    destruct Hb as [_ Hb]. rewrite Forall_forall in Hb.
    destruct Hl as [->|[El Hok]].
    + destruct H100 as [H|H]; [apply Hb in H; lia|inversion H].
    + split.
      * destruct (out.1) as [[]|e]; [reflexivity|discriminate].
      * exists (map fst new). rewrite Hp, El. split; [reflexivity|].
        rewrite Forall_forall. intros p Hin. apply Hb in Hin. lia.
Qed.

(** C5 at fewer than two channels: the pair loop never runs, the local [f]
    stays unbound, and the first band raises; no matrix is stored. *)
Theorem coherence_needs_two_channels (w : world) :
  n_eeg w.1 < 2 →
  _compute_coherence scipy_coherence w = (Raise UnboundLocalError, w).
Proof.
  destruct w as [self tr]. unfold n_eeg. simpl.
  destruct self as [pr nm chans fr ps bp rp zs co asy pk st cq cd fd cb].
  simpl. destruct chans as [|c1 [|c2 chans]]; simpl; intros H;
    [reflexivity|reflexivity|lia].
Qed.

End RunFacts.

(** With two channels the pair loop runs once and every band gets a
    symmetric 2 x 2 matrix with unit diagonal; a band that contains no bin
    gets the mean of an empty selection, [nan], off the diagonal. *)
Example coherence_two_channels :
  let out := QEEGAnalyzer._compute_coherence Examples.toy_coherence
               (Examples.two_channels, []) in
  out.1 = Ok tt
  ∧ QEEGAnalyzer.coherence out.2.1 !! "Alpha"
    = Some [[1; 0.375]; [0.375; 1]]%float
  ∧ QEEGAnalyzer.coherence out.2.1 !! "Delta"
    = Some [[1; nan]; [nan; 1]]%float.
Proof. repeat split; reflexivity. Qed.

Lemma coherence_needs_two_channels_witness :
  QEEGAnalyzer._compute_coherence (fun _ _ _ _ => Ok ([], []))
    (QEEGAnalyzer.__init__ ["Cz"] (SignalProcessor.__init__ 500)
       {| NormativeDB._method := "within" |}, [])
  = (Raise UnboundLocalError,
     (QEEGAnalyzer.__init__ ["Cz"] (SignalProcessor.__init__ 500)
        {| NormativeDB._method := "within" |}, [])).
Proof.
  apply (coherence_needs_two_channels (fun _ _ _ _ => Ok ([], []))
           (QEEGAnalyzer.__init__ ["Cz"] (SignalProcessor.__init__ 500)
              {| NormativeDB._method := "within" |}, [])).
  unfold QEEGAnalyzer.n_eeg. simpl. lia.
Defined.

(** ** Artifact rejection *)

Section RejectionFacts.

Import SignalProcessor.

Lemma MIN_CLEAN_EPOCHS_pos : 0 < MIN_CLEAN_EPOCHS.
Proof. unfold MIN_CLEAN_EPOCHS. lia. Qed.

Local Opaque MIN_CLEAN_EPOCHS.

Lemma length_slice_epoch {A} (row : list A) (es e : Z) :
  (0 < es)%Z → (0 <= e)%Z → (e * es + es <= Z.of_nat (length row))%Z →
  length (slice (e * es) (e * es + es) row) = Z.to_nat es.
Proof.
  intros Hes He Hlen. unfold slice. rewrite length_take, length_drop.
  assert (0 <= e * es)%Z by lia. lia.
Qed.

Lemma epoch_in_range (w es e : Z) :
  (0 < es)%Z → (0 <= e < w / es)%Z → (e * es + es <= w)%Z.
Proof.
  intros Hes [He Hlt].
  pose proof (Z.mul_div_le w es Hes).
  assert ((e + 1) * es <= (w / es) * es)%Z
    by (apply Z.mul_le_mono_nonneg_r; lia).
  lia.
Qed.

Lemma epoch_rows_nonempty (data : ndarray) (es e : Z) :
  well_formed data → (0 < es)%Z →
  (0 <= e < Z.of_nat (shape1 data) / es)%Z →
  Forall (fun row => row ≠ []) (rows (epoch_at data es e)).
Proof.
  intros Hwf Hes He. unfold epoch_at, slice_cols. simpl.
  rewrite Forall_map. eapply Forall_impl; [exact Hwf|].
  simpl. intros row Hrow Hnil.
  pose proof (epoch_in_range _ es e Hes He) as Hin.
  rewrite <- Hrow in Hin.
  pose proof (length_slice_epoch row es e Hes (proj1 He) Hin) as Hl.
  rewrite Hnil in Hl. simpl in Hl. lia.
Qed.

Lemma mapM_np_max (l : list (list float)) :
  Forall (fun row => row ≠ []) l →
  mapM np_max l
  = Ok (map (fun row => fold_left np_maximum (tail row) (hd nan row)) l).
Proof.
  induction 1 as [|row l Hrow _ IH]; [reflexivity|].
  simpl. rewrite IH. destruct row; [congruence|reflexivity].
Qed.

Lemma mapM_np_min (l : list (list float)) :
  Forall (fun row => row ≠ []) l →
  mapM np_min l
  = Ok (map (fun row => fold_left np_minimum (tail row) (hd nan row)) l).
Proof.
  induction 1 as [|row l Hrow _ IH]; [reflexivity|].
  simpl. rewrite IH. destruct row; [congruence|reflexivity].
Qed.

Lemma ptp_uv_ptps (epoch : ndarray) :
  Forall (fun row => row ≠ []) (rows epoch) →
  ptp_uv epoch = Ok (Spec.ptps epoch).
Proof.
  intros H. unfold ptp_uv. rewrite (mapM_np_max _ H), (mapM_np_min _ H).
  simpl. f_equal. unfold Spec.ptps.
  induction H as [|row l Hrow _ IH]; [reflexivity|].
  simpl. rewrite IH. destruct row; [congruence|reflexivity].
Qed.

Lemma np_all_map {A} (p : A → bool) (l : list A) :
  np_all (map p l) = forallb p l.
Proof.
  unfold np_all. induction l as [|x l IH]; simpl; [reflexivity|].
  now rewrite IH.
Qed.

(** The scanning loop keeps, in order, the epochs that pass the test. *)
Lemma scan_loop (data : ndarray) (es : Z) (threshold : float)
    (l : list Z) (acc : list ndarray) :
  well_formed data → (0 < es)%Z →
  Forall (fun e => (0 <= e < Z.of_nat (shape1 data) / es)%Z) l →
  for_each (fun clean_epochs e =>
      let epoch := epoch_at data es e in
      ptp ← ptp_uv epoch;
      if np_all (map (fun p => (p <=? threshold)%float) ptp)
      then Ok (clean_epochs ++ [epoch])
      else Ok clean_epochs) l acc
  = Ok (acc ++ Spec.survivors threshold (map (epoch_at data es) l)).
Proof.
  intros Hwf Hes Hl. revert acc.
  induction Hl as [|e l He _ IH]; intros acc; simpl.
  - now rewrite app_nil_r.
  - rewrite (ptp_uv_ptps _ (epoch_rows_nonempty data es e Hwf Hes He)).
    simpl. rewrite np_all_map. unfold Spec.survivors at 2. simpl.
    unfold Spec.passes at 1.
    destruct (forallb _ (Spec.ptps _)); simpl; rewrite IH;
      [now rewrite <- app_assoc|reflexivity].
Qed.

Lemma range_bounds (n : Z) : Forall (fun e => (0 <= e < n)%Z) (range n).
Proof.
  unfold range. rewrite Forall_map, Forall_forall.
  intros i Hi%elem_of_seq. simpl. lia.
Qed.

Lemma scan_epochs_survivors (data : ndarray) (es : Z) (threshold : float) :
  well_formed data → (0 < es)%Z →
  scan_epochs data es (Z.of_nat (shape1 data) / es) threshold
  = Ok (Spec.survivors threshold (Spec.epochs data es)).
Proof.
  intros Hwf Hes.
  exact (scan_loop data es threshold _ [] Hwf Hes (range_bounds _)).
Qed.

Lemma length_epochs (data : ndarray) (es : Z) :
  (0 < es)%Z →
  Z.of_nat (length (Spec.epochs data es)) = (Z.of_nat (shape1 data) / es)%Z.
Proof.
  intros Hes. unfold Spec.epochs, range.
  rewrite !length_map, length_seq.
  pose proof (Z.div_pos (Z.of_nat (shape1 data)) es). lia.
Qed.

(** The relaxation loop stops at the first threshold of the ladder that
    leaves enough epochs; it changes no field but the threshold. *)
Lemma relax_outcome (data : ndarray) (es : Z) (ladder : list float)
    (clean0 : list ndarray) (self : t) :
  well_formed data → (0 < es)%Z →
  let eps := Spec.epochs data es in
  ∃ clean self',
    relax data es (Z.of_nat (shape1 data) / es) ladder clean0 self
    = (Ok clean, self')
    ∧ sfreq self' = sfreq self
    ∧ n_clean_epochs self' = n_clean_epochs self
    ∧ n_total_epochs self' = n_total_epochs self
    ∧ match Spec.first_sufficient eps ladder with
      | Some threshold =>
          clean = Spec.survivors threshold eps
          ∧ rejection_threshold self' = threshold
          ∧ MIN_CLEAN_EPOCHS ≤ length clean
      | None => length clean0 < MIN_CLEAN_EPOCHS →
                length clean < MIN_CLEAN_EPOCHS
      end.
Proof.
  intros Hwf Hes eps. revert clean0 self.
  induction ladder as [|threshold ladder IH]; intros clean0 self.
  - exists clean0, self. simpl. auto.
  - simpl relax. unfold mbind, M_bind, lift, modify.
    rewrite (scan_epochs_survivors data es threshold Hwf Hes). fold eps.
    unfold Spec.first_sufficient. simpl List.find.
    destruct (MIN_CLEAN_EPOCHS <=? length (Spec.survivors threshold eps))%nat
      eqn:E.
    + exists (Spec.survivors threshold eps),
        (set_rejection_threshold threshold self).
      apply Nat.leb_le in E. simpl. repeat split; auto.
    + destruct (IH (Spec.survivors threshold eps)
                  (set_rejection_threshold threshold self))
        as (clean & self' & Hrun & H1 & H2 & H3 & H4).
      exists clean, self'. split; [exact Hrun|].
      split; [exact H1|]. split; [exact H2|]. split; [exact H3|].
      fold (Spec.first_sufficient eps ladder).
      destruct (Spec.first_sufficient eps ladder); [exact H4|].
      intros _. apply H4. apply Nat.leb_gt in E. exact E.
Qed.

(** What [reject_artifacts] returns and leaves in the object, for every
    threshold and epoch length and every well-formed matrix. *)
Lemma reject_artifacts_outcome (self : t) (data : ndarray)
    (threshold_uv epoch_sec : option float) (es : Z) :
  well_formed data →
  py_int (py_or epoch_sec EPOCH_DURATION_SEC * sfreq self)%float = Ok es →
  (0 < es)%Z →
  let threshold := py_or threshold_uv ARTIFACT_THRESHOLD_UV in
  let eps := Spec.epochs data es in
  let total := Z.of_nat (length eps) in
  let finish := fun thr =>
    (np_concatenate_axis1 (Spec.survivors thr eps),
     {| sfreq := sfreq self;
        n_clean_epochs := Z.of_nat (length (Spec.survivors thr eps));
        n_total_epochs := total;
        rejection_threshold := thr |}) in
  reject_artifacts data threshold_uv epoch_sec self
  = if (total =? 0)%Z then
      (Ok data, set_n_total_epochs 0 (set_n_clean_epochs 0 self))
    else if (MIN_CLEAN_EPOCHS <=? length (Spec.survivors threshold eps))%nat
    then finish threshold
    else match Spec.first_sufficient eps RELAXED_THRESHOLDS with
         | Some thr => finish thr
         | None =>
             (Ok data,
              {| sfreq := sfreq self; n_clean_epochs := total;
                 n_total_epochs := total; rejection_threshold := infinity |})
         end.
Proof.
  intros Hwf Hint Hes threshold eps total finish.
  assert (total = (Z.of_nat (shape1 data) / es)%Z) as Htotal
    by apply (length_epochs data es Hes).
  unfold reject_artifacts, mbind, M_bind, get, lift.
  rewrite Hint. unfold floordiv.
  destruct (es =? 0)%Z eqn:E0; [apply Z.eqb_eq in E0; lia|].
  rewrite <- Htotal.
  destruct (total =? 0)%Z eqn:En; [reflexivity|].
  rewrite Htotal, (scan_epochs_survivors data es _ Hwf Hes), <- Htotal.
  fold threshold eps. unfold modify, mret, M_ret.
  destruct (MIN_CLEAN_EPOCHS <=? length (Spec.survivors threshold eps))%nat
    eqn:E.
  - assert ((length (Spec.survivors threshold eps) <? MIN_CLEAN_EPOCHS)%nat
            = false) as -> by (apply Nat.ltb_ge, Nat.leb_le, E).
    simpl. rewrite (proj2 (Nat.ltb_ge _ _) (proj1 (Nat.leb_le _ _) E)).
    reflexivity.
  - assert ((length (Spec.survivors threshold eps) <? MIN_CLEAN_EPOCHS)%nat
            = true) as Hlt by (apply Nat.ltb_lt, Nat.leb_gt, E).
    rewrite Hlt. rewrite Htotal.
    destruct (relax_outcome data es RELAXED_THRESHOLDS
                (Spec.survivors threshold eps)
                (set_rejection_threshold threshold
                   (set_n_total_epochs (Z.of_nat (shape1 data) / es) self))
                Hwf Hes)
      as (clean & self' & Hrun & H1 & H2 & H3 & H4).
    rewrite Hrun. fold eps in H4. rewrite <- Htotal in *.
    destruct (Spec.first_sufficient eps RELAXED_THRESHOLDS) as [thr|].
    + destruct H4 as (-> & H4 & H5).
      rewrite (proj2 (Nat.ltb_ge _ _) H5). unfold finish.
      destruct self'; simpl in *; subst. reflexivity.
    + rewrite (proj2 (Nat.ltb_lt _ _) (H4 (proj1 (Nat.ltb_lt _ _) Hlt))).
      destruct self'; simpl in *; subst. reflexivity.
Qed.

Lemma shape0_epoch (data : ndarray) (es : Z) (ep : ndarray) :
  ep ∈ Spec.epochs data es → shape0 ep = shape0 data.
Proof.
  unfold Spec.epochs. intros (e & -> & _)%list_elem_of_fmap.
  unfold shape0, epoch_at, slice_cols. simpl. apply length_map.
Qed.

(** Enough surviving epochs can always be concatenated. *)
Lemma concatenate_survivors (data : ndarray) (es : Z) (thr : float) :
  0 < length (Spec.survivors thr (Spec.epochs data es)) →
  ∃ clean,
    np_concatenate_axis1 (Spec.survivors thr (Spec.epochs data es)) = Ok clean.
Proof.
  intros Hlen.
  assert (∀ ep, ep ∈ Spec.survivors thr (Spec.epochs data es) →
                shape0 ep = shape0 data) as Hshape.
  { intros ep Hin%list_elem_of_In. apply filter_In in Hin as [Hin _].
    apply (shape0_epoch data es), list_elem_of_In, Hin. }
  destruct (Spec.survivors thr (Spec.epochs data es)) as [|a rest];
    [simpl in Hlen; lia|].
  unfold np_concatenate_axis1.
  assert (forallb (fun b => (shape0 b =? shape0 a)%nat) rest = true) as ->.
  { apply forallb_forall. intros b Hb. apply Nat.eqb_eq.
    apply list_elem_of_In in Hb.
    rewrite (Hshape a), (Hshape b); [reflexivity| |]; set_solver. }
  eauto.
Qed.

Lemma fold_zip_rows (rest : list ndarray) (r0 : list (list float))
    (i : nat) (x : list float) :
  r0 !! i = Some x →
  Forall (fun b => is_Some (rows b !! i)) rest →
  fold_left (fun acc b => zip_with app acc (rows b)) rest r0 !! i
  = Some (x ++ concat (omap (fun b => rows b !! i) rest)).
Proof.
  intros Hx Hrest. revert r0 x Hx.
  induction Hrest as [|b rest [y Hy] _ IH]; intros r0 x Hx; simpl.
  - now rewrite app_nil_r.
  - rewrite Hy. simpl. rewrite app_assoc. apply IH.
    rewrite lookup_zip_with, Hx. simpl. now rewrite Hy.
Qed.

(** Row by row, [np.concatenate(arrays, axis=1)] joins the rows of the
    arrays in their order. *)
Lemma np_concatenate_rows (arrays : list ndarray) (c : ndarray) (i : nat) :
  np_concatenate_axis1 arrays = Ok c →
  Forall (fun b => is_Some (rows b !! i)) arrays →
  rows c !! i = Some (concat (omap (fun b => rows b !! i) arrays)).
Proof.
  unfold np_concatenate_axis1. destruct arrays as [|a rest]; [discriminate|].
  destruct (forallb _ rest); [|discriminate].
  intros [= <-] Hall. apply Forall_cons in Hall as [[x Hx] Hrest].
  simpl. rewrite Hx. simpl. now apply fold_zip_rows.
Qed.

(** Away from [nan], passing the test is the same as no channel exceeding
    the threshold. *)
Lemma passes_not_exceeds (thr : float) (eps : list ndarray) :
  is_nan thr = false → Spec.no_nan eps = true →
  Spec.survivors thr eps
  = List.filter (fun ep => negb (Spec.exceeds thr ep)) eps.
Proof.
  intros Hthr Hnan. unfold Spec.survivors. apply filter_ext_in.
  intros ep Hin. unfold Spec.no_nan in Hnan.
  rewrite forallb_forall in Hnan. specialize (Hnan ep Hin).
  unfold Spec.passes, Spec.exceeds.
  induction (Spec.ptps ep) as [|p l IH]; simpl in *; [reflexivity|].
  apply andb_true_iff in Hnan as [Hp Hl].
  rewrite negb_orb, (IH Hl). f_equal.
  apply FloatFacts.leb_negb_ltb; [now apply negb_true_iff|exact Hthr].
Qed.

Lemma find_first {A} (p : A → bool) (l : list A) :
  match List.find p l with
  | Some x => ∃ before after, l = before ++ x :: after
                ∧ Forall (fun y => p y = false) before ∧ p x = true
  | None => Forall (fun y => p y = false) l
  end.
Proof.
  induction l as [|y l IH]; simpl; [constructor|].
  destruct (p y) eqn:E.
  - exists [], l. auto.
  - destruct (List.find p l) as [x|].
    + destruct IH as (before & after & -> & Hb & Hx).
      exists (y :: before), after. auto.
    + constructor; auto.
Qed.

End RejectionFacts.

Section RejectionStage.

Import QEEGAnalyzer.

Variable _get_eeg_data : M t ndarray.

Local Opaque SignalProcessor.MIN_CLEAN_EPOCHS.

(** The analyzer stores what the processor returns and copies its
    counters into the statistics. *)
Lemma _reject_artifacts_run (self : t) (data clean : ndarray)
    (p : SignalProcessor.t) :
  _filtered_data self = Some data →
  SignalProcessor.reject_artifacts data None None (processor self)
    = (Ok clean, p) →
  _reject_artifacts _get_eeg_data self
  = (Ok tt,
     set_artifact_stats
       (Some (Spec.stats (SignalProcessor.n_total_epochs p)
                (SignalProcessor.n_clean_epochs p)
                (SignalProcessor.rejection_threshold p)))
       (set__clean_data (Some clean) (set_processor p self))).
Proof.
  intros Hdata Hrun. unfold _reject_artifacts, mbind, M_bind, get.
  rewrite Hdata. simpl. rewrite Hrun. reflexivity.
Qed.

(** C3: with the matrix cut into whole epochs, an epoch is rejected exactly
    when some channel's peak-to-peak amplitude exceeds 100 microvolts; when
    at least [MIN_CLEAN_EPOCHS] epochs are retained, the clean matrix is the
    concatenation of the retained epochs in order, and the statistics give
    their count as [clean_epochs], [rejected_epochs = total_epochs -
    clean_epochs] and the threshold 100. *)
Theorem rejection_at_default_threshold (self : t) (data : ndarray) (es : Z) :
  _filtered_data self = Some data →
  well_formed data →
  py_int (SignalProcessor.EPOCH_DURATION_SEC
          * SignalProcessor.sfreq (processor self))%float = Ok es →
  (0 < es)%Z →
  let eps := Spec.epochs data es in
  Spec.no_nan eps = true →
  let kept := List.filter (fun ep => negb (Spec.exceeds 100 ep)) eps in
  SignalProcessor.MIN_CLEAN_EPOCHS ≤ length kept →
  ∃ clean self' st,
    _reject_artifacts _get_eeg_data self = (Ok tt, self')
    ∧ SignalProcessor.reject_artifacts data None None (processor self)
      = (Ok clean, processor self')
    ∧ np_concatenate_axis1 kept = Ok clean
    ∧ _clean_data self' = Some clean
    ∧ artifact_stats self' = Some st
    ∧ total_epochs st = Z.of_nat (length eps)
    ∧ clean_epochs st = Z.of_nat (length kept)
    ∧ rejected_epochs st = (total_epochs st - clean_epochs st)%Z
    ∧ threshold_uv st = 100%float
    ∧ ∀ i, i < shape0 data →
        rows clean !! i
        = Some (concat (omap (fun ep => rows ep !! i) kept)).
Proof.
  intros Hdata Hwf Hint Hes eps Hnan kept Hmin.
  pose proof (passes_not_exceeds 100 eps eq_refl Hnan) as Hkept.
  fold kept in Hkept.
  pose proof (reject_artifacts_outcome (processor self) data None None es
                Hwf Hint Hes) as Hrun.
  cbv beta zeta in Hrun. fold eps in Hrun.
  change (py_or None SignalProcessor.ARTIFACT_THRESHOLD_UV)
    with 100%float in Hrun.
  rewrite Hkept in Hrun.
  pose proof MIN_CLEAN_EPOCHS_pos as Hpos.
  assert ((Z.of_nat (length eps) =? 0)%Z = false) as Hne.
  { apply Z.eqb_neq. intros H0.
    assert (length eps = 0) as Hz by lia.
    apply length_zero_iff_nil in Hz.
    unfold kept in Hmin. rewrite Hz in Hmin. simpl in Hmin. lia. }
  rewrite Hne, (proj2 (Nat.leb_le _ _) Hmin) in Hrun.
  destruct (concatenate_survivors data es 100) as [clean Hclean].
  { fold eps. rewrite Hkept. lia. }
  fold eps in Hclean. rewrite Hkept in Hclean. rewrite Hclean in Hrun.
  eexists clean, _, _.
  split; [exact (_reject_artifacts_run self data clean _ Hdata Hrun)|].
  simpl. split_and!; auto.
  intros i Hi. apply (np_concatenate_rows kept clean i Hclean).
  rewrite Forall_forall. intros ep Hep. apply lookup_lt_is_Some.
  unfold kept in Hep. apply list_elem_of_In, filter_In in Hep as [Hep _].
  apply list_elem_of_In, (shape0_epoch data es) in Hep.
  unfold shape0 in Hep, Hi. lia.
Qed.

(** C4, as the code has it.  A matrix shorter than one epoch is returned as
    it is, with [clean_epochs = total_epochs = 0] and the threshold left
    untouched.  Otherwise, when fewer than [MIN_CLEAN_EPOCHS] epochs survive
    100 microvolts, all epochs are evaluated again at 150, 200, 300 and 500
    in that order; the first threshold that leaves enough epochs is recorded
    and its survivors are concatenated; if none does, the whole matrix is
    returned with an infinite threshold and [clean_epochs = total_epochs].
    In every case the call returns normally. *)
Theorem rejection_relaxation (self : t) (data : ndarray) (es : Z) :
  _filtered_data self = Some data →
  well_formed data →
  py_int (SignalProcessor.EPOCH_DURATION_SEC
          * SignalProcessor.sfreq (processor self))%float = Ok es →
  (0 < es)%Z →
  let eps := Spec.epochs data es in
  let total := Z.of_nat (length eps) in
  length (Spec.survivors 100 eps) < SignalProcessor.MIN_CLEAN_EPOCHS →
  SignalProcessor.RELAXED_THRESHOLDS = [150; 200; 300; 500]%float
  ∧ ∃ clean self',
      _reject_artifacts _get_eeg_data self = (Ok tt, self')
      ∧ _clean_data self' = Some clean
      ∧ if decide (eps = []) then
          clean = data
          ∧ artifact_stats self'
            = Some (Spec.stats 0 0
                      (SignalProcessor.rejection_threshold (processor self)))
        else
          match Spec.first_sufficient eps SignalProcessor.RELAXED_THRESHOLDS
          with
          | Some thr =>
              np_concatenate_axis1 (Spec.survivors thr eps) = Ok clean
              ∧ artifact_stats self'
                = Some (Spec.stats total
                          (Z.of_nat (length (Spec.survivors thr eps))) thr)
              ∧ SignalProcessor.MIN_CLEAN_EPOCHS
                ≤ length (Spec.survivors thr eps)
              ∧ ∃ before after,
                  SignalProcessor.RELAXED_THRESHOLDS = before ++ thr :: after
                  ∧ Forall (fun t => length (Spec.survivors t eps)
                                     < SignalProcessor.MIN_CLEAN_EPOCHS) before
          | None =>
              clean = data
              ∧ artifact_stats self' = Some (Spec.stats total total infinity)
              ∧ Forall (fun t => length (Spec.survivors t eps)
                                 < SignalProcessor.MIN_CLEAN_EPOCHS)
                  SignalProcessor.RELAXED_THRESHOLDS
          end.
Proof.
  intros Hdata Hwf Hint Hes eps total Hfew. split; [reflexivity|].
  pose proof (reject_artifacts_outcome (processor self) data None None es
                Hwf Hint Hes) as Hrun.
  cbv beta zeta in Hrun. fold eps in Hrun. fold total in Hrun.
  change (py_or None SignalProcessor.ARTIFACT_THRESHOLD_UV)
    with 100%float in Hrun.
  destruct (decide (eps = [])) as [Hnil|Hnil].
  - assert ((total =? 0)%Z = true) as Hz
      by (unfold total; rewrite Hnil; reflexivity).
    rewrite Hz in Hrun.
    eexists data, _.
    split; [exact (_reject_artifacts_run self data data _ Hdata Hrun)|].
    simpl. auto.
  - assert ((total =? 0)%Z = false) as Hz.
    { apply Z.eqb_neq. intros H0. apply Hnil, length_zero_iff_nil.
      unfold total in H0. lia. }
    rewrite Hz, (proj2 (Nat.leb_gt _ _) Hfew) in Hrun.
    pose proof (find_first
      (fun t => (SignalProcessor.MIN_CLEAN_EPOCHS
                 <=? length (Spec.survivors t eps))%nat)
      SignalProcessor.RELAXED_THRESHOLDS) as Hfind.
    fold (Spec.first_sufficient eps SignalProcessor.RELAXED_THRESHOLDS)
      in Hfind.
    destruct (Spec.first_sufficient eps SignalProcessor.RELAXED_THRESHOLDS)
      as [thr|].
    + destruct Hfind as (before & after & Hsplit & Hbefore & Hthr).
      apply Nat.leb_le in Hthr.
      destruct (concatenate_survivors data es thr) as [clean Hclean].
      { fold eps. pose proof MIN_CLEAN_EPOCHS_pos. lia. }
      fold eps in Hclean. rewrite Hclean in Hrun.
      eexists clean, _.
      split; [exact (_reject_artifacts_run self data clean _ Hdata Hrun)|].
      simpl. repeat split; auto.
      exists before, after. split; [exact Hsplit|].
      eapply Forall_impl; [exact Hbefore|].
      simpl. intros t Ht. now apply Nat.leb_gt.
    + eexists data, _.
      split; [exact (_reject_artifacts_run self data data _ Hdata Hrun)|].
      simpl. repeat split; auto.
      eapply Forall_impl; [exact Hfind|].
      simpl. intros t Ht. now apply Nat.leb_gt.
Qed.

End RejectionStage.

Lemma rejection_at_default_threshold_witness :
  ∃ clean self' st,
    QEEGAnalyzer._reject_artifacts Examples.no_loader
      (Examples.filtered 1 Examples.one_artifact) = (Ok tt, self')
    ∧ QEEGAnalyzer._clean_data self' = Some clean
    ∧ QEEGAnalyzer.artifact_stats self' = Some st
    ∧ QEEGAnalyzer.total_epochs st = 31%Z
    ∧ QEEGAnalyzer.clean_epochs st = 30%Z
    ∧ QEEGAnalyzer.rejected_epochs st = 1%Z
    ∧ QEEGAnalyzer.threshold_uv st = 100%float.
Proof.
  destruct (rejection_at_default_threshold Examples.no_loader
              (Examples.filtered 1 Examples.one_artifact)
              Examples.one_artifact 2)
    as (clean & self' & st & H1 & H2 & H3 & H4 & H5 & H6 & H7 & H8 & H9 & _).
  - reflexivity.
  - repeat constructor.
  - reflexivity.
  - lia.
  - reflexivity.
  - apply Nat.leb_le. reflexivity.
  - exists clean, self', st. rewrite H8, H6, H7.
    repeat split; assumption.
Defined.

Lemma rejection_relaxation_witness :
  ∃ self',
    QEEGAnalyzer._reject_artifacts Examples.no_loader
      (Examples.filtered 1 Examples.two_epochs) = (Ok tt, self')
    ∧ QEEGAnalyzer._clean_data self' = Some Examples.two_epochs
    ∧ QEEGAnalyzer.artifact_stats self' = Some (Spec.stats 2 2 infinity).
Proof.
  destruct (rejection_relaxation Examples.no_loader
              (Examples.filtered 1 Examples.two_epochs)
              Examples.two_epochs 2)
    as (_ & clean & self' & H1 & H2 & H3).
  - reflexivity.
  - repeat constructor.
  - reflexivity.
  - lia.
  - apply Nat.ltb_lt. reflexivity.
  - destruct H3 as (-> & H3 & _).
    exists self'. repeat split; assumption.
Defined.

(** C4, as stated, fails on a matrix shorter than one epoch: no epoch
    survives any threshold, the matrix is returned whole, and the recorded
    threshold is still 100, not infinite. *)
Lemma short_recording_keeps_threshold :
  let eps := Spec.epochs Examples.too_short 2 in
  let out := QEEGAnalyzer._reject_artifacts Examples.no_loader
               (Examples.filtered 1 Examples.too_short) in
  py_int (SignalProcessor.EPOCH_DURATION_SEC * 1)%float = Ok 2%Z
  ∧ length (Spec.survivors 100 eps) < SignalProcessor.MIN_CLEAN_EPOCHS
  ∧ Spec.first_sufficient eps SignalProcessor.RELAXED_THRESHOLDS = None
  ∧ out.1 = Ok tt
  ∧ QEEGAnalyzer._clean_data out.2 = Some Examples.too_short
  ∧ QEEGAnalyzer.artifact_stats out.2 = Some (Spec.stats 0 0 100)
  ∧ is_infinity 100 = false.
Proof.
  simpl. repeat split; try reflexivity.
  apply Nat.ltb_lt. reflexivity.
Qed.

(** ** Asymmetry *)

Section AsymmetryFacts.

Import QEEGAnalyzer.

Variable np_log : float → float.

Lemma index_spec (x : string) (l : list string) :
  (contains x l = true
   ∧ ∃ i, index x l = Ok i
          ∧ list_find (fun c => c = x) l = Some (i, x) ∧ i < length l)
  ∨ (contains x l = false ∧ list_find (fun c => c = x) l = None).
Proof.
  unfold contains. induction l as [|y l IH]; simpl; [right; auto|].
  rewrite (String.eqb_sym x y).
  destruct (String.eqb_spec y x) as [->|Hne]; simpl.
  - left. split; [reflexivity|]. exists 0.
    rewrite decide_True by reflexivity. repeat split. lia.
  - rewrite decide_False by exact Hne.
    destruct IH as [(Hc & i & Hi & Hf & Hlt)|(Hc & Hf)].
    + left. split; [exact Hc|]. exists (S i).
      rewrite Hi, Hf. simpl. repeat split. lia.
    + right. rewrite Hf. auto.
Qed.

(** The loop over the configured pairs appends, in order, the entries of
    the pairs whose two channels are present. *)
Lemma asymmetry_pairs_loop (band_name : string) (bp : list float)
    (pairs : list (string * string))
    (acc : list ((string * string) * float)) (self : t) :
  band_powers self !! band_name = Some bp →
  n_eeg self ≤ length bp →
  for_eachM (fun pairs_values '(left_ch, right_ch) =>
      self ← get;
      if contains left_ch (eeg_channels self)
         && contains right_ch (eeg_channels self)
      then
        left_idx ← lift (index left_ch (eeg_channels self));
        right_idx ← lift (index right_ch (eeg_channels self));
        bp ← lift (dict_get (band_powers self) band_name);
        left_power ← lift (getitem bp left_idx);
        right_power ← lift (getitem bp right_idx);
        let left_power := py_max left_power 1e-20 in
        let right_power := py_max right_power 1e-20 in
        let asym := (np_log right_power - np_log left_power)%float in
        mret (pairs_values ++ [((left_ch, right_ch), asym)])
      else mret pairs_values)
    pairs acc self
  = (Ok (acc ++ omap (Spec.asymmetry_entry np_log (eeg_channels self) bp)
                  pairs), self).
Proof.
  intros Hbp Hlen. revert acc.
  induction pairs as [|[left_ch right_ch] pairs IH]; intros acc.
  - simpl. now rewrite app_nil_r.
  - cbn [for_eachM omap list_omap]. unfold mbind at 1, M_bind at 1.
    unfold mbind at 1, M_bind at 1, get at 1.
    unfold Spec.asymmetry_entry at 1, Spec.channel_power. cbn [fst snd].
    destruct (index_spec left_ch (eeg_channels self))
      as [(Hcl & li & Hil & Hfl & Hltl)|(Hcl & Hfl)];
      rewrite Hcl, Hfl; cbn [andb mbind option_bind].
    2:{ unfold mret at 1, M_ret at 1. apply IH. }
    destruct (index_spec right_ch (eeg_channels self))
      as [(Hcr & ri & Hir & Hfr & Hltr)|(Hcr & Hfr)];
      rewrite Hcr, Hfr; cbn [andb mbind option_bind].
    2:{ cbn [fst]. destruct (bp !! li); cbn [mbind option_bind];
          unfold mret at 1, M_ret at 1; apply IH. }
    unfold n_eeg in Hlen.
    destruct (lookup_lt_is_Some_2 bp li ltac:(lia)) as [lp Hlp].
    destruct (lookup_lt_is_Some_2 bp ri ltac:(lia)) as [rp Hrp].
    cbn [fst]. rewrite Hlp, Hrp. cbn [mbind option_bind].
    unfold mbind, M_bind, lift, dict_get, getitem.
    rewrite Hil, Hir, Hbp, Hlp, Hrp. unfold mret at 1, M_ret at 1.
    fold (@mbind (M t) _). 
    specialize (IH (acc ++ [(left_ch, right_ch,
                             Spec.asymmetry_value np_log lp rp)])).
    rewrite <- app_assoc in IH. exact IH.
Qed.

Lemma channel_power_missing (channels : list string) (powers : list float)
    (ch : string) :
  ch ∉ channels → Spec.channel_power channels powers ch = None.
Proof.
  intros Hch. unfold Spec.channel_power.
  destruct (list_find (fun c => c = ch) channels) as [[i c]|] eqn:E;
    [|reflexivity].
  apply list_find_Some in E as (Hi & -> & _).
  exfalso. apply Hch. eapply list_elem_of_lookup_2, Hi.
Qed.

(** C7: for every band, the list stored by [_compute_asymmetry] holds, for
    each configured (left, right) pair whose two channels are in the channel
    set, the value [ln(max(right, 1e-20)) - ln(max(left, 1e-20))] of the two
    band powers, in the order of the pairs, and nothing for a pair with a
    missing channel; equal powers give 0, and the powers 1.0 and 2.0 give
    [ln 2]. *)
Theorem asymmetry_spec (self : t) :
  (∀ band, band ∈ map fst FREQ_BANDS →
     ∃ bp, band_powers self !! band = Some bp ∧ n_eeg self ≤ length bp) →
  (∃ self', _compute_asymmetry np_log self = (Ok tt, self')
     ∧ ∀ band bp, band ∈ map fst FREQ_BANDS →
         band_powers self !! band = Some bp →
         asymmetry self' !! band
         = Some (Spec.asymmetry_list np_log (eeg_channels self) bp))
  ∧ (∀ channels powers pair,
       pair.1 ∉ channels ∨ pair.2 ∉ channels →
       Spec.asymmetry_entry np_log channels powers pair = None)
  ∧ (∀ channels powers pair left_power right_power,
       Spec.channel_power channels powers pair.1 = Some left_power →
       Spec.channel_power channels powers pair.2 = Some right_power →
       Spec.asymmetry_entry np_log channels powers pair
       = Some (pair, (np_log (py_max right_power 1e-20)
                      - np_log (py_max left_power 1e-20))%float))
  ∧ (∀ p, is_finite (np_log (py_max p 1e-20)) = true →
       Spec.asymmetry_value np_log p p = 0%float)
  ∧ (np_log 1 = 0%float → Spec.asymmetry_value np_log 1 2 = np_log 2).
Proof.
  intros Hbands. split_and!.
  - destruct (Hbands "Delta") as (b1 & E1 & L1); [set_solver|].
    destruct (Hbands "Theta") as (b2 & E2 & L2); [set_solver|].
    destruct (Hbands "Alpha") as (b3 & E3 & L3); [set_solver|].
    destruct (Hbands "Beta") as (b4 & E4 & L4); [set_solver|].
    eexists. split.
    + unfold _compute_asymmetry, FREQ_BANDS. cbn [for_eachM].
      pose proof (fun s => asymmetry_pairs_loop "Delta" b1 ASYMMETRY_PAIRS
                             [] s) as R1.
      pose proof (fun s => asymmetry_pairs_loop "Theta" b2 ASYMMETRY_PAIRS
                             [] s) as R2.
      pose proof (fun s => asymmetry_pairs_loop "Alpha" b3 ASYMMETRY_PAIRS
                             [] s) as R3.
      pose proof (fun s => asymmetry_pairs_loop "Beta" b4 ASYMMETRY_PAIRS
                             [] s) as R4.
      cbv zeta in R1, R2, R3, R4.
      unfold mbind at 1, M_bind at 1. unfold mbind at 1, M_bind at 1.
      rewrite (R1 self E1 L1). unfold modify at 1.
      unfold mbind at 1, M_bind at 1. unfold mbind at 1, M_bind at 1.
      rewrite (R2 (set_asymmetry _ self) E2 L2). unfold modify at 1.
      unfold mbind at 1, M_bind at 1. unfold mbind at 1, M_bind at 1.
      rewrite (R3 (set_asymmetry _ (set_asymmetry _ self)) E3 L3). unfold modify at 1.
      unfold mbind at 1, M_bind at 1. unfold mbind at 1, M_bind at 1.
      rewrite (R4 (set_asymmetry _ (set_asymmetry _ (set_asymmetry _ self)))
                 E4 L4). unfold modify at 1. reflexivity.
    + intros band bp Hband Hbp. simpl in Hband. set_unfold in Hband.
      unfold Spec.asymmetry_list.
      destruct Hband as [->|[->|[->|[->|[]]]]]; simpl;
        simplify_map_eq; reflexivity.
  - intros channels powers pair Hmiss. unfold Spec.asymmetry_entry.
    destruct Hmiss as [H|H].
    + now rewrite (channel_power_missing _ _ _ H).
    + rewrite (channel_power_missing _ _ _ H).
      destruct (Spec.channel_power channels powers pair.1); reflexivity.
  - intros channels powers pair lp rp Hl Hr. unfold Spec.asymmetry_entry.
    rewrite Hl, Hr. reflexivity.
  - intros p Hfin. unfold Spec.asymmetry_value.
    now apply FloatFacts.sub_diag.
  - intros H1. unfold Spec.asymmetry_value.
    change (py_max 2 1e-20) with 2%float.
    change (py_max 1 1e-20) with 1%float.
    rewrite H1. apply FloatFacts.sub_zero_r.
Qed.

End AsymmetryFacts.

Lemma asymmetry_spec_witness :
  ∃ self',
    QEEGAnalyzer._compute_asymmetry Examples.toy_log Examples.three_channels
    = (Ok tt, self')
    ∧ QEEGAnalyzer.asymmetry self' !! "Alpha"
      = Some [(("F3", "F4"), 1%float)]
    ∧ Spec.asymmetry_value Examples.toy_log 1 1 = 0%float
    ∧ Spec.asymmetry_value Examples.toy_log 1 2 = Examples.toy_log 2.
Proof.
  destruct (asymmetry_spec Examples.toy_log Examples.three_channels)
    as ((self' & Hrun & Hlist) & _ & _ & Hsame & Hln).
  - intros band Hband. simpl in Hband. set_unfold in Hband.
    destruct Hband as [->|[->|[->|[->|[]]]]];
      exists [1; 2; 3]%float;
      (split; [reflexivity|unfold QEEGAnalyzer.n_eeg; simpl; lia]).
  - exists self'. split; [exact Hrun|]. split.
    + rewrite (Hlist "Alpha" [1; 2; 3]%float); [reflexivity|set_solver|].
      reflexivity.
    + split; [apply Hsame|apply Hln]; reflexivity.
Defined.


(** * Further properties of the code *)

(** ** Z-scores *)

Section MoreZScoreFacts.

Import QEEGAnalyzer.

(** Both scoring strategies return one score per channel, and the
    within-subject strategy never raises, whatever the band name. *)
Theorem compute_zscores_length (self : NormativeDB.t)
    (channel_values z : list float) (band_name : option string) :
  NormativeDB.compute_zscores self channel_values band_name = Ok z →
  length z = length channel_values
  ∧ (String.eqb (NormativeDB._method self) "within" = true →
     z = NormativeDB.compute_zscore_within_subject channel_values)
  ∧ ∀ other, ∃ z',
      NormativeDB.compute_zscores {| NormativeDB._method := "within" |}
        channel_values other = Ok z'
      ∧ length z' = length channel_values.
Proof.
  assert (∀ v, length (NormativeDB.compute_zscore_within_subject v)
               = length v) as Hw.
  { intros v. unfold NormativeDB.compute_zscore_within_subject.
    destruct (_ <? _)%float; [apply length_np_zeros|apply length_map]. }
  intros H. unfold NormativeDB.compute_zscores in H. split_and!.
  - destruct (String.eqb _ _).
    + injection H as <-. apply Hw.
    + destruct band_name as [b|]; [|discriminate]. injection H as <-.
      unfold NormativeDB.compute_zscore_normative.
      destruct (_ !! b); [apply length_map|apply length_np_zeros].
  - intros Hm. rewrite Hm in H. now injection H as <-.
  - intros other. eexists. split; [reflexivity|apply Hw].
Qed.

(** [_compute_zscores] returns normally exactly when every configured band
    has a relative-power vector; otherwise the exception is a [KeyError], and
    when the first band is the missing one the object is left as it was. *)
Theorem _compute_zscores_result (self : t) :
  ((_compute_zscores self).1 = Ok tt
   ∨ (_compute_zscores self).1 = Raise KeyError)
  ∧ ((_compute_zscores self).1 = Ok tt ↔
     ∀ band, band ∈ map fst FREQ_BANDS →
       is_Some (relative_powers self !! band))
  ∧ (relative_powers self !! "Delta" = None →
     _compute_zscores self = (Raise KeyError, self)).
Proof.
  assert (∀ s rel band, ∃ z,
            NormativeDB.compute_zscores (normative s) rel (Some band) = Ok z)
    as Hz.
  { intros s rel band. unfold NormativeDB.compute_zscores.
    destruct (String.eqb _ _); eauto. }
  assert (∀ P : string → Prop,
            (∀ band, band ∈ map fst FREQ_BANDS → P band)
            ↔ P "Delta" ∧ P "Theta" ∧ P "Alpha" ∧ P "Beta") as Hall.
  { intros P. simpl. split.
    - intros H. split_and!; apply H; set_solver.
    - intros (H1 & H2 & H3 & H4) band Hb. set_unfold in Hb.
      destruct Hb as [->|[->|[->|[->|[]]]]]; assumption. }
  rewrite Hall.
  unfold _compute_zscores, FREQ_BANDS. cbn [for_eachM].
  unfold mbind, M_bind, get, lift, modify, mret, M_ret, dict_get.
  destruct (relative_powers self !! "Delta") as [r1|] eqn:E1; simpl.
  2:{ split_and!; [right; reflexivity| |reflexivity].
      split; [discriminate|]. intros ([? ?] & _). discriminate. }
  destruct (Hz self r1 "Delta") as [z1 ->]. simpl.
  destruct (relative_powers self !! "Theta") as [r2|] eqn:E2; simpl.
  2:{ split_and!; [right; reflexivity| |discriminate].
      split; [discriminate|]. intros (_ & [? ?] & _). discriminate. }
  destruct (Hz self r2 "Theta") as [z2 ->]. simpl.
  destruct (relative_powers self !! "Alpha") as [r3|] eqn:E3; simpl.
  2:{ split_and!; [right; reflexivity| |discriminate].
      split; [discriminate|]. intros (_ & _ & [? ?] & _). discriminate. }
  destruct (Hz self r3 "Alpha") as [z3 ->]. simpl.
  destruct (relative_powers self !! "Beta") as [r4|] eqn:E4; simpl.
  2:{ split_and!; [right; reflexivity| |discriminate].
      split; [discriminate|]. intros (_ & _ & _ & [? ?]). discriminate. }
  destruct (Hz self r4 "Beta") as [z4 ->]. simpl.
  split_and!; [left; reflexivity| |discriminate].
  split; [|reflexivity]. intros _. split_and!; eauto.
Qed.

End MoreZScoreFacts.

Lemma compute_zscores_length_witness :
  length [0; 0]%float = length [0.5; 0.25]%float.
Proof.
  apply (compute_zscores_length {| NormativeDB._method := "normative" |}
           [0.5; 0.25]%float [0; 0]%float (Some "Gamma")).
  reflexivity.
Defined.

Lemma recompute_zscores_updates_witness :
  ∃ self',
    QEEGAnalyzer.recompute_zscores
      (QEEGAnalyzer.set_normative
         (NormativeDB.set_method "normative"
            (QEEGAnalyzer.normative MoreExamples.with_relative_powers))
         MoreExamples.with_relative_powers) = (Ok tt, self')
    ∧ ∃ z, QEEGAnalyzer.zscores self' !! "Alpha" = Some z.
Proof.
  destruct (recompute_zscores_updates MoreExamples.with_relative_powers
              "normative") as (self' & Hrun & Hz).
  - intros band Hband. simpl in Hband. set_unfold in Hband.
    destruct Hband as [->|[->|[->|[->|[]]]]]; eexists; reflexivity.
  - exists self'. split; [exact Hrun|].
    destruct (Hz "Alpha" [0.1; 0.2; 0.3]%float) as (z & Hc & Hl);
      [set_solver|reflexivity|].
    exists z. exact Hl.
Defined.

(** ** Artifact rejection: counters, shapes and errors *)

Section MoreRejectionFacts.

Import SignalProcessor.

Local Opaque MIN_CLEAN_EPOCHS.

Lemma epoch_shape (data : ndarray) (es e : Z) :
  well_formed data → (0 < es)%Z →
  (0 <= e < Z.of_nat (shape1 data) / es)%Z →
  well_formed (epoch_at data es e)
  ∧ shape0 (epoch_at data es e) = shape0 data
  ∧ shape1 (epoch_at data es e) = Z.to_nat es.
Proof.
  intros Hwf Hes He.
  pose proof (epoch_in_range _ es e Hes He) as Hin.
  assert (shape1 (epoch_at data es e) = Z.to_nat es) as Hs1.
  { unfold epoch_at, slice_cols. simpl. assert (0 <= e * es)%Z by lia. lia. }
  split_and!; [|apply length_map|exact Hs1].
  unfold well_formed. rewrite Hs1. unfold epoch_at, slice_cols. simpl.
  rewrite Forall_map. eapply Forall_impl; [exact Hwf|].
  simpl. intros row Hrow. apply length_slice_epoch; lia.
Qed.

Lemma fold_zip_shape (rest : list ndarray) (r0 : list (list float))
    (n w len0 : nat) :
  length r0 = n → Forall (fun r => length r = len0) r0 →
  Forall (fun b => well_formed b ∧ shape0 b = n ∧ shape1 b = w) rest →
  length (fold_left (fun acc b => zip_with app acc (rows b)) rest r0) = n
  ∧ Forall (fun r => length r = len0 + length rest * w)
      (fold_left (fun acc b => zip_with app acc (rows b)) rest r0)
  ∧ fold_left (fun k b => k + shape1 b) rest len0 = len0 + length rest * w.
Proof.
  intros Hn Hr0 Hrest. revert r0 len0 Hn Hr0.
  induction Hrest as [|b rest (Hwf & Hs0 & Hs1) _ IH]; intros r0 len0 Hn Hr0.
  - simpl. rewrite Nat.add_0_r. auto.
  - simpl. destruct (IH (zip_with app r0 (rows b)) (len0 + w)) as (H1 & H2 & H3).
    + rewrite length_zip_with. unfold shape0 in Hs0. lia.
    + rewrite Forall_lookup. intros i r Hi.
      apply lookup_zip_with_Some in Hi as (x & y & -> & Hx & Hy).
      rewrite length_app.
      rewrite Forall_lookup in Hr0. rewrite (Hr0 i x Hx).
      unfold well_formed in Hwf. rewrite Forall_lookup in Hwf.
      rewrite (Hwf i y Hy). lia.
    + rewrite Hs1. split_and!; [exact H1| |lia].
      eapply Forall_impl; [exact H2|]. simpl. intros. lia.
Qed.

Lemma concatenate_shape (arrays : list ndarray) (c : ndarray) (n w : nat) :
  np_concatenate_axis1 arrays = Ok c →
  Forall (fun b => well_formed b ∧ shape0 b = n ∧ shape1 b = w) arrays →
  well_formed c ∧ shape0 c = n ∧ shape1 c = length arrays * w.
Proof.
  unfold np_concatenate_axis1. destruct arrays as [|a rest]; [discriminate|].
  destruct (forallb _ rest); [|discriminate].
  intros [= <-] Hall. apply Forall_cons in Hall as [(Hwf & Hs0 & Hs1) Hrest].
  destruct (fold_zip_shape rest (rows a) n w (shape1 a) Hs0 Hwf Hrest)
    as (H1 & H2 & H3).
  unfold well_formed, shape0. simpl. rewrite H3, Hs1.
  split_and!; [|exact H1|lia].
  eapply Forall_impl; [exact H2|]. simpl. intros. lia.
Qed.

Lemma survivors_shape (data : ndarray) (es : Z) (thr : float) :
  well_formed data → (0 < es)%Z →
  Forall (fun b => well_formed b ∧ shape0 b = shape0 data
                   ∧ shape1 b = Z.to_nat es)
    (Spec.survivors thr (Spec.epochs data es)).
Proof.
  intros Hwf Hes. rewrite Forall_forall. intros b Hb.
  apply list_elem_of_In, filter_In in Hb as [Hb _].
  unfold Spec.epochs in Hb. apply in_map_iff in Hb as (e & <- & He).
  apply epoch_shape; [exact Hwf|exact Hes|].
  pose proof (range_bounds (Z.of_nat (shape1 data) / es)) as Hr.
  rewrite Forall_forall in Hr. apply Hr, list_elem_of_In, He.
Qed.

Lemma length_survivors (thr : float) (eps : list ndarray) :
  length (Spec.survivors thr eps) ≤ length eps.
Proof.
  unfold Spec.survivors. induction eps as [|ep eps IH]; simpl; [lia|].
  destruct (Spec.passes thr ep); simpl; lia.
Qed.

(** For every threshold and epoch length: on a well-formed matrix with at
    least one sample per epoch, [reject_artifacts] returns normally, leaves
    the sampling rate alone, counts [shape1 // epoch_samples] epochs in
    total and between zero and that many clean ones, and returns a
    well-formed matrix with the channels of the input that is either the
    input itself or has [n_clean_epochs * epoch_samples] columns. *)
Theorem reject_artifacts_invariants (self : t) (data : ndarray)
    (threshold_uv epoch_sec : option float) (es : Z) :
  well_formed data →
  py_int (py_or epoch_sec EPOCH_DURATION_SEC * sfreq self)%float = Ok es →
  (0 < es)%Z →
  ∃ clean self',
    reject_artifacts data threshold_uv epoch_sec self = (Ok clean, self')
    ∧ sfreq self' = sfreq self
    ∧ n_total_epochs self' = (Z.of_nat (shape1 data) / es)%Z
    ∧ (0 <= n_clean_epochs self' <= n_total_epochs self')%Z
    ∧ well_formed clean
    ∧ shape0 clean = shape0 data
    ∧ (clean = data
       ∨ Z.of_nat (shape1 clean) = (n_clean_epochs self' * es)%Z).
Proof.
  intros Hwf Hint Hes.
  pose proof (reject_artifacts_outcome self data threshold_uv epoch_sec es
                Hwf Hint Hes) as Hrun.
  cbv beta zeta in Hrun.
  pose proof (length_epochs data es Hes) as Hlen.
  set (eps := Spec.epochs data es) in *.
  set (total := Z.of_nat (length eps)) in *.
  assert (∀ thr, MIN_CLEAN_EPOCHS ≤ length (Spec.survivors thr eps) →
            ∃ clean, np_concatenate_axis1 (Spec.survivors thr eps) = Ok clean
              ∧ well_formed clean ∧ shape0 clean = shape0 data
              ∧ Z.of_nat (shape1 clean)
                = (Z.of_nat (length (Spec.survivors thr eps)) * es)%Z)
    as Hcat.
  { intros thr Hmin.
    destruct (concatenate_survivors data es thr) as [clean Hclean].
    { fold eps. pose proof MIN_CLEAN_EPOCHS_pos. lia. }
    exists clean. split; [exact Hclean|].
    destruct (concatenate_shape _ clean _ _ Hclean
                (survivors_shape data es thr Hwf Hes)) as (H1 & H2 & H3).
    fold eps in H3. split_and!; [exact H1|exact H2|]. rewrite H3. lia. }
  destruct (total =? 0)%Z eqn:E0.
  - apply Z.eqb_eq in E0. exists data. eexists. split; [exact Hrun|].
    simpl. split_and!; auto; lia.
  - destruct (MIN_CLEAN_EPOCHS <=? length (Spec.survivors _ eps))%nat eqn:E.
    + apply Nat.leb_le in E. destruct (Hcat _ E) as (clean & Hc & H1 & H2 & H3).
      rewrite Hc in Hrun. exists clean. eexists. split; [exact Hrun|].
      simpl. pose proof (length_survivors
        (py_or threshold_uv ARTIFACT_THRESHOLD_UV) eps).
      split_and!; auto; lia.
    + pose proof (find_first
        (fun t => (MIN_CLEAN_EPOCHS <=? length (Spec.survivors t eps))%nat)
        RELAXED_THRESHOLDS) as Hfind.
      fold (Spec.first_sufficient eps RELAXED_THRESHOLDS) in Hfind.
      destruct (Spec.first_sufficient eps RELAXED_THRESHOLDS) as [thr|].
      * destruct Hfind as (_ & _ & _ & _ & Hthr). apply Nat.leb_le in Hthr.
        destruct (Hcat _ Hthr) as (clean & Hc & H1 & H2 & H3).
        rewrite Hc in Hrun. exists clean. eexists. split; [exact Hrun|].
        simpl. pose proof (length_survivors thr eps).
        split_and!; auto; lia.
      * exists data. eexists. split; [exact Hrun|].
        simpl. split_and!; auto; lia.
Qed.

(** When [int(epoch_dur * sfreq)] raises, or is zero so that the epoch count
    divides by zero, [reject_artifacts] raises that exception and leaves the
    object as it was. *)
Theorem reject_artifacts_no_epoch_length (self : t) (data : ndarray)
    (threshold_uv epoch_sec : option float) :
  match py_int (py_or epoch_sec EPOCH_DURATION_SEC * sfreq self)%float with
  | Raise e =>
      reject_artifacts data threshold_uv epoch_sec self = (Raise e, self)
  | Ok es =>
      es = 0%Z →
      reject_artifacts data threshold_uv epoch_sec self
      = (Raise ZeroDivisionError, self)
  end.
Proof.
  unfold reject_artifacts, mbind, M_bind, get, lift.
  destruct (py_int _) as [es|e]; [|reflexivity].
  intros ->. reflexivity.
Qed.

End MoreRejectionFacts.

Lemma reject_artifacts_invariants_witness :
  ∃ clean self',
    SignalProcessor.reject_artifacts Examples.one_artifact None None
      (SignalProcessor.__init__ 1) = (Ok clean, self')
    ∧ SignalProcessor.n_total_epochs self' = 31%Z
    ∧ shape0 clean = 1.
Proof.
  destruct (reject_artifacts_invariants (SignalProcessor.__init__ 1)
              Examples.one_artifact None None 2)
    as (clean & self' & H1 & H2 & H3 & H4 & H5 & H6 & H7).
  - repeat constructor.
  - reflexivity.
  - lia.
  - exists clean, self'. split; [exact H1|]. split; [exact H3|exact H6].
Defined.

Lemma reject_artifacts_no_epoch_length_witness :
  SignalProcessor.reject_artifacts Examples.two_epochs None None
    (SignalProcessor.__init__ 0.25)
  = (Raise ZeroDivisionError, SignalProcessor.__init__ 0.25).
Proof.
  exact (reject_artifacts_no_epoch_length (SignalProcessor.__init__ 0.25)
           Examples.two_epochs None None eq_refl).
Defined.


(** ** The order of binary64 values *)

Section FloatOrderFacts.

Import FloatOrder.

Lemma SFleb_rank (x y : spec_float) :
  x ≠ S754_nan → y ≠ S754_nan →
  SFleb x y = true ↔ lex_le (rank x) (rank y).
Proof.
  intros Hx Hy. unfold SFleb, lex_le.
  destruct x as [sx|sx| |sx mx ex], y as [sy|sy| |sy my ey];
    try congruence; try destruct sx; try destruct sy; simpl;
    try (split; [intros _; lia|reflexivity]);
    try (split; [discriminate|intros; lia]).
  - change (PosDef.Pos.compare_cont Eq mx my) with (mx ?= my)%positive.
    destruct (Z.compare_spec ex ey); simpl;
      [destruct (Pos.compare_spec mx my); simpl| |];
      (split; [try discriminate; intros _; lia|intros; try reflexivity; lia]).
  - change (PosDef.Pos.compare_cont Eq mx my) with (mx ?= my)%positive.
    destruct (Z.compare_spec ex ey); simpl;
      [destruct (Pos.compare_spec mx my); simpl| |];
      (split; [try discriminate; intros _; lia|intros; try reflexivity; lia]).
Qed.

Lemma SFleb_true_not_nan (x y : spec_float) :
  SFleb x y = true → x ≠ S754_nan ∧ y ≠ S754_nan.
Proof.
  unfold SFleb. destruct x as [?|?| |? ? ?], y as [?|?| |? ? ?];
    simpl; try discriminate; split; discriminate.
Qed.

(** [<=] on floats is transitive. *)
Lemma leb_trans (a b c : float) :
  (a <=? b)%float = true → (b <=? c)%float = true → (a <=? c)%float = true.
Proof.
  rewrite !FloatAxioms.leb_spec. intros Hab Hbc.
  destruct (SFleb_true_not_nan _ _ Hab) as [Ha Hb].
  destruct (SFleb_true_not_nan _ _ Hbc) as [_ Hc].
  apply SFleb_rank in Hab, Hbc; try assumption.
  apply SFleb_rank; try assumption.
  unfold lex_le in *. lia.
Qed.

(** Away from [nan], two floats are comparable. *)
Lemma leb_total (a b : float) :
  is_nan a = false → is_nan b = false →
  (a <=? b)%float = false → (b <=? a)%float = true.
Proof.
  intros Ha Hb Hab.
  pose proof (FloatFacts.is_nan_false_SF a Ha) as Ha'.
  pose proof (FloatFacts.is_nan_false_SF b Hb) as Hb'.
  rewrite FloatAxioms.leb_spec in *.
  apply SFleb_rank; try assumption.
  destruct (SFleb (Prim2SF a) (Prim2SF b)) eqn:E; [discriminate|].
  assert (¬ lex_le (rank (Prim2SF a)) (rank (Prim2SF b))) as Hn.
  { intros H. apply SFleb_rank in H; try assumption. congruence. }
  unfold lex_le in *. lia.
Qed.

End FloatOrderFacts.


(** ** Epoch scanning and thresholds *)

Section ThresholdFacts.

Import SignalProcessor.

Lemma passes_mono (t1 t2 : float) (ep : ndarray) :
  (t1 <=? t2)%float = true →
  Spec.passes t1 ep = true → Spec.passes t2 ep = true.
Proof.
  intros Ht. unfold Spec.passes. rewrite !forallb_forall.
  intros H p Hp. eapply leb_trans; [apply H, Hp|exact Ht].
Qed.

Lemma survivors_sublist (t1 t2 : float) (eps : list ndarray) :
  (t1 <=? t2)%float = true →
  Spec.survivors t1 eps `sublist_of` Spec.survivors t2 eps.
Proof.
  intros Ht. unfold Spec.survivors.
  induction eps as [|ep eps IH]; simpl; [constructor|].
  destruct (Spec.passes t1 ep) eqn:E1.
  - rewrite (passes_mono t1 t2 ep Ht E1). now constructor.
  - destruct (Spec.passes t2 ep); [now constructor|exact IH].
Qed.

(** Scanning the same matrix with a larger threshold keeps every epoch that
    the smaller threshold kept, in the same order: relaxing the threshold
    never loses an epoch. *)
Theorem relaxing_never_loses_epochs (data : ndarray) (es : Z)
    (t1 t2 : float) (kept1 kept2 : list ndarray) :
  well_formed data → (0 < es)%Z →
  (t1 <=? t2)%float = true →
  scan_epochs data es (Z.of_nat (shape1 data) / es) t1 = Ok kept1 →
  scan_epochs data es (Z.of_nat (shape1 data) / es) t2 = Ok kept2 →
  kept1 `sublist_of` kept2 ∧ length kept1 ≤ length kept2.
Proof.
  intros Hwf Hes Ht H1 H2.
  rewrite (scan_epochs_survivors data es t1 Hwf Hes) in H1.
  rewrite (scan_epochs_survivors data es t2 Hwf Hes) in H2.
  injection H1 as <-. injection H2 as <-.
  pose proof (survivors_sublist t1 t2 (Spec.epochs data es) Ht) as Hs.
  split; [exact Hs|now apply sublist_length].
Qed.

End ThresholdFacts.

Lemma relaxing_never_loses_epochs_witness :
  ∃ kept1 kept2,
    SignalProcessor.scan_epochs Examples.one_artifact 2 31 100 = Ok kept1
    ∧ SignalProcessor.scan_epochs Examples.one_artifact 2 31 2000 = Ok kept2
    ∧ length kept1 ≤ length kept2.
Proof.
  destruct (SignalProcessor.scan_epochs Examples.one_artifact 2 31 100)
    as [kept1|] eqn:E1; [|discriminate E1].
  destruct (SignalProcessor.scan_epochs Examples.one_artifact 2 31 2000)
    as [kept2|] eqn:E2; [|discriminate E2].
  exists kept1, kept2. split; [reflexivity|]. split; [reflexivity|].
  apply (relaxing_never_loses_epochs Examples.one_artifact 2 100 2000
           kept1 kept2); try assumption; try reflexivity;
    repeat constructor.
Defined.

(** ** Band powers *)

Section MoreBandPowerFacts.

Import SignalProcessor.
Import QEEGAnalyzer.

Variable scipy_simpson : ndarray → list float → result (list float).

(** A frequency axis whose length differs from the number of PSD columns
    raises [IndexError] as soon as one of its values lies in the band;
    Simpson's rule is not reached. *)
Theorem band_power_axis_mismatch (psd : ndarray) (freqs : list float)
    (band : float * float) :
  Exists (fun f => Spec.in_band band f = true) freqs →
  length freqs ≠ shape1 psd →
  compute_band_power scipy_simpson psd freqs band = Raise IndexError
  ∧ compute_relative_power scipy_simpson psd freqs band None
    = Raise IndexError.
Proof.
  intros Hex Hlen.
  assert (compute_band_power scipy_simpson psd freqs band = Raise IndexError)
    as H.
  { unfold compute_band_power, mask_cols.
    rewrite band_mask_in_band, (np_any_map_true _ _ Hex). simpl.
    rewrite length_map. now apply Nat.eqb_neq in Hlen as ->. }
  split; [exact H|]. unfold compute_relative_power. now rewrite H.
Qed.

(** Before the PSD stage has stored a frequency axis, the first comparison
    of [_compute_band_powers] raises [TypeError]; the object is left as it
    was and no band power is stored. *)
Theorem _compute_band_powers_without_psd (self : t) :
  freqs self = None →
  _compute_band_powers scipy_simpson self = (Raise TypeError, self).
Proof.
  intros H. unfold _compute_band_powers, FREQ_BANDS. cbn [for_eachM].
  unfold mbind, M_bind, get, lift, spectrum. rewrite H.
  destruct (psd self); reflexivity.
Qed.

Local Opaque compute_band_power compute_relative_power.

(** When [_compute_band_powers] returns normally, a spectrum was present,
    both maps hold for every configured band the vector that
    [compute_band_power] and [compute_relative_power] return for it, and no
    other field has changed. *)
Theorem _compute_band_powers_result (self self' : t) :
  _compute_band_powers scipy_simpson self = (Ok tt, self') →
  ∃ p fr,
    psd self = Some p ∧ freqs self = Some fr
    ∧ (∀ band range, (band, range) ∈ FREQ_BANDS →
         ∃ bp rp,
           compute_band_power scipy_simpson p fr range = Ok bp
           ∧ compute_relative_power scipy_simpson p fr range None = Ok rp
           ∧ band_powers self' !! band = Some bp
           ∧ relative_powers self' !! band = Some rp)
    ∧ self' = set_relative_powers (relative_powers self')
                (set_band_powers (band_powers self') self).
Proof.
  destruct self as [pr nm chans fr ps bp rp zs co asy pk st cq cd fd cb].
  unfold _compute_band_powers, FREQ_BANDS. cbn [for_eachM].
  unfold mbind, M_bind, get, lift, modify, mret, M_ret, spectrum. simpl.
  destruct ps as [p|]; [|discriminate].
  destruct fr as [f|]; [|discriminate]. simpl.
  destruct (compute_band_power scipy_simpson p f (1, 4)%float)
    as [b1|] eqn:B1; [simpl|discriminate].
  destruct (compute_relative_power scipy_simpson p f (1, 4)%float None)
    as [r1|] eqn:R1; [simpl|discriminate].
  destruct (compute_band_power scipy_simpson p f (4, 8)%float)
    as [b2|] eqn:B2; [simpl|discriminate].
  destruct (compute_relative_power scipy_simpson p f (4, 8)%float None)
    as [r2|] eqn:R2; [simpl|discriminate].
  destruct (compute_band_power scipy_simpson p f (8, 13)%float)
    as [b3|] eqn:B3; [simpl|discriminate].
  destruct (compute_relative_power scipy_simpson p f (8, 13)%float None)
    as [r3|] eqn:R3; [simpl|discriminate].
  destruct (compute_band_power scipy_simpson p f (13, 25)%float)
    as [b4|] eqn:B4; [simpl|discriminate].
  destruct (compute_relative_power scipy_simpson p f (13, 25)%float None)
    as [r4|] eqn:R4; [simpl|discriminate].
  intros [= <-]. exists p, f. split_and!; try reflexivity.
  intros band range Hin. unfold FREQ_BANDS in Hin. set_unfold in Hin.
  destruct Hin as [[= -> ->]|[[= -> ->]|[[= -> ->]|[[= -> ->]|[]]]]]; simpl;
    [exists b1, r1|exists b2, r2|exists b3, r3|exists b4, r4];
    split_and!; try assumption; by simplify_map_eq.
Qed.

End MoreBandPowerFacts.

Lemma band_power_axis_mismatch_witness :
  SignalProcessor.compute_band_power MoreExamples.toy_simpson
    {| rows := [[1; 2; 3]%float]; shape1 := 3 |} [1; 2]%float (1, 4)%float
  = Raise IndexError.
Proof.
  apply (band_power_axis_mismatch MoreExamples.toy_simpson
           {| rows := [[1; 2; 3]%float]; shape1 := 3 |} [1; 2]%float
           (1, 4)%float).
  - repeat constructor.
  - simpl. lia.
Defined.

Lemma _compute_band_powers_without_psd_witness :
  QEEGAnalyzer._compute_band_powers MoreExamples.toy_simpson
    Examples.three_channels
  = (Raise TypeError, Examples.three_channels).
Proof.
  apply (_compute_band_powers_without_psd MoreExamples.toy_simpson
           Examples.three_channels).
  reflexivity.
Defined.

Lemma _compute_band_powers_result_witness :
  ∃ self',
    QEEGAnalyzer._compute_band_powers MoreExamples.toy_simpson
      MoreExamples.with_spectrum = (Ok tt, self')
    ∧ QEEGAnalyzer.band_powers self' !! "Delta" = Some [3%float]
    ∧ QEEGAnalyzer.relative_powers self' !! "Theta" = Some [0%float].
Proof.
  destruct (QEEGAnalyzer._compute_band_powers MoreExamples.toy_simpson
              MoreExamples.with_spectrum) as [[[]|e] self'] eqn:E;
    [|discriminate E].
  exists self'. split; [reflexivity|].
  destruct (_compute_band_powers_result MoreExamples.toy_simpson
              MoreExamples.with_spectrum self' E)
    as (p & fr & Hp & Hf & Hbands & _).
  injection Hp as <-. injection Hf as <-. split.
  - destruct (Hbands "Delta" (1, 4)%float) as (bp & rp & H1 & _ & H3 & _);
      [unfold FREQ_BANDS; set_solver|].
    rewrite H3. f_equal. injection H1 as <-. reflexivity.
  - destruct (Hbands "Theta" (4, 8)%float) as (bp & rp & _ & H2 & _ & H4);
      [unfold FREQ_BANDS; set_solver|].
    rewrite H4. f_equal. injection H2 as <-. reflexivity.
Defined.

(** ** Peak frequencies *)

Section PeakFacts.

Import QEEGAnalyzer.
Import QEEGAnalyzerMore.

Lemma leb_refl (x : float) : is_nan x = false → (x <=? x)%float = true.
Proof.
  intros Hx. destruct (x <=? x)%float eqn:E; [reflexivity|].
  pose proof (leb_total x x Hx Hx E) as H. congruence.
Qed.

Lemma elem_select_map {A} (p : A → bool) (l : list A) (x : A) :
  x ∈ select (map p l) l → x ∈ l ∧ p x = true.
Proof.
  rewrite select_map_filter. intros H%list_elem_of_In%filter_In.
  destruct H as [H1 H2]. split; [now apply list_elem_of_In|exact H2].
Qed.

Lemma argmax_scan_lt (v : list float) (mp : float) (idx i : nat) :
  idx < i → argmax_scan mp idx i v < i + length v.
Proof.
  revert mp idx i. induction v as [|x v IH]; intros mp idx i Hi; simpl.
  - lia.
  - destruct (x <=? mp)%float.
    + specialize (IH mp idx (S i)). lia.
    + destruct (is_nan x); [lia|]. specialize (IH x i (S i)). lia.
Qed.

Lemma np_argmax_lt (v : list float) (k : nat) :
  np_argmax v = Ok k → k < length v.
Proof.
  destruct v as [|x v]; [discriminate|]. simpl. intros [= <-].
  destruct (is_nan x); [lia|].
  pose proof (argmax_scan_lt v x 0 1). lia.
Qed.

(** The scan keeps the first largest value seen so far. *)
Lemma argmax_scan_spec (v pre : list float) (mp : float) (idx : nat) :
  forallb (fun x => negb (is_nan x)) (pre ++ v) = true →
  pre !! idx = Some mp →
  (∀ x, x ∈ pre → (x <=? mp)%float = true) →
  (∀ j y, j < idx → pre !! j = Some y → (mp <=? y)%float = false) →
  ∃ m, (pre ++ v) !! argmax_scan mp idx (length pre) v = Some m
       ∧ (∀ x, x ∈ pre ++ v → (x <=? m)%float = true)
       ∧ (∀ j y, j < argmax_scan mp idx (length pre) v →
            (pre ++ v) !! j = Some y → (m <=? y)%float = false).
Proof.
  revert pre mp idx. induction v as [|x v IH]; intros pre mp idx Hnan Hidx Hmax Hfirst.
  - simpl. rewrite app_nil_r. exists mp. auto.
  - simpl.
    assert (is_nan x = false) as Hx.
    { rewrite forallb_app in Hnan. apply andb_true_iff in Hnan as [_ Hnan].
      simpl in Hnan. apply andb_true_iff in Hnan as [Hnan _].
      now apply negb_true_iff. }
    assert (is_nan mp = false) as Hmp.
    { rewrite forallb_app in Hnan. apply andb_true_iff in Hnan as [Hnan _].
      rewrite forallb_forall in Hnan. apply negb_true_iff, Hnan.
      apply list_elem_of_In. eapply list_elem_of_lookup_2, Hidx. }
    replace (pre ++ x :: v) with ((pre ++ [x]) ++ v)
      by (rewrite <- app_assoc; reflexivity).
    replace (S (length pre)) with (length (pre ++ [x]))
      by (rewrite length_app; simpl; lia).
    destruct (x <=? mp)%float eqn:E.
    + apply IH.
      * rewrite <- app_assoc. exact Hnan.
      * apply lookup_app_l_Some, Hidx.
      * intros y [Hy|Hy%list_elem_of_singleton]%elem_of_app;
          [now apply Hmax|now subst].
      * intros j y Hj Hy. apply (Hfirst j y Hj).
        rewrite lookup_app_l in Hy; [exact Hy|].
        apply lookup_lt_Some in Hidx. lia.
    + rewrite Hx.
      pose proof (leb_total x mp Hx Hmp E) as Hle.
      apply IH.
      * rewrite <- app_assoc. exact Hnan.
      * rewrite lookup_app_r by lia. now rewrite Nat.sub_diag.
      * intros y [Hy|Hy%list_elem_of_singleton]%elem_of_app.
        -- eapply leb_trans; [apply Hmax, Hy|exact Hle].
        -- subst. now apply leb_refl.
      * intros j y Hj Hy. rewrite lookup_app_l in Hy by exact Hj.
        destruct (x <=? y)%float eqn:Exy; [|reflexivity].
        rewrite (leb_trans x y mp Exy) in E; [discriminate|].
        apply Hmax. eapply list_elem_of_lookup_2, Hy.
Qed.

Lemma np_argmax_spec (v : list float) (k : nat) :
  forallb (fun x => negb (is_nan x)) v = true →
  np_argmax v = Ok k →
  ∃ m, v !! k = Some m
       ∧ (∀ x, x ∈ v → (x <=? m)%float = true)
       ∧ (∀ j y, j < k → v !! j = Some y → (m <=? y)%float = false).
Proof.
  destruct v as [|x v]; [discriminate|]. intros Hnan [= <-].
  assert (is_nan x = false) as Hx.
  { simpl in Hnan. apply andb_true_iff in Hnan as [Hnan _].
    now apply negb_true_iff. }
  rewrite Hx.
  apply (argmax_scan_spec v [x] x 0 Hnan eq_refl).
  - intros y Hy%list_elem_of_singleton. subst. now apply leb_refl.
  - intros j y Hj. lia.
Qed.

(** A reported peak is 0.0 or a value of the frequency axis that lies in
    the band. *)
Lemma peak_of_in_band (freqs ch_psd : list float) (band : float * float)
    (v : float) :
  peak_of (SignalProcessor.band_mask freqs band) freqs ch_psd = Ok v →
  v = 0%float ∨ (v ∈ freqs ∧ Spec.in_band band v = true).
Proof.
  unfold peak_of. rewrite band_mask_in_band.
  destruct (np_any _); [|intros [= <-]; now left].
  unfold bool_index.
  destruct (_ =? length ch_psd)%nat; [simpl|discriminate].
  destruct (np_any _); [|intros [= <-]; now left].
  destruct (np_argmax _) as [k|]; [simpl|discriminate].
  rewrite length_map, Nat.eqb_refl. simpl. unfold getitem.
  destruct (select _ freqs !! k) as [x|] eqn:E; [|discriminate].
  intros [= <-]. right.
  apply (elem_select_map (Spec.in_band band) freqs).
  eapply list_elem_of_lookup_2, E.
Qed.

(** When some PSD value of the band is positive and none is [nan], the
    reported peak is the frequency of the first bin of the band whose PSD
    value is the largest of the band. *)
Theorem peak_of_maximal (freqs ch_psd : list float) (band : float * float)
    (v : float) :
  let mask := SignalProcessor.band_mask freqs band in
  length ch_psd = length freqs →
  forallb (fun x => negb (is_nan x)) (select mask ch_psd) = true →
  Exists (fun x => (0 <? x)%float = true) (select mask ch_psd) →
  peak_of mask freqs ch_psd = Ok v →
  ∃ k top,
    select mask freqs !! k = Some v
    ∧ select mask ch_psd !! k = Some top
    ∧ v ∈ freqs ∧ Spec.in_band band v = true
    ∧ (∀ x, x ∈ select mask ch_psd → (x <=? top)%float = true)
    ∧ (∀ j y, j < k → select mask ch_psd !! j = Some y →
         (top <=? y)%float = false).
Proof.
  intros mask Hlen Hnan Hpos Hpeak.
  assert (np_any mask = true) as Hany.
  { destruct (np_any mask) eqn:E; [reflexivity|]. exfalso.
    assert (select mask ch_psd = []) as Hnil.
    { clear -E. unfold np_any in E. revert ch_psd.
      induction mask as [|b mask IH]; intros [|x l]; simpl in *;
        try reflexivity.
      apply orb_false_iff in E as [-> E]. now apply IH. }
    rewrite Hnil in Hpos. inversion Hpos. }
  unfold peak_of in Hpeak. rewrite Hany in Hpeak. unfold bool_index in Hpeak.
  assert (length mask = length freqs) as Hm
    by (unfold mask; rewrite band_mask_in_band; apply length_map).
  rewrite Hm, Hlen, Nat.eqb_refl in Hpeak. simpl in Hpeak.
  rewrite (np_any_map_true (fun x => (0 <? x)%float) _ Hpos) in Hpeak.
  destruct (np_argmax (select mask ch_psd)) as [k|] eqn:Ek;
    [simpl in Hpeak|discriminate].
  unfold getitem in Hpeak.
  destruct (select mask freqs !! k) as [x|] eqn:Ex; [|discriminate].
  injection Hpeak as ->.
  destruct (np_argmax_spec _ k Hnan Ek) as (top & Htop & Hmax & Hfirst).
  exists k, top. split_and!; try assumption.
  - apply (elem_select_map (Spec.in_band band) freqs).
    unfold mask in Ex. rewrite band_mask_in_band in Ex.
    eapply list_elem_of_lookup_2, Ex.
  - apply (elem_select_map (Spec.in_band band) freqs).
    unfold mask in Ex. rewrite band_mask_in_band in Ex.
    eapply list_elem_of_lookup_2, Ex.
Qed.

Lemma peak_frequencies_loop (alpha_mask total_mask : list bool)
    (fr : list float) (Good : float * float → Prop)
    (l : list (nat * string)) (s s' : t) :
  (∀ ch_psd a d, peak_of alpha_mask fr ch_psd = Ok a →
                 peak_of total_mask fr ch_psd = Ok d → Good (a, d)) →
  for_eachM (peak_frequencies_body alpha_mask total_mask fr) l tt s
    = (Ok tt, s') →
  s' = set_peak_freqs (peak_freqs s') s
  ∧ (∀ ch, ch ∈ l.*2 → ∃ ad, peak_freqs s' !! ch = Some ad ∧ Good ad)
  ∧ (∀ ch ad, peak_freqs s !! ch = Some ad → Good ad →
       ∃ ad', peak_freqs s' !! ch = Some ad' ∧ Good ad')
  ∧ (∀ ch, ch ∉ l.*2 → peak_freqs s' !! ch = peak_freqs s !! ch).
Proof.
  intros HGood. revert s.
  induction l as [|[i ch] l IH]; intros s.
  - simpl. intros [= <-]. split_and!.
    + now destruct s.
    + intros ch Hch. inversion Hch.
    + intros ch ad Had Hg. eauto.
    + reflexivity.
  - assert (for_eachM (peak_frequencies_body alpha_mask total_mask fr)
              ((i, ch) :: l) tt s
            = match peak_frequencies_body alpha_mask total_mask fr tt
                      (i, ch) s with
              | (Ok a, s1) =>
                  for_eachM (peak_frequencies_body alpha_mask total_mask fr)
                    l a s1
              | (Raise e, s1) => (Raise e, s1)
              end) as -> by reflexivity.
    destruct (peak_frequencies_body alpha_mask total_mask fr () (i, ch) s)
      as [[[]|e] s1] eqn:Ebody; [|discriminate].
    assert (∃ ad, Good ad
              ∧ s1 = set_peak_freqs (<[ch := ad]> (peak_freqs s)) s)
      as (ad & Hg & ->).
    { revert Ebody. unfold peak_frequencies_body.
      unfold mbind, M_bind, get, lift, modify, raise, mret, M_ret.
      destruct (psd s) as [p|]; [|discriminate].
      destruct (getitem (rows p) i) as [ch_psd|]; [|discriminate].
      destruct (peak_of alpha_mask fr ch_psd) as [a|] eqn:Ea; [|discriminate].
      destruct (peak_of total_mask fr ch_psd) as [d|] eqn:Ed; [|discriminate].
      intros [= <-]. exists (a, d). split; [eapply HGood; eauto|reflexivity]. }
    intros Hrest. destruct (IH _ Hrest) as (H1 & H2 & H3 & H4).
    split_and!.
    + rewrite H1 at 1. now destruct s.
    + intros c Hc. rewrite fmap_cons in Hc. simpl in Hc.
      apply elem_of_cons in Hc as [->|Hc].
      * apply (H3 ch ad); [|exact Hg]. simpl. apply lookup_insert_eq.
      * now apply H2.
    + intros c ad0 Hc Hg0. destruct (decide (c = ch)) as [->|Hne].
      * apply (H3 ch ad); [|exact Hg]. simpl. apply lookup_insert_eq.
      * apply (H3 c ad0); [|exact Hg0]. simpl.
        now rewrite lookup_insert_ne by congruence.
    + intros c Hc. rewrite fmap_cons in Hc.
      apply not_elem_of_cons in Hc as [Hne Hc]. simpl in Hne.
      rewrite (H4 c Hc). simpl. now rewrite lookup_insert_ne by congruence.
Qed.

(** When [_compute_peak_frequencies] returns normally, the frequency axis
    was present, every channel of the channel list has an entry whose alpha
    peak is 0.0 or an axis value between 8 and 13 Hz and whose dominant
    frequency is 0.0 or an axis value between 1 and 25 Hz, the entries of
    other names are untouched, and no other field has changed. *)
Theorem _compute_peak_frequencies_result (self self' : t) :
  _compute_peak_frequencies self = (Ok tt, self') →
  ∃ fr,
    freqs self = Some fr
    ∧ (∀ ch, ch ∈ eeg_channels self →
         ∃ alpha_peak dominant,
           peak_freqs self' !! ch = Some (alpha_peak, dominant)
           ∧ (alpha_peak = 0%float
              ∨ (alpha_peak ∈ fr
                 ∧ Spec.in_band (8, 13)%float alpha_peak = true))
           ∧ (dominant = 0%float
              ∨ (dominant ∈ fr
                 ∧ Spec.in_band (1, 25)%float dominant = true)))
    ∧ (∀ ch, ch ∉ eeg_channels self →
         peak_freqs self' !! ch = peak_freqs self !! ch)
    ∧ self' = set_peak_freqs (peak_freqs self') self.
Proof.
  unfold _compute_peak_frequencies.
  unfold mbind at 1, M_bind at 1, lift at 1.
  change (dict_get (list_to_map FREQ_BANDS) "Alpha")
    with (Ok (8, 13)%float : result (float * float)).
  cbv iota beta. unfold TOTAL_POWER_RANGE.
  unfold mbind at 1, M_bind at 1, get at 1.
  unfold mbind at 1, M_bind at 1.
  destruct (freqs self) as [fr|] eqn:Efr; [|discriminate].
  unfold mret at 1, M_ret at 1. intros Hloop.
  assert ((enumerate (eeg_channels self)).*2 = eeg_channels self) as Henum.
  { unfold enumerate. apply snd_zip. rewrite length_seq. lia. }
  destruct (peak_frequencies_loop
    (SignalProcessor.band_mask fr (8, 13)%float)
    (SignalProcessor.band_mask fr (1, 25)%float) fr
    (fun ad =>
       (ad.1 = 0%float
        ∨ (ad.1 ∈ fr ∧ Spec.in_band (8, 13)%float ad.1 = true))
       ∧ (ad.2 = 0%float
          ∨ (ad.2 ∈ fr ∧ Spec.in_band (1, 25)%float ad.2 = true)))
    (enumerate (eeg_channels self)) self self') as (H1 & H2 & _ & H4);
    [|exact Hloop|].
  - intros ch_psd a d Ha Hd. simpl. split.
    + exact (peak_of_in_band fr ch_psd (8, 13)%float a Ha).
    + exact (peak_of_in_band fr ch_psd (1, 25)%float d Hd).
  - rewrite Henum in H2, H4. exists fr. split_and!; auto.
    intros ch Hch. destruct (H2 ch Hch) as ([a d] & Hl & Hg1 & Hg2).
    exists a, d. auto.
Qed.

End PeakFacts.

Lemma peak_of_maximal_witness :
  ∃ k top,
    select (SignalProcessor.band_mask [7; 9; 10; 11; 20]%float (8, 13)%float)
      [7; 9; 10; 11; 20]%float !! k = Some 10%float
    ∧ select (SignalProcessor.band_mask [7; 9; 10; 11; 20]%float
                (8, 13)%float)
        [9; 1; 5; 5; 8]%float !! k = Some top
    ∧ Spec.in_band (8, 13)%float 10 = true.
Proof.
  destruct (peak_of_maximal [7; 9; 10; 11; 20]%float [9; 1; 5; 5; 8]%float
              (8, 13)%float 10) as (k & top & Hk & Htop & _ & Hband & _).
  - reflexivity.
  - reflexivity.
  - right. left. reflexivity.
  - reflexivity.
  - exists k, top. auto.
Defined.

Lemma _compute_peak_frequencies_result_witness :
  ∃ self',
    QEEGAnalyzerMore._compute_peak_frequencies MoreExamples.with_spectrum
    = (Ok tt, self')
    ∧ QEEGAnalyzer.peak_freqs self' !! "Cz" = Some (0, 2)%float.
Proof.
  destruct (QEEGAnalyzerMore._compute_peak_frequencies
              MoreExamples.with_spectrum) as [[[]|e] self'] eqn:E;
    [|discriminate E].
  exists self'. split; [reflexivity|].
  destruct (_compute_peak_frequencies_result MoreExamples.with_spectrum
              self' E) as (fr & _ & _ & _ & ->).
  injection E as E. rewrite <- E. reflexivity.
Defined.

(** ** Region spectra *)

Section RegionFacts.

Import QEEGAnalyzer QEEGAnalyzerMore.

(** The comprehension [[chs.index(ch) for ch in channels if ch in chs]]
    never raises, and every index it yields is a position of [chs]. *)
Lemma region_indices (chs channels : list string) :
  ∃ indices,
    mapM (fun ch => index ch chs)
      (List.filter (fun ch => contains ch chs) channels) = Ok indices
    ∧ Forall (fun i => i < length chs) indices
    ∧ length indices
      = length (List.filter (fun ch => contains ch chs) channels).
Proof.
  induction channels as [|ch channels (indices & Hm & Hlt & Hlen)]; simpl.
  - exists []. repeat split. constructor.
  - destruct (index_spec ch chs) as [(Hc & i & Hi & _ & Hi_lt)|(Hc & _)];
      rewrite Hc.
    + exists (i :: indices). simpl. rewrite Hi. simpl. rewrite Hm. simpl.
      repeat split; [constructor; assumption|congruence].
    + exists indices. auto.
Qed.

Lemma filter_absent (chs channels : list string) :
  (∀ ch, ch ∈ channels → contains ch chs = false) →
  List.filter (fun ch => contains ch chs) channels = [].
Proof.
  induction channels as [|ch channels IH]; intros H; simpl; [reflexivity|].
  rewrite (H ch) by constructor. apply IH. intros c Hc. apply H.
  now constructor.
Qed.

Lemma take_rows_ok (p : ndarray) (indices : list nat) :
  Forall (fun i => i < shape0 p) indices →
  ∃ sel, take_rows p indices = Ok sel
         ∧ length sel = length indices
         ∧ ∀ r, r ∈ sel → r ∈ rows p.
Proof.
  unfold take_rows, shape0.
  induction 1 as [|i indices Hi _ (sel & Hsel & Hlen & Hin)]; simpl.
  - exists []. repeat split. intros r Hr. inversion Hr.
  - destruct (lookup_lt_is_Some_2 _ _ Hi) as [r Hr].
    assert (getitem (rows p) i = Ok r) as ->
      by (unfold getitem; now rewrite Hr).
    simpl. rewrite Hsel. simpl. exists (r :: sel).
    repeat split; [simpl; congruence|].
    intros r' [->|Hr']%elem_of_cons; [|auto].
    eapply list_elem_of_lookup_2; eauto.
Qed.

Lemma length_fold_add (rest : list (list float)) (r0 : list float) (w : nat) :
  length r0 = w → Forall (fun r => length r = w) rest →
  length (fold_left (zip_with (fun x y => (x + y)%float)) rest r0) = w.
Proof.
  intros H0 Hrest. revert r0 H0.
  induction Hrest as [|r rest Hr _ IH]; intros r0 H0; simpl; [exact H0|].
  apply IH. rewrite length_zip_with. lia.
Qed.

Lemma length_np_mean_axis0 (m : list (list float)) (w : nat) :
  m ≠ [] → Forall (fun r => length r = w) m →
  length (np_mean_axis0 m) = w.
Proof.
  destruct m as [|r0 rest]; [congruence|]. intros _ Hm.
  apply Forall_cons in Hm as [H0 Hrest]. unfold np_mean_axis0.
  rewrite length_map. now apply length_fold_add.
Qed.

(** A region none of whose channels is in the recording, and so any name
    that is not a region, gets the frequency axis and a spectrum of zeros of
    its length; the PSD is not consulted. *)
Theorem get_region_spectra_no_channel (self : t) (region : string)
    (f : list float) :
  freqs self = Some f →
  (∀ ch, ch ∈ default [] (REGION_MAP !! region) →
         contains ch (eeg_channels self) = false) →
  get_region_spectra self region = Ok (Some f, np_zeros (length f)).
Proof.
  intros Hf Habs. unfold get_region_spectra. cbv zeta.
  rewrite (filter_absent _ _ Habs). simpl. now rewrite Hf.
Qed.

Local Opaque take_rows np_mean_axis0.

(** After the PSD stage, with a row of the PSD for every channel and a
    column for every frequency, [get_region_spectra] returns for every
    region name the frequency axis and an amplitude per frequency. *)
Theorem get_region_spectra_shape (self : t) (region : string)
    (f : list float) (p : ndarray) :
  freqs self = Some f → psd self = Some p →
  well_formed p → shape1 p = length f →
  length (eeg_channels self) ≤ shape0 p →
  ∃ amplitude,
    get_region_spectra self region = Ok (Some f, amplitude)
    ∧ length amplitude = length f.
Proof.
  intros Hf Hp Hwf Hw Hrows. unfold get_region_spectra. cbv zeta.
  destruct (region_indices (eeg_channels self)
              (default [] (REGION_MAP !! region)))
    as (indices & -> & Hlt & _).
  simpl. destruct indices as [|i indices].
  - rewrite Hf. eexists. split; [reflexivity|].
    unfold np_zeros. apply repeat_length.
  - rewrite Hp. simpl.
    destruct (take_rows_ok p (i :: indices)) as (sel & -> & Hlen & Hin).
    { eapply Forall_impl; [exact Hlt|]. simpl. lia. }
    simpl. rewrite Hf. eexists. split; [reflexivity|].
    unfold compute_amplitude_spectrum. rewrite !length_map, <- Hw.
    apply length_np_mean_axis0.
    + destruct sel; [discriminate Hlen|congruence].
    + apply Forall_forall. intros r Hr.
      exact (proj1 (Forall_forall _ _) Hwf r (Hin r Hr)).
Qed.

End RegionFacts.

Lemma get_region_spectra_no_channel_witness :
  QEEGAnalyzerMore.get_region_spectra MoreExamples.with_spectrum "Frontal"
  = Ok (Some [1; 2; 30]%float, [0; 0; 0]%float).
Proof.
  apply (get_region_spectra_no_channel MoreExamples.with_spectrum "Frontal"
           [1; 2; 30]%float).
  - reflexivity.
  - intros ch Hch. vm_compute in Hch.
    repeat (apply elem_of_cons in Hch as [->|Hch]; [reflexivity|]).
    inversion Hch.
Defined.

Lemma get_region_spectra_shape_witness :
  ∃ amplitude,
    QEEGAnalyzerMore.get_region_spectra MoreExamples.with_spectrum "Central"
    = Ok (Some [1; 2; 30]%float, amplitude)
    ∧ length amplitude = 3.
Proof.
  apply (get_region_spectra_shape MoreExamples.with_spectrum "Central"
           [1; 2; 30]%float {| rows := [[1; 2; 3]%float]; shape1 := 3 |}).
  - reflexivity.
  - reflexivity.
  - repeat constructor.
  - reflexivity.
  - unfold shape0. simpl. lia.
Defined.

(** ** Asymmetry without a complete pair, or without band powers *)

Section MoreAsymmetryFacts.

Import QEEGAnalyzer.

Variable np_log : float → float.

Lemma asymmetry_pairs_none (band_name : string)
    (pairs : list (string * string))
    (acc : list ((string * string) * float)) (self : t) :
  existsb (MoreSpec.complete_pair (eeg_channels self)) pairs = false →
  for_eachM (fun pairs_values '(left_ch, right_ch) =>
      self ← get;
      if contains left_ch (eeg_channels self)
         && contains right_ch (eeg_channels self)
      then
        left_idx ← lift (index left_ch (eeg_channels self));
        right_idx ← lift (index right_ch (eeg_channels self));
        bp ← lift (dict_get (band_powers self) band_name);
        left_power ← lift (getitem bp left_idx);
        right_power ← lift (getitem bp right_idx);
        let left_power := py_max left_power 1e-20 in
        let right_power := py_max right_power 1e-20 in
        let asym := (np_log right_power - np_log left_power)%float in
        mret (pairs_values ++ [((left_ch, right_ch), asym)])
      else mret pairs_values)
    pairs acc self
  = (Ok acc, self).
Proof.
  induction pairs as [|[left_ch right_ch] pairs IH]; [reflexivity|].
  cbn [existsb]. intros [Hc Hrest]%orb_false_elim.
  cbn [for_eachM]. unfold mbind at 1, M_bind at 1.
  unfold mbind at 1, M_bind at 1, get at 1.
  unfold MoreSpec.complete_pair in Hc. cbn [fst snd] in Hc. rewrite Hc.
  unfold mret at 1, M_ret at 1. exact (IH Hrest).
Qed.

Lemma asymmetry_pairs_key_error (band_name : string)
    (pairs : list (string * string))
    (acc : list ((string * string) * float)) (self : t) :
  band_powers self !! band_name = None →
  existsb (MoreSpec.complete_pair (eeg_channels self)) pairs = true →
  for_eachM (fun pairs_values '(left_ch, right_ch) =>
      self ← get;
      if contains left_ch (eeg_channels self)
         && contains right_ch (eeg_channels self)
      then
        left_idx ← lift (index left_ch (eeg_channels self));
        right_idx ← lift (index right_ch (eeg_channels self));
        bp ← lift (dict_get (band_powers self) band_name);
        left_power ← lift (getitem bp left_idx);
        right_power ← lift (getitem bp right_idx);
        let left_power := py_max left_power 1e-20 in
        let right_power := py_max right_power 1e-20 in
        let asym := (np_log right_power - np_log left_power)%float in
        mret (pairs_values ++ [((left_ch, right_ch), asym)])
      else mret pairs_values)
    pairs acc self
  = (Raise KeyError, self).
Proof.
  intros Hbp.
  induction pairs as [|[left_ch right_ch] pairs IH]; [discriminate|].
  cbn [existsb for_eachM]. intros Hex.
  unfold mbind at 1, M_bind at 1.
  unfold mbind at 1, M_bind at 1, get at 1.
  unfold MoreSpec.complete_pair at 1 in Hex. cbn [fst snd] in Hex.
  destruct (contains left_ch (eeg_channels self)
            && contains right_ch (eeg_channels self)) eqn:Hc.
  - apply andb_prop in Hc as [Hl Hr].
    destruct (index_spec left_ch (eeg_channels self))
      as [(_ & li & Hil & _)|(Hcl & _)]; [|congruence].
    destruct (index_spec right_ch (eeg_channels self))
      as [(_ & ri & Hir & _)|(Hcr & _)]; [|congruence].
    unfold mbind, M_bind, lift, dict_get. now rewrite Hil, Hir, Hbp.
  - unfold mret at 1, M_ret at 1. exact (IH Hex).
Qed.

(** When no configured pair has both of its channels in the recording,
    [_compute_asymmetry] returns normally with an empty list for each of the
    four bands and changes nothing else; it reads no band power, so it does
    so even before the band-power stage. *)
Theorem _compute_asymmetry_no_pair (self : t) :
  existsb (MoreSpec.complete_pair (eeg_channels self)) ASYMMETRY_PAIRS = false →
  _compute_asymmetry np_log self
  = (Ok tt,
     set_asymmetry
       (<["Beta" := []]> (<["Alpha" := []]> (<["Theta" := []]>
        (<["Delta" := []]> (asymmetry self))))) self).
Proof.
  intros Hnone. unfold _compute_asymmetry, FREQ_BANDS. cbn [for_eachM].
  pose proof (fun band s => asymmetry_pairs_none band ASYMMETRY_PAIRS [] s)
    as R.
  cbv zeta in R.
  unfold mbind at 1, M_bind at 1. unfold mbind at 1, M_bind at 1.
  rewrite (R "Delta" self Hnone). unfold modify at 1.
  unfold mbind at 1, M_bind at 1. unfold mbind at 1, M_bind at 1.
  rewrite (R "Theta" (set_asymmetry _ self) Hnone). unfold modify at 1.
  unfold mbind at 1, M_bind at 1. unfold mbind at 1, M_bind at 1.
  rewrite (R "Alpha" (set_asymmetry _ (set_asymmetry _ self)) Hnone).
  unfold modify at 1.
  unfold mbind at 1, M_bind at 1. unfold mbind at 1, M_bind at 1.
  rewrite (R "Beta" (set_asymmetry _ (set_asymmetry _ (set_asymmetry _ self)))
             Hnone).
  unfold modify at 1. reflexivity.
Qed.

(** When some configured pair is complete and the band powers have no entry
    for the first band, [_compute_asymmetry] raises [KeyError] and leaves the
    analyzer as it was. *)
Theorem _compute_asymmetry_without_band_powers (self : t) :
  existsb (MoreSpec.complete_pair (eeg_channels self)) ASYMMETRY_PAIRS = true →
  band_powers self !! "Delta" = None →
  _compute_asymmetry np_log self = (Raise KeyError, self).
Proof.
  intros Hsome Hbp. unfold _compute_asymmetry, FREQ_BANDS. cbn [for_eachM].
  pose proof (fun s => asymmetry_pairs_key_error "Delta" ASYMMETRY_PAIRS [] s)
    as R.
  cbv zeta in R.
  unfold mbind at 1, M_bind at 1. unfold mbind at 1, M_bind at 1.
  now rewrite (R self Hbp Hsome).
Qed.

End MoreAsymmetryFacts.

Lemma _compute_asymmetry_no_pair_witness :
  (QEEGAnalyzer._compute_asymmetry Examples.toy_log
     MoreExamples.with_spectrum).1 = Ok tt.
Proof.
  rewrite (_compute_asymmetry_no_pair Examples.toy_log
             MoreExamples.with_spectrum); reflexivity.
Defined.

Lemma _compute_asymmetry_without_band_powers_witness :
  QEEGAnalyzer._compute_asymmetry Examples.toy_log
    (QEEGAnalyzer.__init__ ["F3"; "F4"] (SignalProcessor.__init__ 500)
       {| NormativeDB._method := "within" |})
  = (Raise KeyError,
     QEEGAnalyzer.__init__ ["F3"; "F4"] (SignalProcessor.__init__ 500)
       {| NormativeDB._method := "within" |}).
Proof.
  apply (_compute_asymmetry_without_band_powers Examples.toy_log);
    reflexivity.
Defined.

(** ** The coherence matrices *)

Section MoreLoopFacts.

Context {A L S : Type}.

Lemma bind_ok {B C} (m : M S B) (k : B → M S C) (s s' : S) (r : C) :
  (m ≫= k) s = (Ok r, s') →
  ∃ a s1, m s = (Ok a, s1) ∧ k a s1 = (Ok r, s').
Proof.
  unfold mbind, M_bind. destruct (m s) as [[a|e] s1]; [eauto|discriminate].
Qed.

(** A loop that returns normally has established, element by element, what
    each of its normal steps establishes. *)
Lemma for_eachM_post (P : list A → L → S → Prop) (body : L → A → M S L)
    (l : list A) (acc : L) (s : S) (r : L) (s' : S) :
  P [] acc s →
  (∀ pre x acc s acc' s',
     P pre acc s → x ∈ l → body acc x s = (Ok acc', s') →
     P (pre ++ [x]) acc' s') →
  for_eachM body l acc s = (Ok r, s') → P l r s'.
Proof.
  intros H0 Hstep.
  assert (∀ rest pre acc s,
            P pre acc s → (∀ x, x ∈ rest → x ∈ l) →
            for_eachM body rest acc s = (Ok r, s') → P (pre ++ rest) r s')
    as Hgen.
  { induction rest as [|x rest IH]; intros pre acc0 s0 HP Hsub; simpl.
    - intros [= <- <-]. now rewrite app_nil_r.
    - intros (acc1 & s1 & Hx & Hrest)%bind_ok.
      replace (pre ++ x :: rest) with ((pre ++ [x]) ++ rest)
        by now rewrite <- app_assoc.
      apply (IH _ acc1 s1); [|intros y Hy; apply Hsub; now right|exact Hrest].
      eapply Hstep; [exact HP|apply Hsub; now left|exact Hx]. }
  exact (Hgen l [] acc s H0 (fun x H => H)).
Qed.

End MoreLoopFacts.

Section CoherenceMatrixFacts.

Import QEEGAnalyzer MoreSpec.

Variable scipy_coherence :
  list float → list float → float → Z → result (list float * list float).

Lemma entry_setitem2 (n i j a b : nat) (v : float) (m : list (list float)) :
  square n m → i < n → j < n →
  entry (setitem2 i j v m) a b
  = if decide (a = i ∧ b = j) then Some v else entry m a b.
Proof.
  intros [Hlen Hrows] Hi Hj. unfold entry, setitem2.
  destruct (decide (a = i)) as [->|Hne].
  - rewrite list_lookup_alter_eq.
    destruct (lookup_lt_is_Some_2 m i ltac:(lia)) as [row Hrow].
    rewrite Hrow. simpl.
    assert (length row = n) as Hw.
    { eapply (proj1 (Forall_forall _ _) Hrows), list_elem_of_lookup_2, Hrow. }
    destruct (decide (b = j)) as [->|Hnb].
    + rewrite decide_True by auto. apply list_lookup_insert_eq. lia.
    + rewrite decide_False by (intros [_ ?]; auto).
      now rewrite list_lookup_insert_ne by auto.
  - rewrite decide_False by (intros [? _]; auto).
    now rewrite list_lookup_alter_ne by auto.
Qed.

Lemma square_setitem2 (n i j : nat) (v : float) (m : list (list float)) :
  square n m → square n (setitem2 i j v m).
Proof.
  intros [Hlen Hrows]. unfold setitem2. split.
  - now rewrite length_alter.
  - apply Forall_alter; [exact Hrows|]. intros row _ Hrow.
    now rewrite length_insert.
Qed.

Lemma entry_np_eye (n a b : nat) :
  entry (np_eye n) a b
  = if decide (a < n ∧ b < n)
    then Some (if (a =? b)%nat then 1%float else 0%float) else None.
Proof.
  unfold entry, np_eye.
  change (map ?g ?l) with (g <$> l).
  rewrite list_lookup_fmap.
  destruct (decide (a < n)) as [Ha|Ha].
  - rewrite (lookup_seq_lt 0 n a Ha). simpl.
    change (map ?g ?l) with (g <$> l).
    rewrite list_lookup_fmap.
    destruct (decide (b < n)) as [Hb|Hb].
    + rewrite (lookup_seq_lt 0 n b Hb). simpl.
      now rewrite decide_True by auto.
    + rewrite decide_False by (intros [_ ?]; auto).
      rewrite (proj2 (lookup_ge_None (seq 0 n) b));
        [reflexivity|rewrite length_seq; lia].
  - rewrite decide_False by (intros [? _]; auto).
    rewrite (proj2 (lookup_ge_None (seq 0 n) a));
      [reflexivity|rewrite length_seq; lia].
Qed.

Lemma symmetric_unit_eye (n : nat) : symmetric_unit n (np_eye n).
Proof.
  split_and!.
  - unfold square, np_eye. rewrite length_map, length_seq. split; [easy|].
    apply Forall_forall. intros row Hrow.
    apply list_elem_of_In, in_map_iff in Hrow as (i & <- & _).
    now rewrite length_map, length_seq.
  - intros i Hi. rewrite entry_np_eye, decide_True by auto.
    now rewrite Nat.eqb_refl.
  - intros i j. rewrite !entry_np_eye, (Nat.eqb_sym j i).
    destruct (decide (i < n ∧ j < n)) as [[? ?]|Hn].
    + now rewrite decide_True by auto.
    + rewrite decide_False; [reflexivity|]. intros [? ?]. apply Hn. auto.
Qed.

(** The two assignments [matrix[i, j] = v; matrix[j, i] = v] for [i < j]
    inside the matrix keep it square, symmetric and with a unit diagonal. *)
Lemma symmetric_unit_set (n i j : nat) (v : float) (m : list (list float)) :
  i < j → j < n → symmetric_unit n m →
  symmetric_unit n (setitem2 j i v (setitem2 i j v m)).
Proof.
  intros Hij Hj (Hsq & Hdiag & Hsym).
  pose proof (square_setitem2 n i j v m Hsq) as Hsq1.
  assert (∀ a b,
            entry (setitem2 j i v (setitem2 i j v m)) a b
            = if decide (a = j ∧ b = i) then Some v
              else if decide (a = i ∧ b = j) then Some v else entry m a b)
    as Hentry.
  { intros a b.
    rewrite (entry_setitem2 n j i a b v _ Hsq1) by lia.
    now rewrite (entry_setitem2 n i j a b v m Hsq) by lia. }
  split_and!.
  - now apply square_setitem2.
  - intros a Ha. rewrite Hentry.
    rewrite decide_False by lia. rewrite decide_False by lia. now apply Hdiag.
  - intros a b. rewrite !Hentry.
    destruct (decide (a = j ∧ b = i)) as [[-> ->]|H1].
    + rewrite decide_False by lia. now rewrite decide_True by auto.
    + destruct (decide (a = i ∧ b = j)) as [[-> ->]|H2].
      * now rewrite decide_True by auto.
      * rewrite decide_False by (intros [? ?]; apply H2; auto).
        rewrite decide_False by (intros [? ?]; apply H1; auto).
        apply Hsym.
Qed.

Lemma elem_of_range_from (i n j : nat) :
  j ∈ range_from i n → i < j ∧ j < n.
Proof. unfold range_from. rewrite elem_of_seq. lia. Qed.

(** The nested loops that fill one band's matrix. *)
Lemma band_matrix_loops (spectra : gmap (nat * nat) (list float))
    (band_mask : list bool) (n : nat) (w w' : world)
    (m : list (list float)) :
  for_eachM (fun matrix i =>
      for_eachM (fun matrix j =>
          Cxy ← lift (dict_get spectra (i, j));
          sel ← lift (bool_index band_mask Cxy);
          let mean_coh := np_mean sel in
          mret (setitem2 j i mean_coh (setitem2 i j mean_coh matrix)))
        (range_from i n) matrix)
    (seq 0 n) (np_eye n) w
  = (Ok m, w') →
  symmetric_unit n m ∧ w' = w.
Proof.
  apply (for_eachM_post (fun _ acc s => symmetric_unit n acc ∧ s = w)).
  - split; [apply symmetric_unit_eye|reflexivity].
  - intros _ i acc s acc' s' Hacc _.
    apply (for_eachM_post (fun _ acc s => symmetric_unit n acc ∧ s = w));
      [exact Hacc|].
    clear. intros _ j acc s acc' s' [Hacc ->] [Hij Hj]%elem_of_range_from.
    intros (Cxy & s1 & H1 & (sel & s2 & H2 & Hret)%bind_ok)%bind_ok.
    cbv zeta in Hret. unfold lift in H1, H2.
    injection H1 as _ <-. injection H2 as _ <-. injection Hret as <- <-.
    split; [now apply symmetric_unit_set|reflexivity].
Qed.

(** When [_compute_coherence] returns normally, the matrix it has stored
    for each of the four bands has one row and one column per channel, ones
    on its diagonal, and the same value at [(i, j)] and at [(j, i)]. *)
Theorem _compute_coherence_matrices (w w' : world) :
  _compute_coherence scipy_coherence w = (Ok tt, w') →
  ∀ band, band ∈ FREQ_BANDS.*1 →
    ∃ matrix,
      coherence w'.1 !! band = Some matrix
      ∧ symmetric_unit (n_eeg w.1) matrix.
Proof.
  unfold _compute_coherence.
  intros (self & w0 & Hget & Hrest)%bind_ok.
  assert (self = w.1) as ->.
  { revert Hget. unfold on_self, get. now intros [= <- _]. }
  clear Hget. cbv zeta in Hrest.
  apply bind_ok in Hrest as (loc & w1 & _ & Hbands).
  set (n := n_eeg w.1) in *.
  revert Hbands.
  apply (for_eachM_post
           (fun pre (_ : unit) (s : world) =>
              ∀ band, band ∈ pre.*1 →
                ∃ matrix, coherence s.1 !! band = Some matrix
                          ∧ symmetric_unit n matrix)).
  - intros band Hband. inversion Hband.
  - intros pre [band_name [f_low f_high]] [] s [] s' Hpre _.
    intros (fr & s1 & Hf & (matrix & s2 & Hm & Hset)%bind_ok)%bind_ok.
    apply band_matrix_loops in Hm as [Hm ->].
    assert (s1 = s) as ->.
    { destruct (f loc); revert Hf; unfold mret, M_ret, raise;
        [now intros [= _ <-]|discriminate]. }
    revert Hset. unfold on_self, modify. intros [= <-]. cbn [fst].
    intros band Hband. rewrite fmap_app in Hband.
    destruct (decide (band = band_name)) as [->|Hne].
    + exists matrix. split; [apply lookup_insert_eq|exact Hm].
    + apply elem_of_app in Hband as [Hband|Hband].
      * destruct (Hpre band Hband) as (m0 & Hm0 & Hsym).
        exists m0. split; [|exact Hsym]. simpl.
        now rewrite lookup_insert_ne by congruence.
      * simpl in Hband. apply list_elem_of_singleton in Hband. congruence.
Qed.

End CoherenceMatrixFacts.

Lemma _compute_coherence_matrices_witness :
  ∃ matrix,
    QEEGAnalyzer.coherence
      (QEEGAnalyzer._compute_coherence Examples.toy_coherence
         (Examples.two_channels, [])).2.1 !! "Alpha" = Some matrix
    ∧ MoreSpec.symmetric_unit 2 matrix.
Proof.
  apply (_compute_coherence_matrices Examples.toy_coherence
           (Examples.two_channels, [])
           (QEEGAnalyzer._compute_coherence Examples.toy_coherence
              (Examples.two_channels, [])).2).
  - reflexivity.
  - right. right. left.
Defined.

(** ** The worker's signals *)

Section WorkerFacts.

Import QEEGAnalyzer AnalysisWorker MoreSpec.

Variable scipy_simpson : ndarray → list float → result (list float).
Variable scipy_coherence :
  list float → list float → float → Z → result (list float * list float).
Variable np_log : float → float.
Variable _get_eeg_data : M t ndarray.
Variable _detect_channel_quality : M t unit.
Variable _apply_channel_filtering : M t unit.
Variable _compute_psd : M t unit.

Let pipeline : M world unit :=
  run_full_analysis scipy_simpson scipy_coherence np_log _get_eeg_data
    _detect_channel_quality _apply_channel_filtering _compute_psd
    QEEGAnalyzerMore._compute_peak_frequencies.

(** [run_full_analysis] after its first notification. *)
Let after_first : M world unit :=
  on_self _detect_channel_quality;;
  _report_progress 4 "Applying adaptive filtering...";;
  on_self _apply_channel_filtering;;
  _report_progress 6 "Rejecting artifacts...";;
  on_self (_reject_artifacts _get_eeg_data);;
  _report_progress 10 "Computing power spectral density...";;
  on_self _compute_psd;;
  _report_progress 20 "Computing band powers...";;
  on_self (_compute_band_powers scipy_simpson);;
  _report_progress 35 "Computing Z-scores...";;
  on_self _compute_zscores;;
  _report_progress 45 "Computing coherence...";;
  _compute_coherence scipy_coherence;;
  _report_progress 85 "Computing asymmetry...";;
  on_self (_compute_asymmetry np_log);;
  _report_progress 92 "Finding peak frequencies...";;
  on_self QEEGAnalyzerMore._compute_peak_frequencies;;
  _report_progress 100 "Analysis complete".

Lemma pipeline_first (w : world) :
  _progress_callback w.1 = true →
  pipeline w
  = after_first
      (w.1, w.2 ++ [(2%Z, "Detecting high-impedance channels...")]).
Proof.
  intros Hcb. unfold pipeline, run_full_analysis.
  unfold mbind at 1, M_bind at 1, _report_progress at 1.
  now rewrite Hcb.
Qed.

Local Ltac report lo p :=
  eapply (emits_then_bind lo p 92 100 (fun _ => True));
  [lia|lia|apply emits_report; lia|intros _].

Local Ltac stage p :=
  eapply (emits_then_bind p p 92 100 (fun _ => True));
  [lia|lia|apply emits_on_self|intros _].

Lemma after_first_emits : Spec.emits_then 2 92 100 after_first.
Proof.
  unfold after_first.
  stage 2%Z. report 2%Z 4%Z. stage 4%Z.
  report 4%Z 6%Z. stage 6%Z. report 6%Z 10%Z. stage 10%Z.
  report 10%Z 20%Z. stage 20%Z. report 20%Z 35%Z. stage 35%Z.
  report 35%Z 45%Z.
  eapply (emits_then_bind 45 85 92 100 (fun _ => True));
    [lia|lia|apply _compute_coherence_emits|intros _].
  report 85%Z 85%Z. stage 85%Z. report 85%Z 92%Z. stage 92%Z.
  apply emits_then_report.
Qed.

(** Whatever the pipeline does, the worker's signals are: first
    [progress(2, ...)], then further [progress] signals with non-decreasing
    percentages between 2 and 100, then exactly one of [finished] and
    [error], which is the last signal; and a [progress] of 100 is sent only
    in a run that ends with [finished]. *)
Theorem worker_signals (analyzer : t) :
  ∃ calls terminal,
    (run scipy_simpson scipy_coherence np_log _get_eeg_data
       _detect_channel_quality _apply_channel_filtering _compute_psd
       analyzer).1
    = progress 2 "Detecting high-impedance channels..."
      :: map _on_progress calls ++ [terminal]
    ∧ (terminal = finished ∨ ∃ e, terminal = error e)
    ∧ StronglySorted Z.le (2%Z :: calls.*1)
    ∧ Forall (fun p => (2 <= p <= 100)%Z) calls.*1
    ∧ (100%Z ∈ calls.*1 → terminal = finished).
Proof.
  unfold run. cbv zeta. fold pipeline.
  rewrite pipeline_first by reflexivity. cbn [fst snd app].
  destruct (after_first_emits
              (set_progress_callback analyzer,
               [(2%Z, "Detecting high-impedance channels...")]))
    as (new & last & E & Hnew & Hlast).
  destruct (after_first _) as [r [analyzer' calls]]. simpl in E, Hlast.
  subst calls. exists (new ++ last), (match r with
                                      | Ok _ => finished
                                      | Raise e => error e
                                      end).
  assert (Spec.between 92 100 (map fst last)) as Hl.
  { destruct Hlast as [->|[-> _]];
      [apply between_nil|apply between_singleton; lia]. }
  pose proof (between_app 2 92 100 _ _ ltac:(lia) ltac:(lia) Hnew Hl)
    as [Hs Hall].
  rewrite <- map_app in Hs, Hall.
  change (map fst (new ++ last)) with ((new ++ last).*1) in Hs, Hall.
  split_and!.
  - reflexivity.
  - destruct r; eauto.
  - constructor; [exact Hs|].
    eapply Forall_impl; [exact Hall|]. simpl. lia.
  - exact Hall.
  - intros H100. rewrite fmap_app in H100.
    apply elem_of_app in H100 as [H|H].
    + destruct Hnew as [_ Hb]. rewrite Forall_forall in Hb.
      apply Hb in H. lia.
    + destruct Hlast as [->|[_ Hok]]; [inversion H|].
      destruct r; [reflexivity|discriminate].
Qed.

Lemma quiet_report (hi : Z) (I : t → Prop) (percent : Z) (message : string) :
  (percent <= hi)%Z → quiet hi I (_report_progress percent message).
Proof.
  intros Hp w Hw. unfold _report_progress.
  destruct (_progress_callback w.1); simpl.
  - exists [(percent, message)]. repeat split; auto.
  - exists []. rewrite app_nil_r. repeat split; auto.
Qed.

Lemma quiet_on_self (hi : Z) (I : t → Prop) {A} (m : M t A) :
  (∀ s, I s → I (m s).2) → quiet hi I (on_self m).
Proof.
  intros Hm [s tr] Hw. unfold on_self. simpl in *.
  specialize (Hm s Hw). destruct (m s) as [r s']. simpl in *.
  exists []. rewrite app_nil_r. repeat split; auto.
Qed.

Lemma fails_bind_l (hi : Z) (I : t → Prop) {A B} (m : M world A)
    (k : A → M world B) :
  fails hi I m → fails hi I (m ≫= k).
Proof.
  intros Hm w Hw. destruct (Hm w Hw) as (new & e & Hr & Htr & Hall).
  unfold mbind, M_bind. destruct (m w) as [[a|e'] w']; simpl in *;
    [discriminate|]. eauto.
Qed.

Lemma fails_bind_r (hi : Z) (I : t → Prop) {A B} (m : M world A)
    (k : A → M world B) :
  quiet hi I m → (∀ a, fails hi I (k a)) → fails hi I (m ≫= k).
Proof.
  intros Hm Hk w Hw. destruct (Hm w Hw) as (new & Htr & Hall & HI).
  unfold mbind, M_bind. destruct (m w) as [[a|e] w']; simpl in *.
  - destruct (Hk a w' HI) as (new' & e & Hr & Htr' & Hall').
    exists (new ++ new'), e. rewrite Hr, Htr', Htr, app_assoc.
    repeat split. now apply Forall_app.
  - exists new, e. auto.
Qed.

(** Below two channels the pair loop has nothing to do, the local [f] is
    never bound, and the first band raises. *)
Lemma coherence_unbound (w : world) :
  n_eeg w.1 < 2 →
  _compute_coherence scipy_coherence w = (Raise UnboundLocalError, w).
Proof.
  destruct w as [self tr]. unfold n_eeg. simpl.
  destruct self as [pr nm chans fr ps bp rp zs co asy pk st cq cd fd cb].
  simpl. destruct chans as [|c1 [|c2 chans]]; simpl; intros H;
    [reflexivity|reflexivity|lia].
Qed.

Lemma _reject_artifacts_channels (s : t) :
  (∀ s, eeg_channels (_get_eeg_data s).2 = eeg_channels s) →
  eeg_channels (_reject_artifacts _get_eeg_data s).2 = eeg_channels s.
Proof.
  intros Hload. unfold _reject_artifacts.
  unfold mbind at 1, M_bind at 1, get at 1.
  unfold mbind at 1, M_bind at 1.
  assert (∃ r s1, (match _filtered_data s with
                   | Some d => mret d
                   | None => _get_eeg_data
                   end) s = (r, s1) ∧ eeg_channels s1 = eeg_channels s)
    as (r & s1 & -> & <-).
  { destruct (_filtered_data s).
    - eexists _, _. split; reflexivity.
    - specialize (Hload s). destruct (_get_eeg_data s) as [r s1]. eauto. }
  destruct r as [data|e]; [|reflexivity].
  unfold mbind at 1, M_bind at 1, get at 1.
  destruct (SignalProcessor.reject_artifacts data None None (processor s1))
    as [[clean|e] p]; reflexivity.
Qed.

Lemma _compute_band_powers_channels (s : t) :
  eeg_channels (_compute_band_powers scipy_simpson s).2 = eeg_channels s.
Proof.
  unfold _compute_band_powers.
  apply (for_eachM_invariant (fun s' => eeg_channels s' = eeg_channels s));
    [|reflexivity].
  clear. intros [] [band_name band_range] s' Hs.
  unfold mbind, M_bind, get, lift, modify.
  destruct (spectrum s') as [[p fr]|e]; [|exact Hs].
  destruct (SignalProcessor.compute_band_power scipy_simpson p fr band_range)
    as [bp|e]; [|exact Hs].
  destruct (SignalProcessor.compute_relative_power scipy_simpson p fr
              band_range None) as [rp|e]; exact Hs.
Qed.

Lemma _compute_zscores_channels (s : t) :
  eeg_channels (_compute_zscores s).2 = eeg_channels s.
Proof.
  pose proof (_compute_zscores_frame s s (same_upstream_refl s)) as H.
  symmetry. apply H.
Qed.

(** A recording with fewer than two EEG channels never ends with
    [finished]: the worker's last signal is [error], and no [progress]
    beyond 45 is sent.  The four stages that consist of library calls are
    only assumed to leave the channel list alone. *)
Theorem worker_single_channel (analyzer : t) :
  (∀ s, eeg_channels (_get_eeg_data s).2 = eeg_channels s) →
  (∀ s, eeg_channels (_detect_channel_quality s).2 = eeg_channels s) →
  (∀ s, eeg_channels (_apply_channel_filtering s).2 = eeg_channels s) →
  (∀ s, eeg_channels (_compute_psd s).2 = eeg_channels s) →
  n_eeg analyzer < 2 →
  ∃ calls e,
    (run scipy_simpson scipy_coherence np_log _get_eeg_data
       _detect_channel_quality _apply_channel_filtering _compute_psd
       analyzer).1
    = map _on_progress calls ++ [error e]
    ∧ Forall (fun c => (c.1 <= 45)%Z) calls.
Proof.
  intros Hload Hquality Hfilter Hpsd Hn.
  assert (fails 45 (fun s => n_eeg s < 2) pipeline) as Hfails.
  { unfold pipeline, run_full_analysis.
    assert (∀ {A} (m : M t A),
              (∀ s, eeg_channels (m s).2 = eeg_channels s) →
              quiet 45 (fun s => n_eeg s < 2) (on_self m)) as Hstage.
    { intros A m Hm. apply quiet_on_self. intros s Hs.
      unfold n_eeg in *. now rewrite Hm. }
    apply fails_bind_r; [apply quiet_report; lia|intros _].
    apply fails_bind_r; [now apply Hstage|intros _].
    apply fails_bind_r; [apply quiet_report; lia|intros _].
    apply fails_bind_r; [now apply Hstage|intros _].
    apply fails_bind_r; [apply quiet_report; lia|intros _].
    apply fails_bind_r;
      [apply Hstage; intros s; now apply _reject_artifacts_channels
      |intros _].
    apply fails_bind_r; [apply quiet_report; lia|intros _].
    apply fails_bind_r; [now apply Hstage|intros _].
    apply fails_bind_r; [apply quiet_report; lia|intros _].
    apply fails_bind_r;
      [apply Hstage; apply _compute_band_powers_channels|intros _].
    apply fails_bind_r; [apply quiet_report; lia|intros _].
    apply fails_bind_r;
      [apply Hstage; apply _compute_zscores_channels|intros _].
    apply fails_bind_r; [apply quiet_report; lia|intros _].
    apply fails_bind_l. intros w Hw. rewrite (coherence_unbound w Hw).
    exists [], UnboundLocalError. simpl. rewrite app_nil_r. auto. }
  unfold run. cbv zeta. fold pipeline.
  destruct (Hfails (set_progress_callback analyzer, [])) as
    (new & e & Hr & Htr & Hall); [exact Hn|].
  destruct (pipeline _) as [r [analyzer' calls]]. simpl in *.
  subst r calls. exists new, e. auto.
Qed.

End WorkerFacts.

Lemma worker_single_channel_witness :
  ∃ calls e,
    (AnalysisWorker.run MoreExamples.toy_simpson Examples.toy_coherence
       Examples.toy_log Examples.no_loader (mret tt) (mret tt) (mret tt)
       (Examples.filtered 1 Examples.two_epochs)).1
    = map AnalysisWorker._on_progress calls ++ [AnalysisWorker.error e]
    ∧ Forall (fun c => (c.1 <= 45)%Z) calls.
Proof.
  apply (worker_single_channel MoreExamples.toy_simpson
           Examples.toy_coherence Examples.toy_log Examples.no_loader
           (mret tt) (mret tt) (mret tt)
           (Examples.filtered 1 Examples.two_epochs)).
  - reflexivity.
  - reflexivity.
  - reflexivity.
  - reflexivity.
  - unfold QEEGAnalyzer.n_eeg. simpl. lia.
Defined.

(** ** The portable copy of artifact rejection *)

Section IPadFacts.

Import SignalProcessor.

Lemma relax_step (data : ndarray) (es n : Z) (relaxed : float)
    (ladder : list float) (clean0 : list ndarray) (self : t) :
  relax data es n (relaxed :: ladder) clean0 self
  = match scan_epochs data es n relaxed with
    | Ok clean1 =>
        if (MIN_CLEAN_EPOCHS <=? length clean1)%nat
        then (Ok clean1, set_rejection_threshold relaxed self)
        else relax data es n ladder clean1
               (set_rejection_threshold relaxed self)
    | Raise e => (Raise e, self)
    end.
Proof.
  cbn [relax]. unfold mbind, M_bind, lift, modify.
  destruct (scan_epochs data es n relaxed) as [clean1|e]; [|reflexivity].
  destruct (MIN_CLEAN_EPOCHS <=? length clean1)%nat; reflexivity.
Qed.

Lemma ipad_relax_agrees (data : ndarray) (es n : Z) (ladder : list float)
    (clean0 : list ndarray) (thr0 : float) (self : t) :
  match IPadSignalProcessing.relax data es n ladder clean0 thr0 with
  | Ok (clean_epochs, threshold) =>
      ∃ self',
        relax data es n ladder clean0 self = (Ok clean_epochs, self')
        ∧ n_total_epochs self' = n_total_epochs self
        ∧ n_clean_epochs self' = n_clean_epochs self
        ∧ (rejection_threshold self = thr0 →
           rejection_threshold self' = threshold)
  | Raise e => (relax data es n ladder clean0 self).1 = Raise e
  end.
Proof.
  revert clean0 thr0 self.
  induction ladder as [|relaxed ladder IH]; intros clean0 thr0 self.
  - simpl. exists self. auto.
  - rewrite relax_step. cbn [IPadSignalProcessing.relax].
    change (IPadSignalProcessing.scan_epochs data es n relaxed)
      with (scan_epochs data es n relaxed).
    change IPadSignalProcessing.MIN_CLEAN_EPOCHS with MIN_CLEAN_EPOCHS.
    destruct (scan_epochs data es n relaxed) as [clean1|e];
      [|reflexivity].
    cbn [mbind result_bind].
    destruct (MIN_CLEAN_EPOCHS <=? length clean1)%nat.
    + exists (set_rejection_threshold relaxed self). auto.
    + specialize (IH clean1 relaxed (set_rejection_threshold relaxed self)).
      destruct (IPadSignalProcessing.relax data es n ladder clean1 relaxed)
        as [[clean_epochs threshold]|e]; [|exact IH].
      destruct IH as (self' & Hrun & Ht & Hc & Hthr).
      exists self'. split; [exact Hrun|]. auto.
Qed.

Lemma reject_artifacts_unfold (self : t) (data : ndarray)
    (threshold_uv epoch_sec : option float) :
  let threshold := py_or threshold_uv ARTIFACT_THRESHOLD_UV in
  reject_artifacts data threshold_uv epoch_sec self
  = match py_int (py_or epoch_sec EPOCH_DURATION_SEC * sfreq self)%float with
    | Raise e => (Raise e, self)
    | Ok es =>
      match floordiv (Z.of_nat (shape1 data)) es with
      | Raise e => (Raise e, self)
      | Ok n =>
        if (n =? 0)%Z
        then (Ok data, set_n_total_epochs 0 (set_n_clean_epochs 0 self))
        else
          match scan_epochs data es n threshold with
          | Raise e => (Raise e, self)
          | Ok clean1 =>
            match (if (length clean1 <? MIN_CLEAN_EPOCHS)%nat
                   then relax data es n RELAXED_THRESHOLDS clean1
                   else mret clean1)
                    (set_rejection_threshold threshold
                       (set_n_total_epochs n self)) with
            | (Raise e, s2) => (Raise e, s2)
            | (Ok clean2, s2) =>
              if (length clean2 <? MIN_CLEAN_EPOCHS)%nat
              then (Ok data,
                    set_rejection_threshold infinity
                      (set_n_clean_epochs n s2))
              else (np_concatenate_axis1 clean2,
                    set_n_clean_epochs (Z.of_nat (length clean2)) s2)
            end
          end
      end
    end.
Proof.
  cbv zeta. unfold reject_artifacts, mbind, M_bind, get, lift, modify.
  destruct (py_int _) as [es|e]; [|reflexivity].
  destruct (floordiv _ es) as [n|e]; [|reflexivity].
  destruct (n =? 0)%Z; [reflexivity|].
  destruct (scan_epochs data es n _) as [clean1|e]; [|reflexivity].
  destruct ((if (length clean1 <? MIN_CLEAN_EPOCHS)%nat
             then relax data es n RELAXED_THRESHOLDS clean1
             else mret clean1) _) as [[clean2|e] s2]; [|reflexivity].
  destruct (length clean2 <? MIN_CLEAN_EPOCHS)%nat; reflexivity.
Qed.

(** The portable [reject_artifacts] and the desktop method agree on every
    input: they raise the same exception or return the same matrix, and the
    dictionary of the one holds the counters of the other, with
    [rejected = total - clean]; the thresholds agree whenever the recording
    holds at least one epoch. *)
Theorem ipad_reject_artifacts_agrees (self : t) (data : ndarray)
    (threshold_uv epoch_sec : option float) :
  let desktop := reject_artifacts data threshold_uv epoch_sec self in
  match IPadSignalProcessing.reject_artifacts data (sfreq self)
          threshold_uv epoch_sec with
  | Ok (clean_data, st) =>
      desktop.1 = Ok clean_data
      ∧ n_total_epochs desktop.2 = IPadSignalProcessing.total st
      ∧ n_clean_epochs desktop.2 = IPadSignalProcessing.clean st
      ∧ IPadSignalProcessing.rejected st
        = (IPadSignalProcessing.total st - IPadSignalProcessing.clean st)%Z
      ∧ (IPadSignalProcessing.total st ≠ 0%Z →
         rejection_threshold desktop.2 = IPadSignalProcessing.threshold st)
  | Raise e => desktop.1 = Raise e
  end.
Proof.
  cbv zeta.
  pose proof (reject_artifacts_unfold self data threshold_uv epoch_sec) as U.
  cbv zeta in U. rewrite U. clear U.
  unfold IPadSignalProcessing.reject_artifacts.
  change IPadSignalProcessing.ARTIFACT_THRESHOLD_UV
    with ARTIFACT_THRESHOLD_UV.
  change IPadSignalProcessing.EPOCH_DURATION_SEC with EPOCH_DURATION_SEC.
  change IPadSignalProcessing.MIN_CLEAN_EPOCHS with MIN_CLEAN_EPOCHS.
  change [150; 200; 300; 500]%float with RELAXED_THRESHOLDS.
  set (threshold := py_or threshold_uv ARTIFACT_THRESHOLD_UV).
  cbv zeta.
  destruct (py_int _) as [es|e]; [|reflexivity].
  cbn [mbind result_bind].
  destruct (floordiv _ es) as [n|e]; [|reflexivity].
  cbn [mbind result_bind].
  destruct (n =? 0)%Z eqn:En.
  { cbn. repeat split. intros H. now contradiction H. }
  change (IPadSignalProcessing.scan_epochs data es n threshold)
    with (scan_epochs data es n threshold).
  destruct (scan_epochs data es n threshold) as [clean1|e]; [|reflexivity].
  cbn [mbind result_bind].
  set (s1 := set_rejection_threshold threshold (set_n_total_epochs n self)).
  assert (match (if (length clean1 <? MIN_CLEAN_EPOCHS)%nat
                 then IPadSignalProcessing.relax data es n
                        RELAXED_THRESHOLDS clean1 threshold
                 else Ok (clean1, threshold)) with
          | Ok (clean_epochs, thr) =>
              ∃ s2,
                (if (length clean1 <? MIN_CLEAN_EPOCHS)%nat
                 then relax data es n RELAXED_THRESHOLDS clean1
                 else mret clean1) s1 = (Ok clean_epochs, s2)
                ∧ n_total_epochs s2 = n
                ∧ rejection_threshold s2 = thr
          | Raise e =>
              ((if (length clean1 <? MIN_CLEAN_EPOCHS)%nat
                then relax data es n RELAXED_THRESHOLDS clean1
                else mret clean1) s1).1 = Raise e
          end) as Hrelax.
  { destruct (length clean1 <? MIN_CLEAN_EPOCHS)%nat.
    - pose proof (ipad_relax_agrees data es n RELAXED_THRESHOLDS clean1
                    threshold s1) as H.
      destruct (IPadSignalProcessing.relax data es n RELAXED_THRESHOLDS
                  clean1 threshold) as [[clean_epochs thr]|e]; [|exact H].
      destruct H as (s2 & Hrun & Ht & _ & Hthr).
      exists s2. split; [exact Hrun|]. split; [exact Ht|].
      now apply Hthr.
    - exists s1. auto. }
  destruct (if (length clean1 <? MIN_CLEAN_EPOCHS)%nat
            then IPadSignalProcessing.relax data es n
                   RELAXED_THRESHOLDS clean1 threshold
            else Ok (clean1, threshold))
    as [[clean_epochs thr]|e].
  2:{ destruct ((if (length clean1 <? MIN_CLEAN_EPOCHS)%nat
                 then relax data es n RELAXED_THRESHOLDS clean1
                 else mret clean1) s1) as [r s2]. cbn [fst] in Hrelax.
      now subst r. }
  destruct Hrelax as (s2 & -> & Ht & Hthr).
  cbn [mbind result_bind].
  destruct (length clean_epochs <? MIN_CLEAN_EPOCHS)%nat.
  - cbn. repeat split; auto. lia.
  - destruct (np_concatenate_axis1 clean_epochs) as [clean_data|e];
      [|reflexivity].
    cbn. repeat split; auto.
Qed.

End IPadFacts.

(** ** The values of the coherence matrices *)

Section MoreLoopFacts2.

Context {A L S : Type}.

(** [for_eachM_post] with the position of the element in the list. *)
Lemma for_eachM_prefix (P : list A → L → S → Prop) (body : L → A → M S L)
    (l : list A) (acc : L) (s : S) (r : L) (s' : S) :
  P [] acc s →
  (∀ pre x rest acc s acc' s',
     l = pre ++ x :: rest → P pre acc s → body acc x s = (Ok acc', s') →
     P (pre ++ [x]) acc' s') →
  for_eachM body l acc s = (Ok r, s') → P l r s'.
Proof.
  intros H0 Hstep.
  assert (∀ rest pre acc s,
            l = pre ++ rest → P pre acc s →
            for_eachM body rest acc s = (Ok r, s') → P l r s') as Hgen.
  { induction rest as [|x rest IH]; intros pre acc0 s0 Hl HP; simpl.
    - intros [= <- <-]. rewrite app_nil_r in Hl. now subst l.
    - intros (acc1 & s1 & Hx & Hrest)%bind_ok.
      apply (IH (pre ++ [x]) acc1 s1); [|eapply Hstep; eauto|exact Hrest].
      now rewrite <- app_assoc. }
  exact (Hgen l [] acc s eq_refl H0).
Qed.

End MoreLoopFacts2.

Section CoherenceValueFacts.

Import QEEGAnalyzer MoreSpec.

Variable scipy_coherence :
  list float → list float → float → Z → result (list float * list float).

Lemma on_self_get (w : world) : on_self get w = (Ok w.1, w).
Proof. now destruct w. Qed.

Lemma _report_progress_self (percent : Z) (message : string) (w : world) :
  (_report_progress percent message w).1 = Ok tt
  ∧ (_report_progress percent message w).2.1 = w.1.
Proof. unfold _report_progress. destruct (_progress_callback w.1); auto. Qed.

Lemma pair_loops_sound (self : t) (n : nat) (total_pairs : Z)
    (loc0 loc : coh_locals) (w w' : world) :
  w.1 = self → spectra_sound scipy_coherence self loc0 →
  for_eachM (fun loc i =>
      for_eachM (fun loc j =>
          d ← match _clean_data self with
              | Some d => mret d
              | None => raise TypeError
              end;
          xi ← lift (getitem (rows d) i);
          xj ← lift (getitem (rows d) j);
          self ← on_self get;
          '(f, Cxy) ← lift (SignalProcessor.compute_coherence
                              scipy_coherence (processor self) xi xj None);
          let done := (done loc + 1)%Z in
          (if (done mod 20 =? 0)%Z
           then _report_progress (coherence_percent done total_pairs)
                  (coherence_message done total_pairs)
           else mret tt);;
          mret {| coh_spectra := <[(i, j) := Cxy]> (coh_spectra loc);
                  done := done;
                  f := Some f |})
        (range_from i n) loc)
    (seq 0 n) loc0 w
  = (Ok loc, w') →
  w'.1 = self ∧ spectra_sound scipy_coherence self loc.
Proof.
  intros Hw H0.
  apply (for_eachM_post (fun _ loc s => s.1 = self ∧ spectra_sound scipy_coherence self loc));
    [auto|].
  clear. intros _ i loc s loc' s' Hinv _.
  apply (for_eachM_post (fun _ loc s => s.1 = self ∧ spectra_sound scipy_coherence self loc));
    [exact Hinv|].
  clear. intros _ j loc s loc' s' [Hs [Hsp Hf]] _.
  intros (d & s1 & Hd & Hrest)%bind_ok.
  assert (_clean_data self = Some d ∧ s1 = s) as [Hdata ->].
  { destruct (_clean_data self); revert Hd; unfold mret, M_ret, raise;
      [now intros [= -> ->]|discriminate]. }
  clear Hd.
  apply bind_ok in Hrest as (xi & s1 & Hxi & Hrest).
  unfold lift, getitem in Hxi.
  destruct (rows d !! i) as [xi'|] eqn:Ei; [|discriminate].
  injection Hxi as -> <-.
  apply bind_ok in Hrest as (xj & s1 & Hxj & Hrest).
  unfold lift, getitem in Hxj.
  destruct (rows d !! j) as [xj'|] eqn:Ej; [|discriminate].
  injection Hxj as -> <-.
  apply bind_ok in Hrest as (self' & s1 & Hget & Hrest).
  rewrite on_self_get in Hget. injection Hget as <- <-.
  apply bind_ok in Hrest as ([fr Cxy] & s1 & Hcoh & Hrest).
  unfold lift in Hcoh. injection Hcoh as Hcoh <-.
  cbv zeta in Hrest.
  apply bind_ok in Hrest as ([] & s1 & Hrep & Hret).
  assert (s1.1 = s.1) as Hs1.
  { destruct (_ =? 0)%Z.
    - pose proof (_report_progress_self
                    (coherence_percent (done loc + 1) total_pairs)
                    (coherence_message (done loc + 1) total_pairs) s)
        as [_ H].
      now rewrite Hrep in H.
    - revert Hrep. unfold mret, M_ret. now intros [= <-]. }
  unfold mret, M_ret in Hret. injection Hret as <- <-.
  rewrite Hs in Hcoh.
  assert (pair_spectrum scipy_coherence self i j fr Cxy) as Hpair
    by (exists d, xi, xj; auto).
  split; [congruence|]. split; simpl.
  - intros a b C. destruct (decide ((i, j) = (a, b))) as [[= <- <-]|Hne].
    + rewrite lookup_insert_eq. intros [= <-]. eauto.
    + rewrite lookup_insert_ne by exact Hne. apply Hsp.
  - intros fr' [= <-]. eauto.
Qed.

(** The nested loops that fill one band's matrix, with the values they
    store above the diagonal. *)
Lemma band_matrix_values (spectra : gmap (nat * nat) (list float))
    (band_mask : list bool) (n : nat) (w w' : world)
    (m : list (list float)) :
  for_eachM (fun matrix i =>
      for_eachM (fun matrix j =>
          Cxy ← lift (dict_get spectra (i, j));
          sel ← lift (bool_index band_mask Cxy);
          let mean_coh := np_mean sel in
          mret (setitem2 j i mean_coh (setitem2 i j mean_coh matrix)))
        (range_from i n) matrix)
    (seq 0 n) (np_eye n) w
  = (Ok m, w') →
  ∀ i j, i < j < n →
    ∃ Cxy, spectra !! (i, j) = Some Cxy
           ∧ length Cxy = length band_mask
           ∧ entry m i j = Some (np_mean (select band_mask Cxy)).
Proof.
  set (value := fun (m : list (list float)) i j =>
         ∃ Cxy, spectra !! (i, j) = Some Cxy
                ∧ length Cxy = length band_mask
                ∧ entry m i j = Some (np_mean (select band_mask Cxy))).
  intros Hrun.
  enough (symmetric_unit n m
          ∧ ∀ i, i ∈ seq 0 n → ∀ j, i < j < n → value m i j) as [_ H].
  { intros i j Hij. apply H; [apply elem_of_seq; lia|exact Hij]. }
  revert Hrun.
  apply (for_eachM_post
           (fun pre acc _ =>
              symmetric_unit n acc
              ∧ ∀ i, i ∈ pre → ∀ j, i < j < n → value acc i j)).
  { split; [apply symmetric_unit_eye|]. intros i Hi. inversion Hi. }
  intros pre i acc s acc' s' [Hsu Hpre] Hi Hrun.
  apply elem_of_seq in Hi.
  enough (symmetric_unit n acc'
          ∧ (∀ a, a ∈ pre → ∀ b, a < b < n → value acc' a b)
          ∧ ∀ j, j ∈ range_from i n → value acc' i j) as (H1 & H2 & H3).
  { split; [exact H1|]. intros a [Ha|Ha]%elem_of_app b Hab.
    - now apply H2.
    - apply list_elem_of_singleton in Ha as ->. apply H3.
      unfold range_from. apply elem_of_seq. lia. }
  revert Hrun.
  apply (for_eachM_post
           (fun pre' acc _ =>
              symmetric_unit n acc
              ∧ (∀ a, a ∈ pre → ∀ b, a < b < n → value acc a b)
              ∧ ∀ j, j ∈ pre' → value acc i j)).
  { split; [exact Hsu|]. split; [exact Hpre|]. intros j Hj. inversion Hj. }
  clear acc s acc' s' Hsu Hpre.
  intros pre' j acc s acc' s' (Hsu & Hpre & Hpre') [Hij Hj]%elem_of_range_from.
  intros (Cxy & s1 & H1 & (sel & s2 & H2 & Hret)%bind_ok)%bind_ok.
  cbv zeta in Hret. unfold lift in H1, H2.
  injection H1 as H1 <-. injection H2 as H2 <-. injection Hret as <- <-.
  unfold dict_get in H1.
  destruct (spectra !! (i, j)) as [C|] eqn:EC; [|discriminate].
  injection H1 as ->.
  unfold bool_index in H2.
  destruct (length band_mask =? length Cxy)%nat eqn:El; [|discriminate].
  apply Nat.eqb_eq in El. injection H2 as <-.
  set (v := np_mean (select band_mask Cxy)).
  pose proof Hsu as (Hsq & _ & _).
  pose proof (square_setitem2 n i j v acc Hsq) as Hsq1.
  assert (∀ a b,
            entry (setitem2 j i v (setitem2 i j v acc)) a b
            = if decide (a = j ∧ b = i) then Some v
              else if decide (a = i ∧ b = j) then Some v else entry acc a b)
    as Hentry.
  { intros a b.
    rewrite (entry_setitem2 n j i a b v _ Hsq1) by lia.
    now rewrite (entry_setitem2 n i j a b v acc Hsq) by lia. }
  assert (value (setitem2 j i v (setitem2 i j v acc)) i j) as Hnew.
  { exists Cxy. split; [exact EC|]. split; [lia|].
    rewrite Hentry, decide_False by lia. now rewrite decide_True by auto. }
  assert (∀ a b, a < b → value acc a b →
            value (setitem2 j i v (setitem2 i j v acc)) a b) as Hkeep.
  { intros a b Hab (C & HC & Hlen & He).
    destruct (decide (a = i ∧ b = j)) as [[-> ->]|Hne]; [exact Hnew|].
    exists C. split; [exact HC|]. split; [exact Hlen|].
    rewrite Hentry, decide_False by lia. now rewrite decide_False by exact Hne. }
  split; [now apply symmetric_unit_set|]. split.
  - intros a Ha b Hab. apply Hkeep; [lia|now apply Hpre].
  - intros j' [Hj'|Hj']%elem_of_app.
    + destruct (decide (i < j')) as [Hlt|Hge].
      * apply Hkeep; [exact Hlt|now apply Hpre'].
      * destruct (Hpre' j' Hj') as (C & HC & Hlen & He).
        destruct (decide (j' = j)) as [->|Hne]; [exact Hnew|].
        exists C. split; [exact HC|]. split; [exact Hlen|].
        rewrite Hentry, decide_False by lia. now rewrite decide_False by lia.
    + apply list_elem_of_singleton in Hj' as ->. exact Hnew.
Qed.

Lemma NoDup_band_names : NoDup FREQ_BANDS.*1.
Proof. apply (bool_decide_unpack _). vm_compute. exact I. Qed.

(** When [_compute_coherence] returns normally, there is one frequency
    axis, returned by [compute_coherence] for one of the pairs, on which
    every band is selected; every pair's spectrum has as many bins as that
    axis; and in each band's matrix the entry of a pair [i < j] is the mean
    of the pair's spectrum over the bins of the band. *)
Theorem _compute_coherence_values (w w' : world) :
  _compute_coherence scipy_coherence w = (Ok tt, w') →
  ∃ fr,
    (∃ i j Cxy, pair_spectrum scipy_coherence w.1 i j fr Cxy)
    ∧ ∀ band range, (band, range) ∈ FREQ_BANDS →
        ∃ matrix,
          coherence w'.1 !! band = Some matrix
          ∧ ∀ i j, i < j < n_eeg w.1 →
              ∃ fij Cxy,
                pair_spectrum scipy_coherence w.1 i j fij Cxy
                ∧ length Cxy = length fr
                ∧ entry matrix i j
                  = Some (np_mean
                            (select (SignalProcessor.band_mask fr range)
                               Cxy)).
Proof.
  unfold _compute_coherence.
  intros (self & w0 & Hget & Hrest)%bind_ok.
  rewrite on_self_get in Hget. injection Hget as <- <-.
  apply bind_ok in Hrest as (loc & w1 & Hpairs & Hbands).
  apply (pair_loops_sound w.1) in Hpairs as [Hw1 [Hsp Hf]];
    [|reflexivity|split; [intros i j C H; inversion H|discriminate]].
  destruct (f loc) as [fr|] eqn:Efr.
  2:{ exfalso. revert Hbands. unfold FREQ_BANDS. cbn [for_eachM].
      intros ([] & s1 & (x & s2 & Hx & _)%bind_ok & _)%bind_ok.
      discriminate Hx. }
  exists fr. split; [now apply Hf|].
  set (n := n_eeg w.1) in *.
  revert Hbands.
  apply (for_eachM_prefix
           (fun pre (_ : unit) (s : world) =>
              ∀ band range, (band, range) ∈ pre →
                ∃ matrix,
                  coherence s.1 !! band = Some matrix
                  ∧ ∀ i j, i < j < n →
                      ∃ fij Cxy,
                        pair_spectrum scipy_coherence w.1 i j fij Cxy
                        ∧ length Cxy = length fr
                        ∧ entry matrix i j
                          = Some (np_mean
                                    (select
                                       (SignalProcessor.band_mask fr range)
                                       Cxy)))).
  - intros band range H. inversion H.
  - intros pre [band_name [f_low f_high]] rest [] s [] s' Hlist Hpre.
    intros (fr' & s1 & Hfr & (matrix & s2 & Hm & Hset)%bind_ok)%bind_ok.
    unfold mret, M_ret in Hfr. injection Hfr as <- <-.
    pose proof (band_matrix_values _ _ _ _ _ _ Hm) as Hvals.
    apply band_matrix_loops in Hm as [_ ->].
    revert Hset. unfold on_self, modify. intros [= <-]. cbn [fst].
    intros band range [Hin|Hin]%elem_of_app.
    + assert (band ≠ band_name) as Hne.
      { intros ->. pose proof NoDup_band_names as Hnd.
        rewrite Hlist, fmap_app, fmap_cons in Hnd.
        apply NoDup_app in Hnd as (_ & Hnd & _).
        apply (Hnd band_name); [|now left].
        apply list_elem_of_fmap. exists (band_name, range). auto. }
      destruct (Hpre band range Hin) as (m0 & Hm0 & H0).
      exists m0. split; [|exact H0]. simpl.
      now rewrite lookup_insert_ne by congruence.
    + apply list_elem_of_singleton in Hin. injection Hin as -> ->.
      exists matrix. split; [apply lookup_insert_eq|].
      intros i j Hij. destruct (Hvals i j Hij) as (Cxy & HC & Hlen & He).
      destruct (Hsp i j Cxy HC) as (fij & Hpair).
      exists fij, Cxy. split; [exact Hpair|]. split; [|exact He].
      rewrite Hlen. unfold SignalProcessor.band_mask.
      now rewrite length_map.
Qed.

End CoherenceValueFacts.

Lemma _compute_coherence_values_witness :
  ∃ fr matrix,
    QEEGAnalyzer.coherence
      (QEEGAnalyzer._compute_coherence Examples.toy_coherence
         (Examples.two_channels, [])).2.1 !! "Alpha" = Some matrix
    ∧ ∃ fij Cxy,
        MoreSpec.pair_spectrum Examples.toy_coherence Examples.two_channels
          0 1 fij Cxy
        ∧ MoreSpec.entry matrix 0 1
          = Some (np_mean
                    (select (SignalProcessor.band_mask fr (8, 13)%float)
                       Cxy)).
Proof.
  destruct (_compute_coherence_values Examples.toy_coherence
              (Examples.two_channels, [])
              (QEEGAnalyzer._compute_coherence Examples.toy_coherence
                 (Examples.two_channels, [])).2 eq_refl)
    as (fr & _ & Hbands).
  destruct (Hbands "Alpha" (8, 13)%float) as (matrix & Hm & Hvals).
  { right. right. left. }
  destruct (Hvals 0 1) as (fij & Cxy & Hpair & _ & He).
  { unfold QEEGAnalyzer.n_eeg. simpl. lia. }
  exists fr, matrix. split; [exact Hm|]. exists fij, Cxy. auto.
Defined.
